(** * Sparse distributed memory and its bundle codec

    A shallow embedding of the Python sources of the repository
    (compression_test.py, sdmTest.py, sparse_malicious_memory.py) and the
    properties of the specification checked against it.

    Python integers are modelled as [Z], Python lists of integers as
    [list Z], indexing [l[i]] as a fallible lookup that raises
    [IndexError] out of range, and [raise] as the [Raise] constructor of
    the [result] type. *)

From Stdlib Require Import ZArith List Bool Lia SpecFloat.
From stdpp Require Import base list.
Import ListNotations.

Local Open Scope Z_scope.

(** ** Exceptions and the error monad *)

(** The exceptions the modelled code can raise.  The [ValueError]s carry
    the value printed in the message of the [raise] statement. *)
Inductive exn : Type :=
  | IndexError
  | ZeroDivisionError
  | OverflowError
  | ValueError_odd_length            (* "Encoded RLE data should have an even number of elements" *)
  | ValueError_invalid_value (v : Z) (* "Invalid value in RLE data: {val}. Expected 0 or 1." *)
  | ValueError_byte_range (v : Z)    (* "Value {byte} in keys_flat is out of byte range (0-255)." *)
  | ValueError_vote_range (v : Z)    (* "Vote count {val} is out of range (-128 to 127)." *)
  | ValueError_bytes                 (* bytes(): "bytes must be in range(0, 256)" *)
  | ValueError_nan                   (* int(): "cannot convert float NaN to integer" *)
  | ValueError_range_step            (* range(): "range() arg 3 must not be zero" *)
  | ValueError_bytearray.            (* bytearray.append(): "byte must be in range(0, 256)" *)

Inductive result (A : Type) : Type :=
  | Ok (a : A)
  | Raise (e : exn).
Arguments Ok {A} a.
Arguments Raise {A} e.

Definition bind {A B : Type} (m : result A) (k : A -> result B) : result B :=
  match m with
  | Ok a => k a
  | Raise e => Raise e
  end.

Notation "'let*' x ':=' m 'in' k" := (bind m (fun x => k))
  (at level 10, x name, m at level 100, k at level 200).

(** [l[i]] for a non-negative index. *)
Definition getitem {A : Type} (l : list A) (i : nat) : result A :=
  match l !! i with
  | Some x => Ok x
  | None => Raise IndexError
  end.

(** [l[a:b]] for non-negative bounds: out-of-range bounds are clipped. *)
Definition slice {A : Type} (l : list A) (a b : Z) : list A :=
  take (Z.to_nat b - Z.to_nat a)%nat (drop (Z.to_nat a) l).

(** [[x] * k]: the empty list when [k <= 0]. *)
Definition list_mul {A : Type} (x : A) (k : Z) : list A :=
  repeat x (Z.to_nat k).

(** [len(l)] as a Python integer. *)
Definition len {A : Type} (l : list A) : Z := Z.of_nat (length l).

(** A bit, as the code tests it. *)
Definition is_bit (v : Z) : Prop := v = 0 \/ v = 1.

(** [range(k)]: empty when [k <= 0]. *)
Definition range (k : Z) : list Z := map Z.of_nat (seq 0 (Z.to_nat k)).

(** [range(0, stop, step)] for a non-zero [step] and [stop >= 0]: empty
    when [step] is negative. *)
Definition range_step (stop step : Z) : list Z :=
  if step <? 0 then []
  else map (fun k => k * step) (range ((stop + step - 1) / step)).

(** [[l[i:i+k] for i in range(0, len(l), k)]]; [range] raises
    [ValueError] on a zero step. *)
Definition chunks_of {A : Type} (l : list A) (k : Z) : result (list (list A)) :=
  if k =? 0 then Raise ValueError_range_step
  else Ok (map (fun i => slice l i (i + k)) (range_step (len l) k)).

(** [bytes(l)] for a list of integers: every element must be a byte. *)
Definition bytes (l : list Z) : result (list Z) :=
  if forallb (fun b => (0 <=? b) && (b <=? 255)) l then Ok l
  else Raise ValueError_bytes.

(** [for j in js: retrieved[j] += data[i][j]], the inner loop of every
    [lookup]; [retrieved[j]] is read before [data[i][j]] is. *)
Fixpoint accumulate (i : nat) (js : list nat) (data : list (list Z))
    (retrieved : list Z) : result (list Z) :=
  match js with
  | [] => Ok retrieved
  | j :: js' =>
      let* r := getitem retrieved j in
      let* row := getitem data i in
      let* c := getitem row j in
      accumulate i js' data (<[j := r + c]> retrieved)
  end.

(** ** The pseudorandom generator

    [random] is the Python standard library's module-level generator; the
    code only relies on it being a deterministic function of its state.
    [seed s] is the state after [random.seed(s)], [randint a b g] the
    value of [random.randint(a, b)] in state [g] and the state after it. *)
Class Random : Type := {
  rng : Type;
  seed : Z -> rng;
  randint : Z -> Z -> rng -> Z * rng
}.

(** [[random.randint(0, 1) for _ in range(n)]] *)
Fixpoint random_vector `{Random} (n : nat) (g : rng) : list Z * rng :=
  match n with
  | O => ([], g)
  | S n' =>
      let '(x, g1) := randint 0 1 g in
      let '(xs, g2) := random_vector n' g1 in
      (x :: xs, g2)
  end.

(** [[[random.randint(0, 1) for _ in range(n)] for _ in range(p)]] *)
Fixpoint random_matrix `{Random} (p n : nat) (g : rng) : list (list Z) * rng :=
  match p with
  | O => ([], g)
  | S p' =>
      let '(row, g1) := random_vector n g in
      let '(rows, g2) := random_matrix p' n g1 in
      (row :: rows, g2)
  end.

(** A linear congruential generator, to run the definitions on. *)
Definition lcg : Random := {|
  rng := Z;
  seed := fun s => s;
  randint := fun a b g =>
    let g' := (1103515245 * g + 12345) mod 2147483648 in
    (a + (g' / 65536) mod (b - a + 1), g')
|}.

(** ** Floating point

    Python floats are IEEE 754 binary64 numbers, here the [spec_float]s of
    precision 53 and maximal exponent 1024 with the operations of
    [SpecFloat] (round to nearest, ties to even). *)
Definition prec : Z := 53.
Definition emax : Z := 1024.

(** The literal [0.451]: the binary64 number nearest to 451/1000, which is
    8124493727776375 / 2^54 (see [float_0_451_nearest]). *)
Definition float_0_451 : spec_float := S754_finite false 8124493727776375 (-54).

(** Conversion of an [int] operand to [float]; Python raises
    [OverflowError] where the rounded value is not finite. *)
Definition float_of_int (n : Z) : result spec_float :=
  match binary_normalize prec emax n 0 false with
  | S754_infinity _ => Raise OverflowError
  | f => Ok f
  end.

(** [0.451 * n] for an [int] [n]. *)
Definition mul_0_451 (n : Z) : result spec_float :=
  let* fn := float_of_int n in
  Ok (SFmul prec emax float_0_451 fn).

(** [int(f)]: truncation towards zero. *)
Definition int_of_float (f : spec_float) : result Z :=
  match f with
  | S754_zero _ => Ok 0
  | S754_finite s m e =>
      Ok (cond_Zopp s (if 0 <=? e then Zpos m * 2 ^ e else Zpos m / 2 ^ (- e)))
  | S754_infinity _ => Raise OverflowError
  | S754_nan => Raise ValueError_nan
  end.

(** [h <= f] for an [int] [h] and a [float] [f]; Python compares the two
    exactly, as numbers. *)
Definition int_le_float (h : Z) (f : spec_float) : bool :=
  match f with
  | S754_zero _ => h <=? 0
  | S754_finite s m e =>
      if 0 <=? e then h <=? cond_Zopp s (Zpos m * 2 ^ e)
      else h * 2 ^ (- e) <=? cond_Zopp s (Zpos m)
  | S754_infinity s => negb s
  | S754_nan => false
  end.


Module compression_test.

(** ** The bit codec *)

(** [file_to_binary], from the bytes [f.read()] returns: the bits of each
    byte, most significant first. *)
Definition file_to_binary (byte_data : list Z) : list Z :=
  flat_map (fun byte =>
              map (fun i => Z.land (Z.shiftr byte i) 1) [7; 6; 5; 4; 3; 2; 1; 0])
           byte_data.

(** The [for bit in binary_array[i:i+8]] loop: [byte = (byte << 1) | bit]. *)
Definition pack_bits (group : list Z) : Z :=
  fold_left (fun byte bit => Z.lor (Z.shiftl byte 1) bit) group 0.

(** The [for i in range(0, len(binary_array), 8)] loop of
    [binary_to_file]; [byte_data.append] accepts bytes only. *)
Fixpoint binary_to_file_loop (binary_array : list Z) (is_ : list Z)
    (byte_data : list Z) : result (list Z) :=
  match is_ with
  | [] => Ok byte_data
  | i :: is' =>
      let byte := pack_bits (slice binary_array i (i + 8)) in
      if (0 <=? byte) && (byte <=? 255)
      then binary_to_file_loop binary_array is' (byte_data ++ [byte])
      else Raise ValueError_bytearray
  end.

(** [binary_to_file]: the bytes written to the output file. *)
Definition binary_to_file (binary_array : list Z) : result (list Z) :=
  binary_to_file_loop binary_array (range_step (len binary_array) 8) [].

(** ** The memory engine *)

(** [sum(x != y for x, y in zip(a, b))]: [zip] stops at the shorter of
    the two vectors. *)
Definition hamming_distance (a b : list Z) : Z :=
  fold_left Z.add (zip_with (fun x y => if x =? y then 0 else 1) a b) 0.

(** The attributes of an [SDM] object. *)
Record SDM : Type := {
  p : Z;
  n : Z;
  keys : list (list Z);
  data : list (list Z);
  radius : Z
}.

(** [self.radius = int(0.451 * n)] *)
Definition init_radius (n : Z) : result Z :=
  let* f := mul_0_451 n in
  int_of_float f.

(** [SDM.__init__(p, n, seed)]: the object and the state of the generator
    after it.  The rows of [data] are distinct lists. *)
Definition SDM_init `{Random} (p n seed_ : Z) : result (SDM * rng) :=
  let '(ks, g) := random_matrix (Z.to_nat p) (Z.to_nat n) (seed seed_) in
  let zeros := map (fun _ => map (fun _ => 0) (range n)) (range p) in
  let* r := init_radius n in
  Ok ({| p := p; n := n; keys := ks; data := zeros; radius := r |}, g).

(** The [for j in range(len(data_vector))] loop of [enter] on row [i]. *)
Fixpoint enter_cols (data_vector : list Z) (i : nat) (js : list nat)
    (data : list (list Z)) : result (list (list Z)) :=
  match js with
  | [] => Ok data
  | j :: js' =>
      let* bit := getitem data_vector j in
      let* row := getitem data i in
      let* c := getitem row j in
      enter_cols data_vector i js'
        (<[i := <[j := if bit =? 1 then c + 1 else c - 1]> row]> data)
  end.

(** The [for i in range(len(self.keys))] loop of [enter]. *)
Fixpoint enter_rows (keys : list (list Z)) (radius : Z)
    (key_vector data_vector : list Z) (is_ : list nat)
    (data : list (list Z)) : result (list (list Z)) :=
  match is_ with
  | [] => Ok data
  | i :: is' =>
      let* key := getitem keys i in
      let hdist := hamming_distance key key_vector in
      if hdist <=? radius then
        let* data' :=
          enter_cols data_vector i (seq 0 (length data_vector)) data in
        enter_rows keys radius key_vector data_vector is' data'
      else enter_rows keys radius key_vector data_vector is' data
  end.

(** [SDM.enter(key_vector, data_vector)]: the memory after the call.  When
    an exception is raised the counters updated so far are not tracked. *)
Definition enter (sdm : SDM) (key_vector data_vector : list Z) : result SDM :=
  let* data' :=
    enter_rows (keys sdm) (radius sdm) key_vector data_vector
      (seq 0 (length (keys sdm))) (data sdm) in
  Ok {| p := p sdm; n := n sdm; keys := keys sdm; data := data';
        radius := radius sdm |}.

(** The [for i in range(len(self.keys))] loop of [lookup]. *)
Fixpoint lookup_rows (sdm : SDM) (key_vector : list Z) (is_ : list nat)
    (retrieved_data : list Z) : result (list Z) :=
  match is_ with
  | [] => Ok retrieved_data
  | i :: is' =>
      let* key := getitem (keys sdm) i in
      let hdist := hamming_distance key key_vector in
      if hdist <=? radius sdm then
        let* retrieved_data' :=
          accumulate i (seq 0 (length key_vector)) (data sdm) retrieved_data in
        lookup_rows sdm key_vector is' retrieved_data'
      else lookup_rows sdm key_vector is' retrieved_data
  end.

(** [1 if x > 0 else 0] *)
Definition threshold (x : Z) : Z := if x >? 0 then 1 else 0.

(** [SDM.lookup(key_vector)] *)
Definition lookup (sdm : SDM) (key_vector : list Z) : result (list Z) :=
  let retrieved_data := repeat 0 (length key_vector) in
  let* retrieved_data' :=
    lookup_rows sdm key_vector (seq 0 (length (keys sdm))) retrieved_data in
  Ok (map threshold retrieved_data').

(** ** Chunking *)

(** [chunk_binary_data(binary_data, chunk_size)].  The slices are only
    evaluated for non-negative bounds: when [chunk_size] is negative the
    range is empty and the remainder is not positive. *)
Definition chunk_binary_data (binary_data : list Z) (chunk_size : Z)
    : result (list (list Z)) :=
  if chunk_size =? 0 then Raise ZeroDivisionError else
  let chunks :=
    map (fun i => slice binary_data (i * chunk_size) ((i + 1) * chunk_size))
        (range (len binary_data / chunk_size)) in
  let remainder := len binary_data mod chunk_size in
  if remainder >? 0 then
    let last_chunk :=
      drop (length binary_data - Z.to_nat remainder) binary_data
      ++ list_mul 0 (chunk_size - remainder) in
    Ok (chunks ++ [last_chunk])
  else Ok chunks.

(** The reassembly of the generated [reconstruct_file]: the chunks are
    concatenated in order and [binary_data[:original_length]] is kept. *)
Definition join (chunks : list (list Z)) (original_length : Z) : list Z :=
  slice (concat chunks) 0 original_length.

(** [generate_key_vectors(num_keys, n, seed)], with the generator state
    after the call. *)
Definition generate_key_vectors `{Random} (num_keys n seed_ : Z)
    : list (list Z) * rng :=
  random_matrix (Z.to_nat num_keys) (Z.to_nat n) (seed seed_).

(** ** Run-length coding *)

(** The [for val in bits[1:]] loop of [run_length_encode_packed], with the
    loop variables [encoded], [current_val] and [count] as arguments; the
    final [encoded.extend([count, current_val])] is the base case. *)
Fixpoint rle_loop (rest encoded : list Z) (current_val count : Z) : list Z :=
  match rest with
  | [] => encoded ++ [count; current_val]
  | val :: rest' =>
      if val =? current_val then
        if count <? 255 then rle_loop rest' encoded current_val (count + 1)
        else rle_loop rest' (encoded ++ [count; current_val]) current_val 1
      else rle_loop rest' (encoded ++ [count; current_val]) val 1
  end.

Definition run_length_encode_packed (bits : list Z) : list Z :=
  match bits with
  | [] => []
  | current_val :: rest => rle_loop rest [] current_val 1
  end.

(** The [for i in range(0, len(encoded), 2)] loop of
    [run_length_decode_packed]: it consumes the flat list two elements at a
    time.  The length has been checked to be even before the loop runs, so
    the one-element case is never reached from [run_length_decode_packed]
    (there [encoded[i+1]] would raise [IndexError]). *)
Fixpoint decode_loop (encoded decoded : list Z) : result (list Z) :=
  match encoded with
  | [] => Ok decoded
  | [_] => Raise IndexError
  | count :: val :: rest =>
      if (0 <=? val) && (val <=? 1)
      then decode_loop rest (decoded ++ list_mul val count)
      else Raise (ValueError_invalid_value val)
  end.

Definition run_length_decode_packed (encoded : list Z) : result (list Z) :=
  if negb (len encoded mod 2 =? 0) then Raise ValueError_odd_length
  else decode_loop encoded [].

(** The flat list read as (count, value) pairs, as the specification words
    it; a trailing unpaired element is dropped. *)
Fixpoint to_pairs (l : list Z) : list (Z * Z) :=
  match l with
  | c :: v :: rest => (c, v) :: to_pairs rest
  | _ => []
  end.

(** Each value repeated count times, in order. *)
Definition expand_pairs (ps : list (Z * Z)) : list Z :=
  flat_map (fun cv => list_mul (snd cv) (fst cv)) ps.

(** ** The bundle writer: [save_loader_file_no_dependencies] *)

(** The validation loop over [keys_flat]. *)
Fixpoint check_byte_range (keys_flat : list Z) : result unit :=
  match keys_flat with
  | [] => Ok tt
  | byte :: rest =>
      if (0 <=? byte) && (byte <=? 255) then check_byte_range rest
      else Raise (ValueError_byte_range byte)
  end.

(** [keys_bytes]: the keys run-length encoded, flattened, validated and
    converted to bytes (the base64 framing that follows is total). *)
Definition encode_keys (keys : list (list Z)) : result (list Z) :=
  let rle_keys := map run_length_encode_packed keys in
  let keys_flat := concat rle_keys in
  let* _ := check_byte_range keys_flat in
  bytes keys_flat.

(** The [for val in data_vector] loop that fills [flat_data]. *)
Fixpoint pack_vector (data_vector flat_data : list Z) : result (list Z) :=
  match data_vector with
  | [] => Ok flat_data
  | val :: rest =>
      if (val <? -128) || (val >? 127) then Raise (ValueError_vote_range val)
      else if val <? 0 then pack_vector rest (flat_data ++ [val + 256])
      else pack_vector rest (flat_data ++ [val])
  end.

(** The [for data_vector in sdm.data] loop. *)
Fixpoint pack_data (data : list (list Z)) (flat_data : list Z)
    : result (list Z) :=
  match data with
  | [] => Ok flat_data
  | data_vector :: rest =>
      let* flat_data' := pack_vector data_vector flat_data in
      pack_data rest flat_data'
  end.

(** [data_bytes]: the counters as unsigned bytes. *)
Definition encode_data (data : list (list Z)) : result (list Z) :=
  let* flat_data := pack_data data [] in
  bytes flat_data.

(** The unsigned byte of an in-range counter, as the specification words
    it: [value + 256] when negative. *)
Definition to_unsigned_byte (val : Z) : Z := if val <? 0 then val + 256 else val.

(** A counter that fits a signed byte. *)
Definition in_signed_byte (val : Z) : Prop := -128 <= val <= 127.

(** ** The ingestion of one file: the body of the loop of [main] *)

(** [for key, chunk in zip(chunk_keys, chunks): sdm.enter(key, chunk)] *)
Fixpoint enter_all (sdm : SDM) (pairs : list (list Z * list Z)) : result SDM :=
  match pairs with
  | [] => Ok sdm
  | (key, chunk) :: rest =>
      let* sdm' := enter sdm key chunk in
      enter_all sdm' rest
  end.

(** The [for key in chunk_keys] loop: each key run-length encoded and
    converted to bytes (the base64 text of these bytes is what is
    stored). *)
Fixpoint encode_chunk_keys (chunk_keys : list (list Z)) : result (list (list Z)) :=
  match chunk_keys with
  | [] => Ok []
  | key :: rest =>
      let* rle_bytes := bytes (run_length_encode_packed key) in
      let* encoded_rest := encode_chunk_keys rest in
      Ok (rle_bytes :: encoded_rest)
  end.

(** The entry of [files_info] for one file. *)
Record file_info : Type := {
  chunk_keys : list (list Z);
  original_length : Z
}.

(** The body of the [try] of [main] for one file, from the bytes of the
    file: the memory after the writes and the entry of [files_info].
    [main] catches what is raised here and skips the file; the counters
    written before the exception are not tracked. *)
Definition process_file `{Random} (sdm : SDM) (byte_data : list Z)
    (chunk_size : Z) : result (SDM * file_info) :=
  let binary_data := file_to_binary byte_data in
  let original_length := len binary_data in
  let* chunks := chunk_binary_data binary_data chunk_size in
  let '(chunk_keys, _) := generate_key_vectors (len chunks) chunk_size 42 in
  let* sdm' := enter_all sdm (zip chunk_keys chunks) in
  let* encoded_chunk_keys := encode_chunk_keys chunk_keys in
  Ok (sdm', {| chunk_keys := encoded_chunk_keys;
               original_length := original_length |}).

End compression_test.

(** ** The generated loader script

    The functions [save_loader_file_no_dependencies] writes into the
    loader (compression_test.py, lines 194-254).  Its [hamming_distance],
    [binary_to_file] and [run_length_decode_packed] are copies of the
    writer's; the base64 framing of the byte strings is left out. *)
Module sdm_loader_no_deps.

(** The attributes of the loader's [SDM] object. *)
Record SDM : Type := {
  keys : list (list Z);
  data : list (list Z);
  radius : Z
}.

(** [for j, val in enumerate(self.data[i]): retrieved_data[j] += val] *)
Fixpoint add_row (row : list Z) (j : nat) (retrieved_data : list Z)
    : result (list Z) :=
  match row with
  | [] => Ok retrieved_data
  | val :: row' =>
      let* r := getitem retrieved_data j in
      add_row row' (S j) (<[j := r + val]> retrieved_data)
  end.

(** [for i, key in enumerate(self.keys)], from index [i] on. *)
Fixpoint lookup_rows (sdm : SDM) (key_vector : list Z) (keys : list (list Z))
    (i : nat) (retrieved_data : list Z) : result (list Z) :=
  match keys with
  | [] => Ok retrieved_data
  | key :: keys' =>
      let hdist := compression_test.hamming_distance key key_vector in
      if hdist <=? radius sdm then
        let* row := getitem (data sdm) i in
        let* retrieved_data' := add_row row 0 retrieved_data in
        lookup_rows sdm key_vector keys' (S i) retrieved_data'
      else lookup_rows sdm key_vector keys' (S i) retrieved_data
  end.

(** [SDM.lookup(key_vector)] *)
Definition lookup (sdm : SDM) (key_vector : list Z) : result (list Z) :=
  let retrieved_data := repeat 0 (length key_vector) in
  let* retrieved_data' :=
    lookup_rows sdm key_vector (keys sdm) 0 retrieved_data in
  Ok (map compression_test.threshold retrieved_data').

(** [load_keys], from the decoded bytes; [chunk_size] is the global of
    the script. *)
Definition load_keys (keys_bytes : list Z) (chunk_size : Z)
    : result (list (list Z)) :=
  let* decoded_bits := compression_test.run_length_decode_packed keys_bytes in
  chunks_of decoded_bits chunk_size.

(** [byte - 256 if byte > 127 else byte] *)
Definition to_signed (byte : Z) : Z := if byte >? 127 then byte - 256 else byte.

(** [load_data], from the decoded bytes. *)
Definition load_data (data_bytes : list Z) (chunk_size : Z)
    : result (list (list Z)) :=
  let decoded_data := map to_signed data_bytes in
  chunks_of decoded_data chunk_size.

(** The [for encoded_ck in chunk_keys] loop of [reconstruct_file]. *)
Fixpoint reconstruct_loop (sdm : SDM) (chunk_keys : list (list Z))
    (binary_data : list Z) : result (list Z) :=
  match chunk_keys with
  | [] => Ok binary_data
  | ck_list :: rest =>
      let* key_vector := compression_test.run_length_decode_packed ck_list in
      let* reconstructed := lookup sdm key_vector in
      reconstruct_loop sdm rest (binary_data ++ reconstructed)
  end.

(** [reconstruct_file]: the bits kept after trimming and the bytes
    written to the output file ([original_length] is not negative). *)
Definition reconstruct_file (sdm : SDM) (chunk_keys : list (list Z))
    (original_length : Z) : result (list Z * list Z) :=
  let* binary_data := reconstruct_loop sdm chunk_keys [] in
  let binary_data' := slice binary_data 0 original_length in
  let* byte_data := compression_test.binary_to_file binary_data' in
  Ok (binary_data', byte_data).

(** The main block: the memory rebuilt from the two blobs and the
    radius, then the reconstruction of one file. *)
Definition load_sdm (keys_bytes data_bytes : list Z) (radius chunk_size : Z)
    : result SDM :=
  let* sdm_keys := load_keys keys_bytes chunk_size in
  let* sdm_data := load_data data_bytes chunk_size in
  Ok {| keys := sdm_keys; data := sdm_data; radius := radius |}.

End sdm_loader_no_deps.

(** ** The index-based Hamming distance of sdmTest.py and
    sparse_malicious_memory.py *)

(** [for i in range(len(vector1)): if vector1[i] != vector2[i]: distance += 1];
    [vector2[i]] raises [IndexError] when [vector2] is the shorter one. *)
Fixpoint hamming_loop (vector1 vector2 : list Z) (is_ : list nat)
    (distance : Z) : result Z :=
  match is_ with
  | [] => Ok distance
  | i :: is' =>
      let* x := getitem vector1 i in
      let* y := getitem vector2 i in
      hamming_loop vector1 vector2 is' (if x =? y then distance else distance + 1)
  end.

Definition hamming_distance_indexed (vector1 vector2 : list Z) : result Z :=
  hamming_loop vector1 vector2 (seq 0 (length vector1)) 0.

Module sdmTest.

(** The attributes of an [SDM] object.  [addresses] and [data] are numpy
    arrays of shape (p, n); the counters are float64 numbers holding
    integers, modelled by these integers (exact below 2^53).  [radius] is
    a float. *)
Record SDM : Type := {
  p : Z;
  n : Z;
  addresses : list (list Z);
  data : list (list Z);
  radius : spec_float
}.

Definition hamming_distance := hamming_distance_indexed.

(** [self.radius = 0.451 * n] *)
Definition init_radius (n : Z) : result spec_float := mul_0_451 n.

(** [SDM.__init__(p, n)]; [addresses] stands for the value of
    [np.random.randint(0, 2, (p, n))], drawn from numpy's generator. *)
Definition SDM_init (p n : Z) (addresses : list (list Z)) : result SDM :=
  let zeros := map (fun _ => map (fun _ => 0) (range n)) (range p) in
  let* r := init_radius n in
  Ok {| p := p; n := n; addresses := addresses; data := zeros; radius := r |}.

(** The [for i in range(self.p)] loop of [lookup]. *)
Fixpoint lookup_rows (sdm : SDM) (addressVector : list Z) (is_ : list nat)
    (retrieved_data : list Z) : result (list Z) :=
  match is_ with
  | [] => Ok retrieved_data
  | i :: is' =>
      let* address := getitem (addresses sdm) i in
      let* hdist := hamming_distance address addressVector in
      if int_le_float hdist (radius sdm) then
        let* retrieved_data' :=
          accumulate i (seq 0 (Z.to_nat (n sdm))) (data sdm) retrieved_data in
        lookup_rows sdm addressVector is' retrieved_data'
      else lookup_rows sdm addressVector is' retrieved_data
  end.

(** [1 if retrieved_data[j] >= 0 else 0] *)
Definition threshold (x : Z) : Z := if x >=? 0 then 1 else 0.

(** The [for j in range(self.n)] loop that converts the sums in place. *)
Fixpoint threshold_loop (js : list nat) (retrieved_data : list Z)
    : result (list Z) :=
  match js with
  | [] => Ok retrieved_data
  | j :: js' =>
      let* x := getitem retrieved_data j in
      threshold_loop js' (<[j := threshold x]> retrieved_data)
  end.

(** [SDM.lookup(addressVector)] *)
Definition lookup (sdm : SDM) (addressVector : list Z) : result (list Z) :=
  let retrieved_data := repeat 0 (Z.to_nat (n sdm)) in
  let* retrieved_data' :=
    lookup_rows sdm addressVector (seq 0 (Z.to_nat (p sdm))) retrieved_data in
  threshold_loop (seq 0 (Z.to_nat (n sdm))) retrieved_data'.

(** The [for j in range(self.n)] loop of [enter] on row [i]: the same
    statements as the inner loop of compression_test.py's [enter], with
    the address vector as the data. *)
Definition enter_cols := compression_test.enter_cols.

(** The [for i in range(self.p)] loop of [enter]. *)
Fixpoint enter_rows (sdm : SDM) (addressVector : list Z) (is_ : list nat)
    (data : list (list Z)) : result (list (list Z)) :=
  match is_ with
  | [] => Ok data
  | i :: is' =>
      let* address := getitem (addresses sdm) i in
      let* hdist := hamming_distance address addressVector in
      if int_le_float hdist (radius sdm) then
        let* data' :=
          enter_cols addressVector i (seq 0 (Z.to_nat (n sdm))) data in
        enter_rows sdm addressVector is' data'
      else enter_rows sdm addressVector is' data
  end.

(** [SDM.enter(addressVector)]: the address vector is its own data. *)
Definition enter (sdm : SDM) (addressVector : list Z) : result SDM :=
  let* data' :=
    enter_rows sdm addressVector (seq 0 (Z.to_nat (p sdm))) (data sdm) in
  Ok {| p := p sdm; n := n sdm; addresses := addresses sdm; data := data';
        radius := radius sdm |}.

End sdmTest.

Module sparse_malicious_memory.

(** The attributes of an [SDM] object; [addresses] and [data] are lists
    holding one p-by-n matrix each, and [radius] is a float. *)
Record SDM : Type := {
  p : Z;
  n : Z;
  addresses : list (list (list Z));
  data : list (list (list Z));
  radius : spec_float
}.

Definition hamming_distance := hamming_distance_indexed.

(** [self.radius = 0.451 * n] *)
Definition init_radius (n : Z) : result spec_float := mul_0_451 n.

(** [SDM.__init__(p, n)], from the state [g] of the generator. *)
Definition SDM_init `{Random} (p n : Z) (g : rng) : result (SDM * rng) :=
  let '(addrs, g') := random_matrix (Z.to_nat p) (Z.to_nat n) g in
  let zeros := map (fun _ => map (fun _ => 0) (range n)) (range p) in
  let* r := init_radius n in
  Ok ({| p := p; n := n; addresses := [addrs]; data := [zeros]; radius := r |}, g').

(** The [for j in range(len(self.addresses[0][i]))] loop of [enter]: the
    counter moves with the bit of the address. *)
Fixpoint enter_cols (sdm : SDM) (i : nat) (js : list nat)
    (data : list (list (list Z))) : result (list (list (list Z))) :=
  match js with
  | [] => Ok data
  | j :: js' =>
      let* addrs := getitem (addresses sdm) 0 in
      let* address := getitem addrs i in
      let* bit := getitem address j in
      let* matrix := getitem data 0 in
      let* row := getitem matrix i in
      let* c := getitem row j in
      enter_cols sdm i js'
        (<[0%nat := <[i := <[j := if bit =? 1 then c + 1 else c - 1]> row]> matrix]> data)
  end.

(** The [for i in range(len(self.addresses[0]))] loop of [enter]. *)
Fixpoint enter_rows (sdm : SDM) (addressVector : list Z) (is_ : list nat)
    (data : list (list (list Z))) : result (list (list (list Z))) :=
  match is_ with
  | [] => Ok data
  | i :: is' =>
      let* addrs := getitem (addresses sdm) 0 in
      let* address := getitem addrs i in
      let padded_addressVector :=
        addressVector ++ list_mul 0 (len address - len addressVector) in
      let* hdist := hamming_distance address padded_addressVector in
      if int_le_float hdist (radius sdm) then
        let* data' := enter_cols sdm i (seq 0 (length address)) data in
        enter_rows sdm addressVector is' data'
      else enter_rows sdm addressVector is' data
  end.

(** [SDM.enter(addressVector)] *)
Definition enter (sdm : SDM) (addressVector : list Z) : result SDM :=
  let* addrs := getitem (addresses sdm) 0 in
  let* data' :=
    enter_rows sdm addressVector (seq 0 (length addrs)) (data sdm) in
  Ok {| p := p sdm; n := n sdm; addresses := addresses sdm; data := data';
        radius := radius sdm |}.

(** The [for j in range(len(self.addresses[0][i]))] loop of [lookup]:
    [retrieved_data[j] += self.data[0][i][j]]. *)
Fixpoint lookup_cols (sdm : SDM) (i : nat) (js : list nat)
    (retrieved_data : list Z) : result (list Z) :=
  match js with
  | [] => Ok retrieved_data
  | j :: js' =>
      let* r := getitem retrieved_data j in
      let* matrix := getitem (data sdm) 0 in
      let* row := getitem matrix i in
      let* c := getitem row j in
      lookup_cols sdm i js' (<[j := r + c]> retrieved_data)
  end.

(** The [for i in range(len(self.addresses[0]))] loop of [lookup]. *)
Fixpoint lookup_rows (sdm : SDM) (addressVector : list Z) (is_ : list nat)
    (retrieved_data : list Z) : result (list Z) :=
  match is_ with
  | [] => Ok retrieved_data
  | i :: is' =>
      let* addrs := getitem (addresses sdm) 0 in
      let* address := getitem addrs i in
      let padded_addressVector :=
        addressVector ++ list_mul 0 (len address - len addressVector) in
      let* hdist := hamming_distance address padded_addressVector in
      if int_le_float hdist (radius sdm) then
        let* retrieved_data' :=
          lookup_cols sdm i (seq 0 (length address)) retrieved_data in
        lookup_rows sdm addressVector is' retrieved_data'
      else lookup_rows sdm addressVector is' retrieved_data
  end.

(** The [for i in range(len(retrieved_data))] loop that converts the sums
    in place: 1 where the sum is positive, 0 otherwise. *)
Fixpoint threshold_loop (is_ : list nat) (retrieved_data : list Z)
    : result (list Z) :=
  match is_ with
  | [] => Ok retrieved_data
  | i :: is' =>
      let* x := getitem retrieved_data i in
      threshold_loop is' (<[i := if x >? 0 then 1 else 0]> retrieved_data)
  end.

(** [SDM.lookup(addressVector)] *)
Definition lookup (sdm : SDM) (addressVector : list Z) : result (list Z) :=
  let* addrs := getitem (addresses sdm) 0 in
  let* address0 := getitem addrs 0 in
  let retrieved_data := repeat 0 (length address0) in
  let* retrieved_data' :=
    lookup_rows sdm addressVector (seq 0 (length addrs)) retrieved_data in
  threshold_loop (seq 0 (length retrieved_data')) retrieved_data'.

(** [for chunk in chunks: sdm.enter(chunk)] of [main]. *)
Fixpoint enter_chunks (sdm : SDM) (chunks : list (list Z)) : result SDM :=
  match chunks with
  | [] => Ok sdm
  | chunk :: rest =>
      let* sdm' := enter sdm chunk in
      enter_chunks sdm' rest
  end.

(** The loop of [main] that reads every chunk back and extends
    [retrieved_data] with what [lookup] returns. *)
Fixpoint lookup_chunks (sdm : SDM) (chunks : list (list Z))
    (retrieved_data : list Z) : result (list Z) :=
  match chunks with
  | [] => Ok retrieved_data
  | chunk :: rest =>
      let* retrieved_chunk := lookup sdm chunk in
      lookup_chunks sdm rest (retrieved_data ++ retrieved_chunk)
  end.

End sparse_malicious_memory.

(** ** Vocabulary of the specification *)

(** The errors the specification calls MalformedEncoding: the two
    [ValueError]s of [run_length_decode_packed]. *)
Definition MalformedEncoding (e : exn) : Prop :=
  e = ValueError_odd_length \/
  exists v, ~ is_bit v /\ e = ValueError_invalid_value v.

(** A (count, value) pair as the encoder is meant to emit it. *)
Definition packed_pair (cv : Z * Z) : Prop :=
  1 <= fst cv <= 255 /\ is_bit (snd cv).

(** An integer that fits a byte. *)
Definition is_byte (b : Z) : Prop := 0 <= b <= 255.

(** The error the specification calls CounterOverflow: the [ValueError]
    of the counter serialisation, carrying the offending counter. *)
Definition CounterOverflow (e : exn) : Prop :=
  exists v, ~ compression_test.in_signed_byte v /\ e = ValueError_vote_range v.

(** Whether column [j] lies in the window of [m] columns from [k] on. *)
Definition in_window (k m j : nat) : bool :=
  (k <=? j)%nat && (j <? k + m)%nat.

(** The sum of a list of integers. *)
Definition Zsum (l : list Z) : Z := foldr Z.add 0 l.

(** The counter at row [i], column [j], or 0 where there is none. *)
Definition counter (data : list (list Z)) (i j : nat) : Z :=
  match data !! i with
  | Some row => default 0 (row !! j)
  | None => 0
  end.

(** Whether address [i] of the memory lies within the radius of the key. *)
Definition in_radius (sdm : compression_test.SDM) (key_vector : list Z)
    (i : nat) : bool :=
  match compression_test.keys sdm !! i with
  | Some key =>
      compression_test.hamming_distance key key_vector
      <=? compression_test.radius sdm
  | None => false
  end.

(** The accumulated sum of the in-radius counters at position [j]. *)
Definition accumulated_sum (sdm : compression_test.SDM) (key_vector : list Z)
    (j : nat) : Z :=
  Zsum (map (fun i => if in_radius sdm key_vector i
                      then counter (compression_test.data sdm) i j else 0)
            (seq 0 (length (compression_test.keys sdm)))).

(** Every row of the counter matrix that has an address exists and has at
    least [m] columns. *)
Definition covers (sdm : compression_test.SDM) (m : nat) : Prop :=
  forall i, (i < length (compression_test.keys sdm))%nat ->
    exists row, compression_test.data sdm !! i = Some row
                /\ (m <= length row)%nat.

(** One step of a counter: up on a 1 bit, down otherwise. *)
Definition vote (bit c : Z) : Z := if bit =? 1 then c + 1 else c - 1.

(** A memory with the single address [address], all counters zero, and
    the radius set to the vector length [n]. *)
Definition single_address_memory (address : list Z) (n : nat)
    : compression_test.SDM :=
  {| compression_test.p := 1;
     compression_test.n := Z.of_nat n;
     compression_test.keys := [address];
     compression_test.data := [repeat 0 n];
     compression_test.radius := Z.of_nat n |}.

(** The default value of the [seed] parameter of [SDM.__init__] and of
    [generate_key_vectors]. *)
Definition default_seed : Z := 42.



(** Whether address [i] of a memory of sdmTest.py lies within the radius
    of the address vector. *)
Definition in_radius_sdmTest (sdm : sdmTest.SDM) (addressVector : list Z)
    (i : nat) : bool :=
  match sdmTest.addresses sdm !! i with
  | Some address =>
      match sdmTest.hamming_distance address addressVector with
      | Ok hdist => int_le_float hdist (sdmTest.radius sdm)
      | Raise _ => false
      end
  | None => false
  end.

(** The accumulated sum of the in-radius counters at position [j]. *)
Definition accumulated_sum_sdmTest (sdm : sdmTest.SDM)
    (addressVector : list Z) (j : nat) : Z :=
  Zsum (map (fun i => if in_radius_sdmTest sdm addressVector i
                      then counter (sdmTest.data sdm) i j else 0)
            (seq 0 (Z.to_nat (sdmTest.p sdm)))).

(** The arrays of the memory have [p] rows of at least [n] columns, and
    no address is longer than the address vector. *)
Definition well_shaped (sdm : sdmTest.SDM) (addressVector : list Z) : Prop :=
  forall i, (i < Z.to_nat (sdmTest.p sdm))%nat ->
    exists address row,
      sdmTest.addresses sdm !! i = Some address
      /\ (length address <= length addressVector)%nat
      /\ sdmTest.data sdm !! i = Some row
      /\ (Z.to_nat (sdmTest.n sdm) <= length row)%nat.

(** A memory of compression_test.py with two addresses, to run the
    lookups on. *)
Definition example_memory : compression_test.SDM :=
  {| compression_test.p := 2;
     compression_test.n := 4;
     compression_test.keys := [[0; 1; 1; 0]; [1; 1; 0; 0]];
     compression_test.data := [[2; 0; -1; 0]; [-1; 0; 3; -2]];
     compression_test.radius := 1 |}.

(** A memory of sdmTest.py with the same arrays; its radius is the float
    0.451 * 4. *)
Definition example_memory_sdmTest : sdmTest.SDM :=
  {| sdmTest.p := 2;
     sdmTest.n := 4;
     sdmTest.addresses := [[0; 1; 1; 0]; [1; 1; 0; 0]];
     sdmTest.data := [[2; 0; -1; 0]; [-1; 0; 3; -2]];
     sdmTest.radius := S754_finite false 8124493727776375 (-52) |}.

(** The arrays of a memory of sparse_malicious_memory.py: one matrix of
    addresses and one of counters, each counter row at least as long as
    its address. *)
Definition well_shaped_m (sdm : sparse_malicious_memory.SDM) : Prop :=
  exists addrs matrix,
    sparse_malicious_memory.addresses sdm !! 0%nat = Some addrs
    /\ sparse_malicious_memory.data sdm !! 0%nat = Some matrix
    /\ forall i, (i < length addrs)%nat ->
         exists address row,
           addrs !! i = Some address /\ matrix !! i = Some row
           /\ (length address <= length row)%nat.

(** A memory of sparse_malicious_memory.py with two addresses; its radius
    is the float 0.451 * 4. *)
Definition example_memory_m : sparse_malicious_memory.SDM :=
  {| sparse_malicious_memory.p := 2;
     sparse_malicious_memory.n := 4;
     sparse_malicious_memory.addresses := [[[0; 1; 1; 0]; [1; 1; 0; 0]]];
     sparse_malicious_memory.data := [[[2; 0; -1; 0]; [-1; 0; 3; -2]]];
     sparse_malicious_memory.radius :=
       S754_finite false 8124493727776375 (-52) |}.

(** The eight bits of a byte, most significant first, as [file_to_binary]
    lists them. *)
Definition byte_bits (byte : Z) : list Z :=
  map (fun i => Z.land (Z.shiftr byte i) 1) [7; 6; 5; 4; 3; 2; 1; 0].

(** The bytes of a list of groups of bits, as [binary_to_file] appends
    them. *)
Fixpoint pack_groups (groups : list (list Z)) (byte_data : list Z)
    : result (list Z) :=
  match groups with
  | [] => Ok byte_data
  | group :: rest =>
      let byte := compression_test.pack_bits group in
      if (0 <=? byte) && (byte <=? 255)
      then pack_groups rest (byte_data ++ [byte])
      else Raise ValueError_bytearray
  end.

(** A row after a write of [data_vector]: its first counters move by the
    bits of the data vector, the others stay. *)
Definition vote_row (data_vector row : list Z) : list Z :=
  zip_with vote data_vector row ++ drop (length data_vector) row.

(** The counter matrix after [enter]: the rows whose address is within
    the radius of the key are voted on, the others stay. *)
Definition entered (sdm : compression_test.SDM) (key_vector data_vector : list Z)
    : list (list Z) :=
  imap (fun i row => if in_radius sdm key_vector i
                     then vote_row data_vector row else row)
       (compression_test.data sdm).

(** The number of the indices of [l] that satisfy [b]. *)
Definition count_of (b : nat -> bool) (l : list nat) : Z :=
  Zsum (map (fun i => if b i then 1 else 0) l).

(** A memory whose counters are all zero: one row of [n] zeros per
    address. *)
Definition fresh (sdm : compression_test.SDM) (n : nat) : Prop :=
  compression_test.data sdm
  = repeat (repeat 0 n) (length (compression_test.keys sdm)).
(** A memory with three addresses and zero counters. *)
Definition fresh_example_memory : compression_test.SDM :=
  {| compression_test.p := 3;
     compression_test.n := 4;
     compression_test.keys := [[0; 1; 1; 0]; [1; 1; 0; 0]; [0; 1; 1; 1]];
     compression_test.data := [[0; 0; 0; 0]; [0; 0; 0; 0]; [0; 0; 0; 0]];
     compression_test.radius := 1 |}.

(** A memory with the single address [address], the counters [row], and
    the radius set to the vector length [n]. *)
Definition single_row_memory (address row : list Z) (n : nat)
    : compression_test.SDM :=
  {| compression_test.p := 1;
     compression_test.n := Z.of_nat n;
     compression_test.keys := [address];
     compression_test.data := [row];
     compression_test.radius := Z.of_nat n |}.

(** The counters after [a] writes of [pattern] on zero counters: [a] on
    the 1 bits, [-a] on the others. *)
Definition written (a : Z) (pattern : list Z) : list Z :=
  map (fun bit => if bit =? 1 then a else - a) pattern.

(** The loader's memory holding the arrays of a writer's memory. *)
Definition loaded (sdm : compression_test.SDM) : sdm_loader_no_deps.SDM :=
  {| sdm_loader_no_deps.keys := compression_test.keys sdm;
     sdm_loader_no_deps.data := compression_test.data sdm;
     sdm_loader_no_deps.radius := compression_test.radius sdm |}.

(** Every row of the counter matrix that has an address exists and has
    exactly [m] columns. *)
Definition rows_of_length (sdm : compression_test.SDM) (m : nat) : Prop :=
  forall i, (i < length (compression_test.keys sdm))%nat ->
    exists row, compression_test.data sdm !! i = Some row /\ length row = m.

(** The counter matrix of a memory of sdmTest.py after [enter]: the rows
    whose address is within the radius are voted on with the bits of the
    address vector itself. *)
Definition entered_sdmTest (sdm : sdmTest.SDM) (addressVector : list Z)
    : list (list Z) :=
  imap (fun i row => if in_radius_sdmTest sdm addressVector i
                     then vote_row addressVector row else row)
       (sdmTest.data sdm).

(** A memory of sdmTest.py as its constructor builds it: [p] addresses
    of [n] entries and a p-by-n matrix of zeros. *)
Definition fresh_sdmTest (sdm : sdmTest.SDM) : Prop :=
  length (sdmTest.addresses sdm) = Z.to_nat (sdmTest.p sdm)
  /\ Forall (fun address => length address = Z.to_nat (sdmTest.n sdm))
            (sdmTest.addresses sdm)
  /\ sdmTest.data sdm
     = repeat (repeat 0 (Z.to_nat (sdmTest.n sdm))) (Z.to_nat (sdmTest.p sdm)).
(** A memory of sdmTest.py with three addresses of four bits, zero
    counters and the radius 0.451 * 4. *)
Definition fresh_example_sdmTest : sdmTest.SDM :=
  {| sdmTest.p := 3;
     sdmTest.n := 4;
     sdmTest.addresses := [[0; 1; 1; 0]; [1; 1; 0; 0]; [0; 1; 1; 1]];
     sdmTest.data := [[0; 0; 0; 0]; [0; 0; 0; 0]; [0; 0; 0; 0]];
     sdmTest.radius := S754_finite false 8124493727776375 (-52) |}.

(** Whether address [i] of a memory of sparse_malicious_memory.py lies
    within the radius of the address vector, padded with zeros to the
    length of the address. *)
Definition in_radius_m (sdm : sparse_malicious_memory.SDM)
    (addressVector : list Z) (i : nat) : bool :=
  match sparse_malicious_memory.addresses sdm !! 0%nat with
  | Some addrs =>
      match addrs !! i with
      | Some address =>
          match sparse_malicious_memory.hamming_distance address
                  (addressVector
                   ++ list_mul 0 (len address - len addressVector)) with
          | Ok hdist => int_le_float hdist (sparse_malicious_memory.radius sdm)
          | Raise _ => false
          end
      | None => false
      end
  | None => false
  end.

(** The counter matrix of sparse_malicious_memory.py after [enter]: the
    rows whose address is within the radius are voted on with the bits
    of their own address. *)
Definition entered_m (sdm : sparse_malicious_memory.SDM)
    (addressVector : list Z) (addrs matrix : list (list Z))
    : list (list Z) :=
  imap (fun i row => if in_radius_m sdm addressVector i
                     then vote_row (default [] (addrs !! i)) row else row)
       matrix.

(** The votes of the in-radius addresses on column [j]: one up for each
    address whose bit [j] is 1, one down for each other. *)
Definition address_votes (sdm : sparse_malicious_memory.SDM)
    (addressVector : list Z) (addrs : list (list Z)) (j : nat) : Z :=
  Zsum (map (fun i => if in_radius_m sdm addressVector i
                      then vote (default 0 (default [] (addrs !! i) !! j)) 0
                      else 0)
            (seq 0 (length addrs))).

(** A memory of sparse_malicious_memory.py as its constructor builds it:
    one matrix of addresses of [n] entries each, with at least one
    address, and one matrix of zeros of the same shape. *)
Definition fresh_m (sdm : sparse_malicious_memory.SDM)
    (addrs : list (list Z)) (n : nat) : Prop :=
  sparse_malicious_memory.addresses sdm = [addrs]
  /\ (0 < length addrs)%nat
  /\ Forall (fun address => length address = n) addrs
  /\ sparse_malicious_memory.data sdm = [repeat (repeat 0 n) (length addrs)].
(** A memory of sparse_malicious_memory.py with three addresses of four
    bits, zero counters and the radius 0.451 * 4. *)
Definition fresh_example_m : sparse_malicious_memory.SDM :=
  {| sparse_malicious_memory.p := 3;
     sparse_malicious_memory.n := 4;
     sparse_malicious_memory.addresses :=
       [[[0; 1; 1; 0]; [1; 0; 0; 1]; [1; 0; 1; 1]]];
     sparse_malicious_memory.data :=
       [[[0; 0; 0; 0]; [0; 0; 0; 0]; [0; 0; 0; 0]]];
     sparse_malicious_memory.radius :=
       S754_finite false 8124493727776375 (-52) |}.

(** The arrays of a memory of sparse_malicious_memory.py hold at least
    one address, every address has [n] entries and every row of counters
    at least as many. *)
Definition uniform_m (sdm : sparse_malicious_memory.SDM) (n : nat) : Prop :=
  exists addrs matrix,
    sparse_malicious_memory.addresses sdm !! 0%nat = Some addrs
    /\ sparse_malicious_memory.data sdm !! 0%nat = Some matrix
    /\ (0 < length addrs)%nat
    /\ forall i, (i < length addrs)%nat ->
         exists address row,
           addrs !! i = Some address /\ matrix !! i = Some row
           /\ length address = n /\ (n <= length row)%nat.

(** The number of the positions below [m] at which two vectors differ;
    an entry past the end of a vector counts as 0. *)
Definition differing (a b : list Z) (m : nat) : Z :=
  count_of (fun i => negb (default 0 (a !! i) =? default 0 (b !! i)))
           (seq 0 m).

(** * Properties *)

(** ** Lemmas on the run-length coder *)

Lemma list_pair_ind (P : list Z -> Prop) :
  P [] -> (forall x, P [x]) -> (forall x y l, P l -> P (x :: y :: l)) ->
  forall l, P l.
Proof.
  intros H0 H1 H2.
  assert (H : forall l, P l /\ forall x, P (x :: l)).
  { induction l as [|y l [IH1 IH2]]; split; auto. }
  intros l. apply H.
Qed.

Import compression_test.

Lemma len_mod2_even (l : list Z) :
  (len l mod 2 =? 0) = Nat.even (length l).
Proof.
  induction l as [| x | x y l IH] using list_pair_ind; [reflexivity..|].
  change (Nat.even (length (x :: y :: l))) with (Nat.even (length l)).
  rewrite <- IH. unfold len. cbn [length].
  replace (Z.of_nat (S (S (length l)))) with (Z.of_nat (length l) + 1 * 2) by lia.
  now rewrite Z.mod_add by lia.
Qed.

Lemma list_mul_succ (v c : Z) :
  0 <= c -> list_mul v (c + 1) = list_mul v c ++ [v].
Proof.
  intros Hc. unfold list_mul.
  replace (Z.to_nat (c + 1)) with (S (Z.to_nat c)) by lia.
  induction (Z.to_nat c) as [|k IH]; [reflexivity|].
  cbn [repeat app] in *. now rewrite <- IH.
Qed.

Lemma is_bit_valid (v : Z) : is_bit v <-> (0 <=? v) && (v <=? 1) = true.
Proof. unfold is_bit. rewrite andb_true_iff, !Z.leb_le. lia. Qed.

Lemma decode_loop_snoc (enc : list Z) :
  forall acc d c v,
    decode_loop enc acc = Ok d -> is_bit v ->
    decode_loop (enc ++ [c; v]) acc = Ok (d ++ list_mul v c).
Proof.
  induction enc as [| x | x y l IH] using list_pair_ind; intros acc d c v Hd Hv.
  - cbn in Hd. injection Hd as <-. cbn [app decode_loop].
    apply is_bit_valid in Hv. now rewrite Hv.
  - discriminate.
  - cbn [app decode_loop] in *.
    destruct ((0 <=? y) && (y <=? 1)); [|discriminate].
    now apply IH.
Qed.

Lemma decode_loop_even (enc : list Z) :
  forall acc d, decode_loop enc acc = Ok d -> Nat.even (length enc) = true.
Proof.
  induction enc as [| x | x y l IH] using list_pair_ind; intros acc d Hd.
  - reflexivity.
  - discriminate.
  - cbn [decode_loop] in Hd. destruct ((0 <=? y) && (y <=? 1)); [|discriminate].
    cbn. eapply IH, Hd.
Qed.

(** The invariant of the encoding loop: what has been emitted, followed by
    the pending run and the unread bits, is the input. *)
Lemma rle_loop_decode (rest : list Z) :
  forall enc cv c d,
    decode_loop enc [] = Ok d -> is_bit cv -> Forall is_bit rest -> 0 <= c ->
    decode_loop (rle_loop rest enc cv c) [] = Ok (d ++ list_mul cv c ++ rest).
Proof.
  induction rest as [|val rest IH]; intros enc cv c d Hd Hcv Hrest Hc.
  - cbn [rle_loop]. rewrite app_nil_r. now apply decode_loop_snoc.
  - apply Forall_cons in Hrest as [Hval Hrest]. cbn [rle_loop].
    destruct (Z.eqb_spec val cv) as [->|Hne].
    + destruct (Z.ltb_spec c 255).
      * rewrite (IH enc cv (c + 1) d) by (auto; lia).
        rewrite list_mul_succ by lia. now rewrite <- !app_assoc.
      * rewrite (IH _ cv 1 (d ++ list_mul cv c)); auto; try lia.
        -- now rewrite <- !app_assoc.
        -- now apply decode_loop_snoc.
    + rewrite (IH _ val 1 (d ++ list_mul cv c)); auto; try lia.
      * now rewrite <- !app_assoc.
      * now apply decode_loop_snoc.
Qed.

Lemma rle_round_trip (x : list Z) :
  Forall is_bit x ->
  run_length_decode_packed (run_length_encode_packed x) = Ok x.
Proof.
  intros Hx. destruct x as [|b rest]; [reflexivity|].
  apply Forall_cons in Hx as [Hb Hrest].
  assert (Hd : decode_loop (rle_loop rest [] b 1) [] = Ok (b :: rest)).
  { now rewrite (rle_loop_decode rest [] b 1 []) by (auto; lia). }
  unfold run_length_decode_packed, run_length_encode_packed.
  rewrite len_mod2_even, (decode_loop_even _ _ _ Hd). exact Hd.
Qed.

(** A run that fits the pending count. *)
Lemma rle_loop_run (k : nat) :
  forall enc v c rest,
    c + Z.of_nat k <= 255 ->
    rle_loop (repeat v k ++ rest) enc v c = rle_loop rest enc v (c + Z.of_nat k).
Proof.
  induction k as [|k IH]; intros enc v c rest Hk.
  - cbn. now rewrite Z.add_0_r.
  - cbn [repeat app rle_loop]. rewrite Z.eqb_refl.
    destruct (Z.ltb_spec c 255); [|lia].
    rewrite IH by lia. f_equal. lia.
Qed.

Lemma rle_loop_full (rest enc : list Z) (v : Z) :
  rle_loop (v :: rest) enc v 255 = rle_loop rest (enc ++ [255; v]) v 1.
Proof. cbn [rle_loop]. now rewrite Z.eqb_refl. Qed.

Lemma rle_run_300 (v : Z) :
  run_length_encode_packed (repeat v 300) = [255; v; 45; v].
Proof.
  assert (E : repeat v 300 = v :: (repeat v 254 ++ (v :: (repeat v 44 ++ [])))).
  { rewrite app_nil_r. change (v :: repeat v 44) with (repeat v 45).
    rewrite <- repeat_app. reflexivity. }
  rewrite E. unfold run_length_encode_packed.
  rewrite (rle_loop_run 254) by (now vm_compute).
  change (1 + Z.of_nat 254) with 255.
  rewrite rle_loop_full.
  rewrite (rle_loop_run 44) by (now vm_compute).
  reflexivity.
Qed.

(** The decoding loop on an even-length list, all at once. *)
Lemma decode_loop_spec (enc : list Z) :
  forall acc,
    Nat.even (length enc) = true ->
    (Forall (fun cv => is_bit (snd cv)) (to_pairs enc) ->
     decode_loop enc acc = Ok (acc ++ expand_pairs (to_pairs enc)))
    /\ (Exists (fun cv => ~ is_bit (snd cv)) (to_pairs enc) ->
        exists v, ~ is_bit v /\ decode_loop enc acc = Raise (ValueError_invalid_value v)).
Proof.
  induction enc as [| x | x y l IH] using list_pair_ind; intros acc Hev.
  - split.
    + intros _. cbn. now rewrite app_nil_r.
    + intros HE. inversion HE.
  - discriminate.
  - cbn [to_pairs decode_loop]. destruct (IH (acc ++ list_mul y x) Hev) as [IHok IHerr].
    destruct ((0 <=? y) && (y <=? 1)) eqn:Hy.
    + split.
      * intros HF. apply Forall_cons in HF as [_ HF].
        rewrite (IHok HF). unfold expand_pairs. cbn [flat_map fst snd].
        now rewrite app_assoc.
      * intros HE. apply Exists_cons in HE as [HE|HE]; [|auto].
        cbn in HE. apply is_bit_valid in Hy. contradiction.
    + assert (Hny : ~ is_bit y).
      { intros Hb. apply is_bit_valid in Hb. congruence. }
      split.
      * intros HF. apply Forall_cons in HF as [HF _]. contradiction.
      * intros _. eauto.
Qed.

Lemma is_bit_dec (v : Z) : {is_bit v} + {~ is_bit v}.
Proof.
  destruct ((0 <=? v) && (v <=? 1)) eqn:E.
  - left. now apply is_bit_valid.
  - right. intros Hb. apply is_bit_valid in Hb. congruence.
Qed.

Lemma pairs_bits_dec (ps : list (Z * Z)) :
  Forall (fun cv => is_bit (snd cv)) ps \/ Exists (fun cv => ~ is_bit (snd cv)) ps.
Proof.
  induction ps as [|[c v] ps [IH|IH]].
  - left. constructor.
  - destruct (is_bit_dec v); [left|right]; constructor; auto.
  - right. now apply Exists_cons_tl.
Qed.

Lemma pairs_bits_excl (ps : list (Z * Z)) :
  Forall (fun cv => is_bit (snd cv)) ps ->
  Exists (fun cv => ~ is_bit (snd cv)) ps -> False.
Proof.
  intros HF HE. apply Exists_exists in HE as [cv [Hin Hn]].
  rewrite Forall_forall in HF. apply Hn. apply HF. exact Hin.
Qed.

Lemma odd_not_even (k : nat) : Nat.Odd k <-> Nat.even k = false.
Proof.
  rewrite <- Nat.odd_spec. unfold Nat.odd. destruct (Nat.even k); cbn; split; congruence.
Qed.


(** C7: [run_length_decode_packed] raises exactly when the flat input
    has odd length or some value element is outside {0,1}; what it raises
    is one of its two [ValueError]s; and on an even-length input whose
    values are bits it returns each value repeated count times, in
    order. *)
Theorem rle_decode_malformed (encoded : list Z) :
  ((exists e, run_length_decode_packed encoded = Raise e) <->
   (Nat.Odd (length encoded) \/
    Exists (fun cv => ~ is_bit (snd cv)) (to_pairs encoded)))
  /\ (forall e, run_length_decode_packed encoded = Raise e -> MalformedEncoding e)
  /\ (Nat.Even (length encoded) ->
      Forall (fun cv => is_bit (snd cv)) (to_pairs encoded) ->
      run_length_decode_packed encoded = Ok (expand_pairs (to_pairs encoded))).
Proof.
  unfold run_length_decode_packed. rewrite len_mod2_even.
  destruct (Nat.even (length encoded)) eqn:Hev; cbn [negb].
  - destruct (decode_loop_spec encoded [] Hev) as [Hok Herr].
    split; [split|split].
    + intros [e He]. right.
      destruct (pairs_bits_dec (to_pairs encoded)) as [HF|HE]; [|exact HE].
      rewrite (Hok HF) in He. discriminate.
    + intros [Hodd|HE].
      * apply odd_not_even in Hodd. congruence.
      * destruct (Herr HE) as [v [_ Hv]]. eauto.
    + intros e He.
      destruct (pairs_bits_dec (to_pairs encoded)) as [HF|HE].
      * rewrite (Hok HF) in He. discriminate.
      * destruct (Herr HE) as [v [Hnv Hv]]. right. exists v. split; congruence.
    + intros _ HF. now rewrite (Hok HF).
  - apply odd_not_even in Hev. split; [split|split].
    + intros _. now left.
    + intros _. eauto.
    + intros e He. left. congruence.
    + intros Heven. exfalso. destruct Hev as [a Ha], Heven as [b Hb]. lia.
Qed.

(** C1: decoding the encoding of a binary sequence gives the sequence
    back; [0,0,0,1,1] encodes as [3,0,2,1], which decodes to [0,0,0,1,1];
    and a run of 300 equal values encodes as the pairs [255, v], [45, v]. *)
Theorem rle_round_trip_packed (x : list Z) (Hx : Forall is_bit x) :
  run_length_decode_packed (run_length_encode_packed x) = Ok x
  /\ run_length_encode_packed [0; 0; 0; 1; 1] = [3; 0; 2; 1]
  /\ run_length_decode_packed [3; 0; 2; 1] = Ok [0; 0; 0; 1; 1]
  /\ (forall v, run_length_encode_packed (repeat v 300) = [255; v; 45; v]).
Proof.
  split; [now apply rle_round_trip|].
  split; [reflexivity|]. split; [reflexivity|]. exact rle_run_300.
Qed.

Lemma rle_round_trip_packed_witness :
  Forall is_bit [1; 1; 0; 1; 0; 0; 0]
  /\ run_length_decode_packed (run_length_encode_packed [1; 1; 0; 1; 0; 0; 0])
     = Ok [1; 1; 0; 1; 0; 0; 0].
Proof.
  assert (H : Forall is_bit [1; 1; 0; 1; 0; 0; 0]).
  { repeat constructor; unfold is_bit; lia. }
  split; [exact H|].
  exact (proj1 (rle_round_trip_packed [1; 1; 0; 1; 0; 0; 0] H)).
Defined.


Lemma to_pairs_snoc (enc : list Z) (c v : Z) :
  Nat.even (length enc) = true ->
  to_pairs (enc ++ [c; v]) = to_pairs enc ++ [(c, v)].
Proof.
  induction enc as [| x | x y l IH] using list_pair_ind; intros Hev.
  - reflexivity.
  - discriminate.
  - cbn [app to_pairs]. now rewrite IH.
Qed.

Lemma even_length_snoc (enc : list Z) (c v : Z) :
  Nat.even (length (enc ++ [c; v])) = Nat.even (length enc).
Proof.
  rewrite length_app. cbn [length].
  replace (length enc + 2)%nat with (S (S (length enc))) by lia. reflexivity.
Qed.

(** The invariant of the encoding loop on the emitted pairs. *)
Lemma rle_loop_pairs (rest : list Z) :
  forall enc cv c,
    Nat.even (length enc) = true -> Forall packed_pair (to_pairs enc) ->
    1 <= c <= 255 -> is_bit cv -> Forall is_bit rest ->
    Nat.even (length (rle_loop rest enc cv c)) = true
    /\ Forall packed_pair (to_pairs (rle_loop rest enc cv c)).
Proof.
  assert (Hsnoc : forall enc cv c,
    Nat.even (length enc) = true -> Forall packed_pair (to_pairs enc) ->
    1 <= c <= 255 -> is_bit cv ->
    Nat.even (length (enc ++ [c; cv])) = true
    /\ Forall packed_pair (to_pairs (enc ++ [c; cv]))).
  { intros enc cv c Hev HF Hc Hcv. split.
    - now rewrite even_length_snoc.
    - rewrite to_pairs_snoc by assumption. apply Forall_app. split; [assumption|].
      constructor; [|constructor]. split; assumption. }
  induction rest as [|val rest IH]; intros enc cv c Hev HF Hc Hcv Hrest.
  - cbn [rle_loop]. now apply Hsnoc.
  - apply Forall_cons in Hrest as [Hval Hrest]. cbn [rle_loop].
    destruct (Z.eqb_spec val cv) as [->|Hne].
    + destruct (Z.ltb_spec c 255).
      * apply IH; auto; lia.
      * destruct (Hsnoc enc cv c) as [H1 H2]; auto. apply IH; auto; lia.
    + destruct (Hsnoc enc cv c) as [H1 H2]; auto. apply IH; auto; lia.
Qed.

Lemma rle_pairs (x : list Z) :
  Forall is_bit x ->
  Nat.even (length (run_length_encode_packed x)) = true
  /\ Forall packed_pair (to_pairs (run_length_encode_packed x)).
Proof.
  intros Hx. destruct x as [|b rest]; [split; [reflexivity|constructor]|].
  apply Forall_cons in Hx as [Hb Hrest]. cbn [run_length_encode_packed].
  apply rle_loop_pairs; [reflexivity | constructor | lia | assumption | assumption].
Qed.

Lemma packed_pairs_bytes (l : list Z) :
  Nat.even (length l) = true -> Forall packed_pair (to_pairs l) ->
  Forall is_byte l.
Proof.
  induction l as [| x | x y l IH] using list_pair_ind; intros Hev HF.
  - constructor.
  - discriminate.
  - cbn [to_pairs] in HF. apply Forall_cons in HF as [[Hc Hv] HF]. cbn in Hc, Hv.
    constructor; [unfold is_byte; lia|].
    constructor; [unfold is_byte, is_bit in *; lia|]. now apply IH.
Qed.

Lemma check_byte_range_ok (l : list Z) :
  Forall is_byte l -> check_byte_range l = Ok tt.
Proof.
  induction 1 as [|b l Hb _ IH]; [reflexivity|].
  cbn [check_byte_range]. unfold is_byte in Hb.
  destruct (Z.leb_spec 0 b); [|lia]. destruct (Z.leb_spec b 255); [|lia].
  exact IH.
Qed.

Lemma bytes_ok (l : list Z) : Forall is_byte l -> bytes l = Ok l.
Proof.
  intros Hl. unfold bytes.
  replace (forallb _ l) with true; [reflexivity|].
  symmetry. apply forallb_forall. intros b Hb.
  rewrite Forall_forall in Hl. specialize (Hl b). unfold is_byte in Hl.
  rewrite <- list_elem_of_In in Hb. specialize (Hl Hb).
  apply andb_true_iff. rewrite !Z.leb_le. lia.
Qed.

Lemma rle_bytes (x : list Z) :
  Forall is_bit x -> Forall is_byte (run_length_encode_packed x).
Proof.
  intros Hx. destruct (rle_pairs x Hx). now apply packed_pairs_bytes.
Qed.

(** C10: for binary keys every emitted count is in 1..255 and every
    emitted value a bit, so every element of the flat list is a byte; the
    conversion to bytes succeeds, for one key as for the flattened keys
    of the memory, and the byte-range error of the bundle writer is not
    raised. *)
Theorem rle_keys_fit_bytes (keys : list (list Z))
    (Hkeys : Forall (Forall is_bit) keys) :
  Forall (fun key =>
            Forall packed_pair (to_pairs (run_length_encode_packed key))
            /\ Forall is_byte (run_length_encode_packed key)
            /\ bytes (run_length_encode_packed key)
               = Ok (run_length_encode_packed key)) keys
  /\ encode_keys keys = Ok (concat (map run_length_encode_packed keys))
  /\ (forall v, encode_keys keys <> Raise (ValueError_byte_range v)).
Proof.
  assert (Hflat : Forall is_byte (concat (map run_length_encode_packed keys))).
  { induction Hkeys as [|key keys Hkey _ IH]; [constructor|].
    cbn [map concat]. apply Forall_app. split; [now apply rle_bytes|exact IH]. }
  assert (Hok : encode_keys keys = Ok (concat (map run_length_encode_packed keys))).
  { unfold encode_keys. rewrite (check_byte_range_ok _ Hflat). cbn [bind].
    now apply bytes_ok. }
  split; [|split; [exact Hok|intros v; rewrite Hok; discriminate]].
  eapply Forall_impl; [exact Hkeys|]. intros key Hkey. cbn beta.
  split; [apply rle_pairs, Hkey|].
  split; [apply rle_bytes, Hkey|]. apply bytes_ok, rle_bytes, Hkey.
Qed.

Lemma rle_keys_fit_bytes_witness :
  Forall (Forall is_bit) [[0; 0; 1]; [1; 1; 1]]
  /\ encode_keys [[0; 0; 1]; [1; 1; 1]] = Ok [2; 0; 1; 1; 3; 1].
Proof.
  assert (H : Forall (Forall is_bit) [[0; 0; 1]; [1; 1; 1]]).
  { repeat constructor; unfold is_bit; lia. }
  split; [exact H|].
  exact (proj1 (proj2 (rle_keys_fit_bytes [[0; 0; 1]; [1; 1; 1]] H))).
Defined.

(** The filling of [flat_data] on counters that fit a signed byte. *)
Lemma pack_vector_ok (dv : list Z) :
  forall flat, Forall in_signed_byte dv ->
    pack_vector dv flat = Ok (flat ++ map to_unsigned_byte dv).
Proof.
  induction dv as [|val dv IH]; intros flat HF.
  - cbn. now rewrite app_nil_r.
  - apply Forall_cons in HF as [Hv HF]. unfold in_signed_byte in Hv.
    cbn [pack_vector map]. unfold to_unsigned_byte at 1.
    destruct (Z.ltb_spec val (-128)); [lia|].
    destruct (Z.gtb_spec val 127); [lia|]. cbn [orb].
    destruct (val <? 0); rewrite IH by assumption; now rewrite <- app_assoc.
Qed.

(** It stops at the first counter that does not fit. *)
Lemma pack_vector_err (dv : list Z) :
  forall flat, Exists (fun v => ~ in_signed_byte v) dv ->
    exists v, ~ in_signed_byte v /\ v ∈ dv
              /\ pack_vector dv flat = Raise (ValueError_vote_range v).
Proof.
  induction dv as [|val dv IH]; intros flat HE; [inversion HE|].
  cbn [pack_vector].
  destruct ((val <? -128) || (val >? 127)) eqn:Hr.
  - exists val. split; [|split; [left|reflexivity]].
    unfold in_signed_byte. apply orb_true_iff in Hr.
    rewrite Z.ltb_lt, Z.gtb_gt in Hr. lia.
  - apply Exists_cons in HE as [HE|HE].
    + exfalso. apply HE. unfold in_signed_byte.
      apply orb_false_iff in Hr as [H1 H2].
      apply Z.ltb_ge in H1. rewrite Z.gtb_ltb in H2. apply Z.ltb_ge in H2. lia.
    + destruct (val <? 0);
        [destruct (IH (flat ++ [val + 256]) HE) as [v [Hv [Hin Hp]]]
        |destruct (IH (flat ++ [val]) HE) as [v [Hv [Hin Hp]]]];
        exists v; (split; [exact Hv|split; [now right|exact Hp]]).
Qed.

Lemma in_signed_byte_dec (v : Z) : {in_signed_byte v} + {~ in_signed_byte v}.
Proof.
  unfold in_signed_byte.
  destruct (Z_le_dec (-128) v), (Z_le_dec v 127); (left; lia) || (right; lia).
Qed.

Lemma signed_bytes_dec (l : list Z) :
  Forall in_signed_byte l \/ Exists (fun v => ~ in_signed_byte v) l.
Proof.
  induction l as [|v l [IH|IH]].
  - left. constructor.
  - destruct (in_signed_byte_dec v); [left|right]; constructor; auto.
  - right. now apply Exists_cons_tl.
Qed.

Lemma pack_data_ok (data : list (list Z)) :
  forall flat, Forall in_signed_byte (concat data) ->
    pack_data data flat = Ok (flat ++ map to_unsigned_byte (concat data)).
Proof.
  induction data as [|dv data IH]; intros flat HF.
  - cbn. now rewrite app_nil_r.
  - cbn [concat] in HF. apply Forall_app in HF as [H1 H2].
    cbn [pack_data concat]. rewrite (pack_vector_ok dv flat H1). cbn [bind].
    rewrite IH by assumption. now rewrite map_app, app_assoc.
Qed.

Lemma pack_data_err (data : list (list Z)) :
  forall flat, Exists (fun v => ~ in_signed_byte v) (concat data) ->
    exists v, ~ in_signed_byte v /\ v ∈ concat data
              /\ pack_data data flat = Raise (ValueError_vote_range v).
Proof.
  induction data as [|dv data IH]; intros flat HE; [inversion HE|].
  cbn [concat] in *. cbn [pack_data].
  destruct (signed_bytes_dec dv) as [Hdv|Hdv].
  - rewrite (pack_vector_ok dv flat Hdv). cbn [bind].
    apply Exists_app in HE as [HE|HE].
    + exfalso. apply Exists_exists in HE as [v [Hin Hn]].
      rewrite Forall_forall in Hdv. apply Hn, Hdv, Hin.
    + destruct (IH (flat ++ map to_unsigned_byte dv) HE) as [v [Hv [Hin Hp]]].
      exists v. split; [exact Hv|]. split; [|exact Hp].
      apply elem_of_app. now right.
  - destruct (pack_vector_err dv flat Hdv) as [v [Hv [Hin Hp]]].
    exists v. split; [exact Hv|]. split; [|now rewrite Hp].
    apply elem_of_app. now left.
Qed.

Lemma to_unsigned_byte_is_byte (v : Z) :
  in_signed_byte v -> is_byte (to_unsigned_byte v).
Proof.
  unfold in_signed_byte, is_byte, to_unsigned_byte.
  destruct (Z.ltb_spec v 0); lia.
Qed.


(** C3: encoding the counters raises exactly when some counter is
    outside [-128, 127], and then it raises the out-of-range
    [ValueError] for such a counter; when all counters are in range
    the result is the flattened matrix with 256 added to each negative
    counter and the others kept, never a clamped or wrapped value of an
    out-of-range counter. *)
Theorem encode_data_overflow (data : list (list Z)) :
  ((exists e, encode_data data = Raise e) <->
   Exists (fun v => ~ in_signed_byte v) (concat data))
  /\ (forall e, encode_data data = Raise e ->
      CounterOverflow e /\ exists v, v ∈ concat data /\ e = ValueError_vote_range v)
  /\ (Forall in_signed_byte (concat data) ->
      encode_data data = Ok (map to_unsigned_byte (concat data)))
  /\ (forall out, encode_data data = Ok out ->
      Forall in_signed_byte (concat data)).
Proof.
  assert (Hgood : Forall in_signed_byte (concat data) ->
                  encode_data data = Ok (map to_unsigned_byte (concat data))).
  { intros HF. unfold encode_data. rewrite (pack_data_ok data [] HF).
    cbn [bind app]. apply bytes_ok.
    apply Forall_map. eapply Forall_impl; [exact HF|].
    intros v Hv. now apply to_unsigned_byte_is_byte. }
  assert (Hbad : Exists (fun v => ~ in_signed_byte v) (concat data) ->
                 exists v, ~ in_signed_byte v /\ v ∈ concat data
                           /\ encode_data data = Raise (ValueError_vote_range v)).
  { intros HE. destruct (pack_data_err data [] HE) as [v [Hv [Hin Hp]]].
    exists v. split; [exact Hv|]. split; [exact Hin|].
    unfold encode_data. now rewrite Hp. }
  destruct (signed_bytes_dec (concat data)) as [HF|HE].
  - specialize (Hgood HF). split; [split|split; [|split]].
    + intros [e He]. congruence.
    + intros HE. exfalso. apply Exists_exists in HE as [v [Hin Hn]].
      rewrite Forall_forall in HF. apply Hn, HF, Hin.
    + intros e He. congruence.
    + intros _. exact Hgood.
    + intros _ _. exact HF.
  - destruct (Hbad HE) as [v [Hv [Hin Hp]]]. split; [split|split; [|split]].
    + intros _. exact HE.
    + intros _. eauto.
    + intros e He. rewrite Hp in He. injection He as <-.
      split; [exists v; auto|eauto].
    + intros HF. exfalso. rewrite Forall_forall in HF. apply Hv, HF, Hin.
    + intros out Hout. congruence.
Qed.

(** The full windows: the first [k] of them make up the first
    [k * chunk_size] bits. *)
Lemma full_chunks (binary_data : list Z) (c : nat) (k : nat) :
  (0 < c)%nat -> (k * c <= length binary_data)%nat ->
  let chunks :=
    map (fun i => slice binary_data (i * Z.of_nat c) ((i + 1) * Z.of_nat c))
        (map Z.of_nat (seq 0 k)) in
  concat chunks = take (k * c) binary_data
  /\ Forall (fun chunk => length chunk = c) chunks
  /\ length chunks = k.
Proof.
  intros Hc. induction k as [|k IH]; intros Hk; cbn zeta.
  - split; [now rewrite take_0|]. split; [constructor|reflexivity].
  - destruct IH as [IH1 [IH2 IH3]]; [lia|].
    rewrite seq_S, !map_app, concat_app. cbn [map concat Nat.add].
    assert (Hs : slice binary_data (Z.of_nat k * Z.of_nat c)
                   ((Z.of_nat k + 1) * Z.of_nat c)
                 = take c (drop (k * c) binary_data)).
    { unfold slice. f_equal; [|f_equal]; lia. }
    rewrite Hs, app_nil_r, IH1. split; [|split].
    + rewrite take_take_drop. f_equal. lia.
    + apply Forall_app. split; [exact IH2|]. constructor; [|constructor].
      rewrite length_take, length_drop. lia.
    + rewrite length_app, IH3. cbn. lia.
Qed.

Lemma chunk_binary_data_spec (binary_data : list Z) (chunk_size : Z) :
  0 < chunk_size ->
  exists chunks,
    chunk_binary_data binary_data chunk_size = Ok chunks
    /\ Forall (fun chunk => len chunk = chunk_size) chunks
    /\ len chunks = len binary_data / chunk_size
                    + (if len binary_data mod chunk_size >? 0 then 1 else 0)
    /\ 0 <= len chunks * chunk_size - len binary_data < chunk_size
    /\ concat chunks
       = binary_data ++ list_mul 0 (len chunks * chunk_size - len binary_data).
Proof.
  intros Hcs. unfold chunk_binary_data, range, len.
  destruct (Z.eqb_spec chunk_size 0) as [|_]; [lia|].
  set (c := Z.to_nat chunk_size). set (L := length binary_data).
  assert (Hc : (0 < c)%nat) by lia.
  assert (Ecs : chunk_size = Z.of_nat c) by lia.
  rewrite Ecs. rewrite <- Nat2Z.inj_div, <- Nat2Z.inj_mod, Nat2Z.id.
  pose proof (Nat.div_mod_eq L c) as Hdm.
  pose proof (Nat.mod_upper_bound L c ltac:(lia)) as Hr.
  destruct (full_chunks binary_data c (L / c) Hc) as [H1 [H2 H3]]; [nia|].
  cbn zeta in H1, H2, H3.
  set (main := map _ (map Z.of_nat (seq 0 (L / c)))) in *.
  destruct (Z.gtb_spec (Z.of_nat (L mod c)) 0) as [Hpos|Hzero].
  - eexists. split; [reflexivity|].
    assert (Hlen : length (main ++ [drop (L - Z.to_nat (Z.of_nat (L mod c))) binary_data
                     ++ list_mul 0 (Z.of_nat c - Z.of_nat (L mod c))])
                   = S (L / c)).
    { rewrite length_app, H3. cbn. lia. }
    rewrite Hlen. split; [|split; [lia|split; [nia|]]].
    + apply Forall_app. split.
      * eapply Forall_impl; [exact H2|]. cbn beta. intros ch Hch. lia.
      * constructor; [|constructor]. rewrite length_app, length_drop.
        unfold list_mul. rewrite repeat_length. fold L. lia.
    + rewrite concat_app, H1. cbn [concat]. rewrite app_nil_r, app_assoc.
      rewrite Nat2Z.id.
      replace (L - L mod c)%nat with (L / c * c)%nat by nia.
      rewrite take_drop. f_equal. f_equal. nia.
  - eexists. split; [reflexivity|]. rewrite H3.
    assert (Hz : (L mod c = 0)%nat) by lia.
    split; [|split; [lia|split; [nia|]]].
    + eapply Forall_impl; [exact H2|]. cbn beta. intros ch Hch. lia.
    + rewrite H1. replace (Z.of_nat (L / c) * Z.of_nat c - Z.of_nat L) with 0 by nia.
      unfold list_mul. cbn [Z.to_nat repeat]. rewrite app_nil_r.
      apply take_ge. fold L. nia.
Qed.

Lemma join_padded (binary_data : list Z) (pad : Z) :
  join [binary_data ++ list_mul 0 pad] (len binary_data) = binary_data.
Proof.
  unfold join, slice, len. cbn [concat]. rewrite app_nil_r, Nat2Z.id.
  change (Z.to_nat 0) with 0%nat. rewrite drop_0, Nat.sub_0_r.
  now rewrite take_app_length.
Qed.

(** C6: for a positive chunk size the chunks all have that size, there
    are as many as full windows plus one when bits are left over, their
    concatenation is the payload followed by fewer than [chunk_size]
    zeros, and concatenating them and keeping the original number of bits
    gives the payload back; a payload of 20 bits and chunks of 8 gives
    three chunks, the last one the last four bits followed by four
    zeros. *)
Theorem chunk_pad_truncate (binary_data : list Z) (chunk_size : Z)
    (Hsize : 0 < chunk_size) :
  (exists chunks,
     chunk_binary_data binary_data chunk_size = Ok chunks
     /\ Forall (fun chunk => len chunk = chunk_size) chunks
     /\ len chunks = len binary_data / chunk_size
                     + (if len binary_data mod chunk_size >? 0 then 1 else 0)
     /\ 0 <= len chunks * chunk_size - len binary_data < chunk_size
     /\ concat chunks
        = binary_data ++ list_mul 0 (len chunks * chunk_size - len binary_data)
     /\ join chunks (len binary_data) = binary_data)
  /\ (forall payload, length payload = 20%nat ->
      exists c1 c2 c3,
        chunk_binary_data payload 8 = Ok [c1; c2; c3]
        /\ c1 = take 8 payload /\ c2 = take 8 (drop 8 payload)
        /\ c3 = drop 16 payload ++ [0; 0; 0; 0]
        /\ length c1 = 8%nat /\ length c2 = 8%nat /\ length c3 = 8%nat
        /\ join [c1; c2; c3] 20 = payload).
Proof.
  split.
  - destruct (chunk_binary_data_spec binary_data chunk_size Hsize)
      as [chunks [H1 [H2 [H3 [H4 H5]]]]].
    exists chunks. repeat (split; [assumption|]).
    unfold join. rewrite H5. 
    pose proof (join_padded binary_data
                  (len chunks * chunk_size - len binary_data)) as Hj.
    unfold join in Hj. cbn [concat] in Hj. now rewrite app_nil_r in Hj.
  - intros payload Hlen.
    exists (take 8 payload), (take 8 (drop 8 payload)),
           (drop 16 payload ++ [0; 0; 0; 0]).
    split.
    { unfold chunk_binary_data, len, range. rewrite Hlen. reflexivity. }
    split; [reflexivity|]. split; [reflexivity|]. split; [reflexivity|].
    rewrite length_take, length_app, !length_take, !length_drop, Hlen.
    split; [reflexivity|]. split; [reflexivity|]. split; [reflexivity|].
    unfold join, slice. cbn [concat]. rewrite app_nil_r.
    rewrite !app_assoc. rewrite take_take_drop.
    change (8 + 8)%nat with 16%nat. rewrite take_drop.
    change (Z.to_nat 20 - Z.to_nat 0)%nat with 20%nat.
    change (Z.to_nat 0) with 0%nat. rewrite drop_0.
    rewrite <- Hlen. now rewrite take_app_length.
Qed.

Lemma chunk_pad_truncate_witness :
  0 < 8
  /\ exists chunks,
       chunk_binary_data [1; 0; 1; 1; 0; 0; 1; 0; 1; 1] 8 = Ok chunks
       /\ join chunks (len [1; 0; 1; 1; 0; 0; 1; 0; 1; 1])
          = [1; 0; 1; 1; 0; 0; 1; 0; 1; 1].
Proof.
  assert (H : 0 < 8) by lia.
  split; [exact H|].
  destruct (proj1 (chunk_pad_truncate [1; 0; 1; 1; 0; 0; 1; 0; 1; 1] 8 H))
    as [chunks [H1 [_ [_ [_ [_ H6]]]]]].
  exists chunks. split; assumption.
Defined.

(** ** Lemmas on the memory engine *)

Lemma fold_left_add_acc (l : list Z) :
  forall acc, fold_left Z.add l acc = acc + fold_left Z.add l 0.
Proof.
  induction l as [|x l IH]; intros acc; cbn [fold_left]; [lia|].
  rewrite (IH (acc + x)), (IH (0 + x)). lia.
Qed.

Lemma hamming_distance_cons (x y : Z) (a b : list Z) :
  hamming_distance (x :: a) (y :: b)
  = (if x =? y then 0 else 1) + hamming_distance a b.
Proof.
  unfold hamming_distance. cbn [zip_with fold_left].
  now rewrite fold_left_add_acc.
Qed.

(** The distance is at most the length of the shorter vector. *)
Lemma hamming_distance_bound (a : list Z) :
  forall b, 0 <= hamming_distance a b <= Z.min (len a) (len b).
Proof.
  unfold len. induction a as [|x a IH]; intros [|y b];
    try (unfold hamming_distance; cbn; lia).
  rewrite hamming_distance_cons. specialize (IH b). cbn [length].
  destruct (x =? y); lia.
Qed.

Lemma hamming_distance_self (a : list Z) : hamming_distance a a = 0.
Proof.
  induction a as [|x a IH]; [reflexivity|].
  now rewrite hamming_distance_cons, Z.eqb_refl, IH.
Qed.

Lemma getitem_Some {A : Type} (l : list A) (i : nat) (x : A) :
  l !! i = Some x -> getitem l i = Ok x.
Proof. intros H. unfold getitem. now rewrite H. Qed.

Lemma getitem_None {A : Type} (l : list A) (i : nat) :
  (length l <= i)%nat -> getitem l i = Raise IndexError.
Proof. intros H. unfold getitem. now rewrite lookup_ge_None_2. Qed.


Lemma in_window_true (k m j : nat) :
  in_window k m j = true -> (k <= j < k + m)%nat.
Proof.
  unfold in_window. rewrite andb_true_iff, Nat.leb_le, Nat.ltb_lt. lia.
Qed.

Lemma in_window_false (k m j : nat) :
  in_window k m j = false -> ~ (k <= j < k + m)%nat.
Proof.
  unfold in_window. rewrite andb_false_iff, Nat.leb_gt, Nat.ltb_ge. lia.
Qed.

Ltac window :=
  repeat match goal with
    | |- context [in_window ?k ?m ?j] =>
        let E := fresh "E" in
        destruct (in_window k m j) eqn:E;
        [apply in_window_true in E | apply in_window_false in E]
    end;
  try reflexivity; try (exfalso; lia).

(** The inner loop of [lookup] over the columns [k .. k+m-1] adds the row
    into the sums, column by column, and leaves the other sums alone. *)
Lemma accumulate_seq (i : nat) (data : list (list Z)) (row : list Z) :
  data !! i = Some row ->
  forall m k retrieved,
    (k + m <= length retrieved)%nat -> (k + m <= length row)%nat ->
    exists out,
      accumulate i (seq k m) data retrieved = Ok out
      /\ length out = length retrieved
      /\ forall j, out !! j
                   = (fun r => if in_window k m j then r + default 0 (row !! j) else r)
                       <$> retrieved !! j.
Proof.
  intros Hrow. induction m as [|m IH]; intros k retrieved Hret Hlen.
  - exists retrieved. split; [reflexivity|]. split; [reflexivity|].
    intros j. destruct (retrieved !! j); cbn [fmap option_fmap option_map]; [|reflexivity].
    window.
  - cbn [seq accumulate].
    destruct (lookup_lt_is_Some_2 retrieved k ltac:(lia)) as [r Hr].
    destruct (lookup_lt_is_Some_2 row k ltac:(lia)) as [c Hc].
    rewrite (getitem_Some _ _ _ Hr), (getitem_Some _ _ _ Hrow). cbn [bind].
    rewrite (getitem_Some _ _ _ Hc). cbn [bind].
    destruct (IH (S k) (<[k := r + c]> retrieved)) as [out [H1 [H2 H3]]].
    { rewrite length_insert. lia. }
    { lia. }
    exists out. split; [exact H1|]. split; [now rewrite H2, length_insert|].
    intros j. rewrite H3.
    destruct (Nat.eq_dec j k) as [->|Hne].
    + rewrite list_lookup_insert_eq by lia. rewrite Hr, Hc.
      cbn [fmap option_fmap option_map default]. window.
    + rewrite list_lookup_insert_ne by lia.
      destruct (retrieved !! j); cbn [fmap option_fmap option_map]; [|reflexivity].
      window.
Qed.

(** Past the end of the row it raises [IndexError]. *)
Lemma accumulate_short_row (i : nat) (data : list (list Z)) (row : list Z) :
  data !! i = Some row ->
  forall m k retrieved,
    (k <= length row)%nat -> (length row < k + m)%nat ->
    (k + m <= length retrieved)%nat ->
    accumulate i (seq k m) data retrieved = Raise IndexError.
Proof.
  intros Hrow. induction m as [|m IH]; intros k retrieved Hk Hlen Hret; [lia|].
  cbn [seq accumulate].
  destruct (lookup_lt_is_Some_2 retrieved k ltac:(lia)) as [r Hr].
  rewrite (getitem_Some _ _ _ Hr), (getitem_Some _ _ _ Hrow). cbn [bind].
  destruct (Nat.eq_dec k (length row)) as [->|Hne].
  - now rewrite getitem_None by lia.
  - destruct (lookup_lt_is_Some_2 row k ltac:(lia)) as [c Hc].
    rewrite (getitem_Some _ _ _ Hc). cbn [bind].
    apply IH; [lia|lia|]. rewrite length_insert. lia.
Qed.


Lemma Zsum_cons (x : Z) (l : list Z) : Zsum (x :: l) = x + Zsum l.
Proof. reflexivity. Qed.

Lemma lookup_rows_spec (sdm : SDM) (key_vector : list Z) :
  covers sdm (length key_vector) ->
  forall is_ retrieved,
    Forall (fun i => (i < length (keys sdm))%nat) is_ ->
    length retrieved = length key_vector ->
    exists out,
      lookup_rows sdm key_vector is_ retrieved = Ok out
      /\ length out = length key_vector
      /\ forall j, (j < length key_vector)%nat ->
           out !! j
           = Some (default 0 (retrieved !! j)
                   + Zsum (map (fun i => if in_radius sdm key_vector i
                                         then counter (data sdm) i j else 0)
                               is_)).
Proof.
  intros Hcov. induction is_ as [|i is_ IH]; intros retrieved His Hlen.
  - exists retrieved. split; [reflexivity|]. split; [exact Hlen|].
    intros j Hj. cbn [map]. change (Zsum []) with 0.
    destruct (lookup_lt_is_Some_2 retrieved j ltac:(lia)) as [r Hr].
    rewrite Hr. cbn [default from_option id]. f_equal. lia.
  - apply Forall_cons in His as [Hi His]. cbn [lookup_rows].
    destruct (lookup_lt_is_Some_2 (keys sdm) i Hi) as [key Hkey].
    rewrite (getitem_Some _ _ _ Hkey). cbn [bind].
    assert (Hin : in_radius sdm key_vector i
                  = (hamming_distance key key_vector <=? radius sdm)).
    { unfold in_radius. now rewrite Hkey. }
    destruct (hamming_distance key key_vector <=? radius sdm).
    + destruct (Hcov i Hi) as [row [Hrow Hm]].
      destruct (accumulate_seq i (data sdm) row Hrow (length key_vector) 0
                  retrieved ltac:(lia) ltac:(lia)) as [acc [Ha [Hal Hap]]].
      rewrite Ha. cbn [bind].
      destruct (IH acc His ltac:(lia)) as [out [Ho [Hol Hop]]].
      exists out. split; [exact Ho|]. split; [exact Hol|].
      intros j Hj. rewrite (Hop j Hj). cbn [map]. rewrite Zsum_cons, Hin.
      rewrite Hap. destruct (lookup_lt_is_Some_2 retrieved j ltac:(lia)) as [r Hr].
      rewrite Hr. cbn [fmap option_fmap option_map default from_option id].
      unfold counter at 2. rewrite Hrow. f_equal.
      destruct (in_window 0 (length key_vector) j) eqn:E.
      * lia.
      * apply in_window_false in E. lia.
    + destruct (IH retrieved His Hlen) as [out [Ho [Hol Hop]]].
      exists out. split; [exact Ho|]. split; [exact Hol|].
      intros j Hj. rewrite (Hop j Hj). cbn [map]. rewrite Zsum_cons, Hin.
      f_equal; lia.
Qed.

Lemma lookup_repeat {A : Type} (x : A) (k j : nat) :
  (j < k)%nat -> repeat x k !! j = Some x.
Proof.
  revert j. induction k as [|k IH]; intros [|j] Hj; try lia; [reflexivity|].
  cbn [repeat]. rewrite lookup_cons. apply IH. lia.
Qed.

Lemma Forall_seq_lt (k : nat) : Forall (fun i => (i < k)%nat) (seq 0 k).
Proof. apply Forall_forall. intros i Hi. apply elem_of_seq in Hi. lia. Qed.

(** [lookup] on a memory whose rows are long enough for the key. *)
Lemma lookup_spec (sdm : SDM) (key_vector : list Z) :
  covers sdm (length key_vector) ->
  exists out,
    lookup sdm key_vector = Ok out
    /\ length out = length key_vector
    /\ forall j, (j < length key_vector)%nat ->
         out !! j = Some (threshold (accumulated_sum sdm key_vector j)).
Proof.
  intros Hcov. unfold lookup.
  destruct (lookup_rows_spec sdm key_vector Hcov (seq 0 (length (keys sdm)))
              (repeat 0 (length key_vector)) (Forall_seq_lt _)
              (repeat_length _ _)) as [out [Ho [Hol Hop]]].
  rewrite Ho. cbn [bind]. eexists. split; [reflexivity|].
  split; [now rewrite length_map|].
  intros j Hj. rewrite list_lookup_fmap, (Hop j Hj).
  cbn [fmap option_fmap option_map]. unfold accumulated_sum.
  assert (Hz : repeat 0 (length key_vector) !! j = Some 0).
  { apply lookup_repeat. exact Hj. }
  rewrite Hz. cbn [default from_option id]. reflexivity.
Qed.


(** The inner loop of [enter] over the columns [k .. k+m-1] of row [i]
    moves each of these counters by the bit of the data vector and leaves
    the rest of the matrix alone. *)
Lemma enter_cols_seq (data_vector : list Z) (i : nat) :
  forall m k data row,
    data !! i = Some row ->
    (k + m <= length data_vector)%nat -> (k + m <= length row)%nat ->
    exists row',
      enter_cols data_vector i (seq k m) data = Ok (<[i := row']> data)
      /\ length row' = length row
      /\ forall j, row' !! j
                   = (fun c => if in_window k m j
                               then vote (default 0 (data_vector !! j)) c else c)
                       <$> row !! j.
Proof.
  induction m as [|m IH]; intros k data row Hrow Hdv Hlen.
  - exists row. split; [cbn; now rewrite list_insert_id|].
    split; [reflexivity|]. intros j.
    destruct (row !! j); cbn [fmap option_fmap option_map]; [|reflexivity].
    window.
  - cbn [seq enter_cols].
    destruct (lookup_lt_is_Some_2 data_vector k ltac:(lia)) as [bit Hbit].
    destruct (lookup_lt_is_Some_2 row k ltac:(lia)) as [c Hc].
    rewrite (getitem_Some _ _ _ Hbit). cbn [bind].
    rewrite (getitem_Some _ _ _ Hrow). cbn [bind].
    rewrite (getitem_Some _ _ _ Hc). cbn [bind].
    fold (vote bit c).
    assert (Hi : (i < length data)%nat) by (eapply lookup_lt_Some; eauto).
    destruct (IH (S k) (<[i := <[k := vote bit c]> row]> data)
                (<[k := vote bit c]> row)) as [row' [H1 [H2 H3]]].
    { now apply list_lookup_insert_eq. }
    { lia. }
    { rewrite length_insert. lia. }
    exists row'. split; [now rewrite H1, list_insert_insert_eq|].
    split; [now rewrite H2, length_insert|].
    intros j. rewrite H3.
    destruct (Nat.eq_dec j k) as [->|Hne].
    + rewrite list_lookup_insert_eq by lia. rewrite Hc, Hbit.
      cbn [fmap option_fmap option_map default from_option id]. window.
    + rewrite list_lookup_insert_ne by lia.
      destruct (row !! j); cbn [fmap option_fmap option_map]; [|reflexivity].
      window.
Qed.

(** Past the end of the row it raises [IndexError]. *)
Lemma enter_cols_short_row (data_vector : list Z) (i : nat) :
  forall m k data row,
    data !! i = Some row ->
    (k <= length row)%nat -> (length row < k + m)%nat ->
    (k + m <= length data_vector)%nat ->
    enter_cols data_vector i (seq k m) data = Raise IndexError.
Proof.
  induction m as [|m IH]; intros k data row Hrow Hk Hlen Hdv; [lia|].
  cbn [seq enter_cols].
  destruct (lookup_lt_is_Some_2 data_vector k ltac:(lia)) as [bit Hbit].
  rewrite (getitem_Some _ _ _ Hbit). cbn [bind].
  rewrite (getitem_Some _ _ _ Hrow). cbn [bind].
  destruct (Nat.eq_dec k (length row)) as [->|Hne].
  - now rewrite getitem_None by lia.
  - destruct (lookup_lt_is_Some_2 row k ltac:(lia)) as [c Hc].
    rewrite (getitem_Some _ _ _ Hc). cbn [bind].
    assert (Hi : (i < length data)%nat) by (eapply lookup_lt_Some; eauto).
    apply (IH (S k) _ (<[k := (if bit =? 1 then c + 1 else c - 1)]> row)).
    + now apply list_lookup_insert_eq.
    + rewrite length_insert. lia.
    + rewrite length_insert. lia.
    + lia.
Qed.

(** [enter] never fails on account of the key: when the rows are long
    enough for the data vector, it returns a matrix of the same shape,
    whatever the key and its length. *)
Lemma enter_rows_total (keys : list (list Z)) (radius : Z)
    (key_vector data_vector : list Z) :
  forall is_ data,
    Forall (fun i => (i < length keys)%nat
                     /\ exists l, (length <$> data) !! i = Some l
                                  /\ (length data_vector <= l)%nat) is_ ->
    exists data',
      enter_rows keys radius key_vector data_vector is_ data = Ok data'
      /\ length <$> data' = length <$> data.
Proof.
  induction is_ as [|i is_ IH]; intros data His.
  - exists data. split; reflexivity.
  - apply Forall_cons in His as [[Hi [l [Hl Hdv]]] His]. cbn [enter_rows].
    destruct (lookup_lt_is_Some_2 keys i Hi) as [key Hkey].
    rewrite (getitem_Some _ _ _ Hkey). cbn [bind].
    destruct (hamming_distance key key_vector <=? radius); [|now apply IH].
    rewrite list_lookup_fmap in Hl.
    destruct (data !! i) as [row|] eqn:Hrow; [|discriminate].
    cbn in Hl. injection Hl as <-.
    destruct (enter_cols_seq data_vector i (length data_vector) 0 data row
                Hrow ltac:(lia) ltac:(lia)) as [row' [H1 [H2 H3]]].
    rewrite H1. cbn [bind].
    assert (Hshape : length <$> <[i := row']> data = length <$> data).
    { rewrite list_fmap_insert, H2. apply list_insert_id.
      now rewrite list_lookup_fmap, Hrow. }
    destruct (IH (<[i := row']> data)) as [data' [Hd Hs]].
    { now rewrite Hshape. }
    exists data'. split; [exact Hd|]. now rewrite Hs.
Qed.


Lemma threshold_vote_bit (b : Z) : is_bit b -> threshold (vote b 0) = b.
Proof. intros [-> | ->]; reflexivity. Qed.

(** C2: in a memory with one address and radius n, starting from zero
    counters, writing a pattern of n bits at a key of length n and reading
    at the same key returns the pattern. *)
Theorem single_write_recall (address key_vector pattern : list Z) (n : nat)
    (Hkey : length key_vector = n) (Hlen : length pattern = n)
    (Hbits : Forall is_bit pattern) :
  exists sdm',
    enter (single_address_memory address n) key_vector pattern = Ok sdm'
    /\ lookup sdm' key_vector = Ok pattern.
Proof.
  assert (Hd : (hamming_distance address key_vector <=? Z.of_nat n) = true).
  { apply Z.leb_le. pose proof (hamming_distance_bound address key_vector).
    unfold len in *. lia. }
  destruct (enter_cols_seq pattern 0 (length pattern) 0 [repeat 0 n]
              (repeat 0 n) eq_refl ltac:(lia)
              ltac:(rewrite repeat_length; lia)) as [row' [H1 [H2 H3]]].
  rewrite repeat_length in H2.
  eexists. split.
  { unfold enter, single_address_memory.
    cbn [keys radius data length seq enter_rows].
    unfold getitem at 1. cbn [base.lookup list_lookup bind].
    rewrite Hd, H1. cbn [bind]. reflexivity. }
  cbn [insert list_insert].
  set (sdm' := {| p := _; n := _; keys := _; data := _; radius := _ |}).
  assert (Hcov : covers sdm' (length key_vector)).
  { intros i Hi. cbn in Hi. assert (i = 0%nat) as -> by lia.
    exists row'. split; [reflexivity|]. lia. }
  destruct (lookup_spec sdm' key_vector Hcov) as [out [Ho [Hol Hop]]].
  rewrite Ho. f_equal. apply list_eq. intros j.
  destruct (Nat.lt_ge_cases j n) as [Hj|Hj].
  - rewrite (Hop j ltac:(lia)).
    destruct (lookup_lt_is_Some_2 pattern j ltac:(lia)) as [b Hb].
    rewrite Hb. f_equal.
    unfold accumulated_sum, in_radius, counter.
    cbn [keys data radius length seq map base.lookup list_lookup sdm'].
    rewrite Hd, Zsum_cons. change (Zsum []) with 0. rewrite Z.add_0_r.
    rewrite H3, (lookup_repeat 0 n j Hj).
    cbn [fmap option_fmap option_map default from_option id].
    rewrite Hb. cbn [default from_option id].
    destruct (in_window 0 (length pattern) j) eqn:E.
    + apply threshold_vote_bit. rewrite Forall_forall in Hbits.
      apply Hbits. eapply list_elem_of_lookup_2, Hb.
    + apply in_window_false in E. lia.
  - rewrite !lookup_ge_None_2 by lia. reflexivity.
Qed.

Lemma single_write_recall_witness :
  length [0; 1; 1; 0; 1; 0; 0; 1] = 8%nat
  /\ length [1; 0; 1; 1; 0; 0; 1; 0] = 8%nat
  /\ Forall is_bit [1; 0; 1; 1; 0; 0; 1; 0]
  /\ exists sdm',
       enter (single_address_memory [1; 1; 1; 0; 0; 0; 1; 0] 8)
         [0; 1; 1; 0; 1; 0; 0; 1] [1; 0; 1; 1; 0; 0; 1; 0] = Ok sdm'
       /\ lookup sdm' [0; 1; 1; 0; 1; 0; 0; 1] = Ok [1; 0; 1; 1; 0; 0; 1; 0].
Proof.
  assert (H1 : length [0; 1; 1; 0; 1; 0; 0; 1] = 8%nat) by reflexivity.
  assert (H2 : length [1; 0; 1; 1; 0; 0; 1; 0] = 8%nat) by reflexivity.
  assert (H3 : Forall is_bit [1; 0; 1; 1; 0; 0; 1; 0]).
  { repeat constructor; unfold is_bit; lia. }
  split; [exact H1|]. split; [exact H2|]. split; [exact H3|].
  exact (single_write_recall [1; 1; 1; 0; 0; 0; 1; 0] _ _ 8%nat H1 H2 H3).
Defined.

(** ** Lemmas on the generated keys *)

Lemma random_matrix_length `{Random} (n : nat) :
  forall k g, length (fst (random_matrix k n g)) = k.
Proof.
  induction k as [|k IH]; intros g; [reflexivity|].
  cbn [random_matrix]. destruct (random_vector n g) as [row g1].
  specialize (IH g1). destruct (random_matrix k n g1) as [rows g2].
  cbn [fst length] in *. now rewrite IH.
Qed.

(** Two matrices drawn from the same state agree on their common rows. *)
Lemma random_matrix_prefix `{Random} (n : nat) :
  forall k1 k2 g i,
    (i < k1)%nat -> (i < k2)%nat ->
    fst (random_matrix k1 n g) !! i = fst (random_matrix k2 n g) !! i.
Proof.
  induction k1 as [|k1 IH]; intros k2 g i H1 H2; [lia|].
  destruct k2 as [|k2]; [lia|]. cbn [random_matrix].
  destruct (random_vector n g) as [row g1].
  specialize (IH k2 g1).
  destruct (random_matrix k1 n g1) as [rows1 g2].
  destruct (random_matrix k2 n g1) as [rows2 g3].
  cbn [fst] in *. destruct i as [|i]; [reflexivity|].
  rewrite !lookup_cons. apply IH; lia.
Qed.

Lemma SDM_init_keys `{Random} (p n seed_ : Z) (sdm : SDM) (g : rng) :
  SDM_init p n seed_ = Ok (sdm, g) ->
  keys sdm = fst (random_matrix (Z.to_nat p) (Z.to_nat n) (seed seed_)).
Proof.
  unfold SDM_init.
  destruct (random_matrix (Z.to_nat p) (Z.to_nat n) (seed seed_)) as [ks g'].
  destruct (init_radius n) as [r|e]; cbn [bind]; [|discriminate].
  intros [= <- _]. reflexivity.
Qed.


(** C9: the address space and the chunk keys are drawn from the same
    seeded state, so the i-th chunk key of any file is the i-th address
    of the memory, at Hamming distance 0 from it, whenever both exist. *)
Theorem chunk_keys_are_addresses `{Random} (count p n : Z) (i : nat)
    (sdm : SDM) (g : rng)
    (Hcount : Z.of_nat i < count) (Hp : Z.of_nat i < p)
    (Hinit : SDM_init p n default_seed = Ok (sdm, g)) :
  exists key,
    fst (generate_key_vectors count n default_seed) !! i = Some key
    /\ keys sdm !! i = Some key
    /\ (forall address, keys sdm !! i = Some address ->
        hamming_distance address key = 0)
    /\ (forall count', Z.of_nat i < count' ->
        fst (generate_key_vectors count' n default_seed) !! i = Some key).
Proof.
  rewrite (SDM_init_keys _ _ _ _ _ Hinit). unfold generate_key_vectors.
  destruct (lookup_lt_is_Some_2
              (fst (random_matrix (Z.to_nat count) (Z.to_nat n) (seed default_seed)))
              i) as [key Hkey].
  { rewrite random_matrix_length. lia. }
  assert (Hany : forall q, Z.of_nat i < q ->
            fst (random_matrix (Z.to_nat q) (Z.to_nat n) (seed default_seed)) !! i
            = Some key).
  { intros q Hq. rewrite <- Hkey. apply random_matrix_prefix; lia. }
  exists key. split; [exact Hkey|]. split; [now apply Hany|].
  split; [|exact Hany].
  intros address Ha. rewrite (Hany p Hp) in Ha. injection Ha as <-.
  apply hamming_distance_self.
Qed.

Lemma chunk_keys_are_addresses_witness :
  Z.of_nat 1 < 3 /\ Z.of_nat 1 < 2
  /\ exists sdm g,
       SDM_init (H := lcg) 2 8 default_seed = Ok (sdm, g)
       /\ exists key,
            fst (generate_key_vectors (H := lcg) 3 8 default_seed) !! 1%nat
            = Some key
            /\ keys sdm !! 1%nat = Some key.
Proof.
  assert (H1 : Z.of_nat 1 < 3) by (cbn; lia).
  assert (H2 : Z.of_nat 1 < 2) by (cbn; lia).
  split; [exact H1|]. split; [exact H2|].
  eexists. eexists.
  assert (Hinit : SDM_init (H := lcg) 2 8 default_seed
                  = Ok ({| p := 2; n := 8;
                           keys := fst (random_matrix (H := lcg) 2 8 default_seed);
                           data := [repeat 0 8; repeat 0 8];
                           radius := 3 |},
                        snd (random_matrix (H := lcg) 2 8 default_seed)))
    by (vm_compute; reflexivity).
  split; [exact Hinit|].
  destruct (chunk_keys_are_addresses (H := lcg) 3 2 8 1 _ _ H1 H2 Hinit)
    as [key [Hk1 [Hk2 _]]].
  exists key. split; assumption.
Defined.

(** ** Lemmas on the radius *)

(** The literal: a valid binary64 number, and no other one is nearer to
    451/1000 (the distance is below half a unit in the last place). *)
Lemma float_0_451_nearest :
  valid_binary prec emax float_0_451 = true
  /\ Z.abs (1000 * 8124493727776375 - 451 * 2 ^ 54) * 2 < 1000.
Proof. split; [reflexivity|]. vm_compute. reflexivity. Qed.






















(** ** Lemmas on the reads of sdmTest.py *)

(** The index-based distance is defined when the second vector is at
    least as long as the first. *)
Lemma hamming_loop_total (vector1 vector2 : list Z) :
  (length vector1 <= length vector2)%nat ->
  forall m k distance,
    (k + m <= length vector1)%nat ->
    exists h, hamming_loop vector1 vector2 (seq k m) distance = Ok h.
Proof.
  intros Hlen. induction m as [|m IH]; intros k distance Hk.
  - exists distance. reflexivity.
  - cbn [seq hamming_loop].
    destruct (lookup_lt_is_Some_2 vector1 k ltac:(lia)) as [x Hx].
    destruct (lookup_lt_is_Some_2 vector2 k ltac:(lia)) as [y Hy].
    rewrite (getitem_Some _ _ _ Hx). cbn [bind].
    rewrite (getitem_Some _ _ _ Hy). cbn [bind].
    apply IH. lia.
Qed.

Lemma hamming_distance_indexed_total (vector1 vector2 : list Z) :
  (length vector1 <= length vector2)%nat ->
  exists h, hamming_distance_indexed vector1 vector2 = Ok h.
Proof.
  intros Hlen. unfold hamming_distance_indexed.
  apply hamming_loop_total; [exact Hlen|lia].
Qed.


Lemma sdmTest_lookup_rows_spec (sdm : sdmTest.SDM) (addressVector : list Z) :
  well_shaped sdm addressVector ->
  forall is_ retrieved,
    Forall (fun i => (i < Z.to_nat (sdmTest.p sdm))%nat) is_ ->
    length retrieved = Z.to_nat (sdmTest.n sdm) ->
    exists out,
      sdmTest.lookup_rows sdm addressVector is_ retrieved = Ok out
      /\ length out = Z.to_nat (sdmTest.n sdm)
      /\ forall j, (j < Z.to_nat (sdmTest.n sdm))%nat ->
           out !! j
           = Some (default 0 (retrieved !! j)
                   + Zsum (map (fun i => if in_radius_sdmTest sdm addressVector i
                                         then counter (sdmTest.data sdm) i j
                                         else 0)
                               is_)).
Proof.
  intros Hwf. induction is_ as [|i is_ IH]; intros retrieved His Hlen.
  - exists retrieved. split; [reflexivity|]. split; [exact Hlen|].
    intros j Hj. cbn [map]. change (Zsum []) with 0.
    destruct (lookup_lt_is_Some_2 retrieved j ltac:(lia)) as [r Hr].
    rewrite Hr. cbn [default from_option id]. f_equal. lia.
  - apply Forall_cons in His as [Hi His]. cbn [sdmTest.lookup_rows].
    destruct (Hwf i Hi) as [address [row [Haddr [Hal [Hrow Hm]]]]].
    rewrite (getitem_Some _ _ _ Haddr). cbn [bind].
    destruct (hamming_distance_indexed_total address addressVector Hal)
      as [h Hh].
    unfold sdmTest.hamming_distance. rewrite Hh. cbn [bind].
    assert (Hin : in_radius_sdmTest sdm addressVector i
                  = int_le_float h (sdmTest.radius sdm)).
    { unfold in_radius_sdmTest, sdmTest.hamming_distance.
      now rewrite Haddr, Hh. }
    destruct (int_le_float h (sdmTest.radius sdm)).
    + destruct (accumulate_seq i (sdmTest.data sdm) row Hrow
                  (Z.to_nat (sdmTest.n sdm)) 0 retrieved ltac:(lia) ltac:(lia))
        as [acc [Ha [Hal' Hap]]].
      rewrite Ha. cbn [bind].
      destruct (IH acc His ltac:(lia)) as [out [Ho [Hol Hop]]].
      exists out. split; [exact Ho|]. split; [exact Hol|].
      intros j Hj. rewrite (Hop j Hj). cbn [map]. rewrite Zsum_cons, Hin.
      rewrite Hap. destruct (lookup_lt_is_Some_2 retrieved j ltac:(lia)) as [r Hr].
      rewrite Hr. cbn [fmap option_fmap option_map default from_option id].
      unfold counter at 2. rewrite Hrow. f_equal.
      destruct (in_window 0 (Z.to_nat (sdmTest.n sdm)) j) eqn:E.
      * lia.
      * apply in_window_false in E. lia.
    + destruct (IH retrieved His Hlen) as [out [Ho [Hol Hop]]].
      exists out. split; [exact Ho|]. split; [exact Hol|].
      intros j Hj. rewrite (Hop j Hj). cbn [map]. rewrite Zsum_cons, Hin.
      f_equal; lia.
Qed.

(** The in-place conversion of the sums of the columns [k .. k+m-1]. *)
Lemma threshold_loop_seq :
  forall m k retrieved,
    (k + m <= length retrieved)%nat ->
    exists out,
      sdmTest.threshold_loop (seq k m) retrieved = Ok out
      /\ length out = length retrieved
      /\ forall j, out !! j
                   = (fun x => if in_window k m j then sdmTest.threshold x else x)
                       <$> retrieved !! j.
Proof.
  induction m as [|m IH]; intros k retrieved Hk.
  - exists retrieved. split; [reflexivity|]. split; [reflexivity|].
    intros j. destruct (retrieved !! j); cbn [fmap option_fmap option_map];
      [|reflexivity]. window.
  - cbn [seq sdmTest.threshold_loop].
    destruct (lookup_lt_is_Some_2 retrieved k ltac:(lia)) as [x Hx].
    rewrite (getitem_Some _ _ _ Hx). cbn [bind].
    destruct (IH (S k) (<[k := sdmTest.threshold x]> retrieved))
      as [out [H1 [H2 H3]]].
    { rewrite length_insert. lia. }
    exists out. split; [exact H1|]. split; [now rewrite H2, length_insert|].
    intros j. rewrite H3.
    destruct (Nat.eq_dec j k) as [->|Hne].
    + rewrite list_lookup_insert_eq by lia. rewrite Hx.
      cbn [fmap option_fmap option_map]. window.
    + rewrite list_lookup_insert_ne by lia.
      destruct (retrieved !! j); cbn [fmap option_fmap option_map];
        [|reflexivity]. window.
Qed.

(** [lookup] of sdmTest.py on well-shaped arrays. *)
Lemma sdmTest_lookup_spec (sdm : sdmTest.SDM) (addressVector : list Z) :
  well_shaped sdm addressVector ->
  exists out,
    sdmTest.lookup sdm addressVector = Ok out
    /\ length out = Z.to_nat (sdmTest.n sdm)
    /\ forall j, (j < Z.to_nat (sdmTest.n sdm))%nat ->
         out !! j
         = Some (sdmTest.threshold (accumulated_sum_sdmTest sdm addressVector j)).
Proof.
  intros Hwf. unfold sdmTest.lookup.
  destruct (sdmTest_lookup_rows_spec sdm addressVector Hwf
              (seq 0 (Z.to_nat (sdmTest.p sdm)))
              (repeat 0 (Z.to_nat (sdmTest.n sdm))) (Forall_seq_lt _)
              (repeat_length _ _)) as [sums [Hs [Hsl Hsp]]].
  rewrite Hs. cbn [bind].
  destruct (threshold_loop_seq (Z.to_nat (sdmTest.n sdm)) 0 sums ltac:(lia))
    as [out [Ho [Hol Hop]]].
  exists out. split; [exact Ho|]. split; [lia|].
  intros j Hj. rewrite Hop, (Hsp j Hj).
  cbn [fmap option_fmap option_map]. rewrite (lookup_repeat 0 _ j Hj).
  cbn [default from_option id]. unfold accumulated_sum_sdmTest.
  destruct (in_window 0 (Z.to_nat (sdmTest.n sdm)) j) eqn:E.
  - reflexivity.
  - apply in_window_false in E. lia.
Qed.

(** C4, as amended: [lookup] of compression_test.py outputs 1 at position
    j exactly when the accumulated sum of the in-radius counters there is
    strictly positive (a zero sum gives 0); [lookup] of sdmTest.py outputs
    1 exactly when that sum is non-negative (a zero sum gives 1). *)
Theorem lookup_thresholds (sdm : compression_test.SDM) (key_vector : list Z)
    (sdm_t : sdmTest.SDM) (addressVector : list Z)
    (Hcovers : covers sdm (length key_vector))
    (Hshape : well_shaped sdm_t addressVector) :
  (exists out,
     compression_test.lookup sdm key_vector = Ok out
     /\ length out = length key_vector
     /\ forall j, (j < length key_vector)%nat ->
          out !! j = Some (if accumulated_sum sdm key_vector j >? 0
                           then 1 else 0))
  /\ (exists out,
        sdmTest.lookup sdm_t addressVector = Ok out
        /\ length out = Z.to_nat (sdmTest.n sdm_t)
        /\ forall j, (j < Z.to_nat (sdmTest.n sdm_t))%nat ->
             out !! j = Some (if accumulated_sum_sdmTest sdm_t addressVector j >=? 0
                              then 1 else 0)).
Proof.
  split.
  - exact (lookup_spec sdm key_vector Hcovers).
  - exact (sdmTest_lookup_spec sdm_t addressVector Hshape).
Qed.


Lemma example_memory_covers : covers example_memory 4.
Proof.
  intros i Hi. cbn in Hi.
  destruct i as [|[|i]]; [| |lia]; eexists; (split; [reflexivity|cbn; lia]).
Qed.

Lemma example_memory_well_shaped :
  well_shaped example_memory_sdmTest [0; 1; 1; 0].
Proof.
  intros i Hi. cbn in Hi.
  destruct i as [|[|i]]; [| |lia]; do 2 eexists;
    (split; [reflexivity|split; [cbn; lia|split; [reflexivity|cbn; lia]]]).
Qed.

Lemma lookup_thresholds_witness :
  covers example_memory (length [0; 1; 1; 0])
  /\ well_shaped example_memory_sdmTest [0; 1; 1; 0]
  /\ (exists out,
        compression_test.lookup example_memory [0; 1; 1; 0] = Ok out
        /\ out !! 1%nat = Some 0)
  /\ (exists out,
        sdmTest.lookup example_memory_sdmTest [0; 1; 1; 0] = Ok out
        /\ out !! 1%nat = Some 1).
Proof.
  pose proof example_memory_covers as H1.
  pose proof example_memory_well_shaped as H2.
  split; [exact H1|]. split; [exact H2|].
  destruct (lookup_thresholds example_memory [0; 1; 1; 0]
              example_memory_sdmTest [0; 1; 1; 0] H1 H2)
    as [[out [Ho [_ Hp]]] [out' [Ho' [_ Hp']]]].
  split.
  - exists out. split; [exact Ho|]. exact (Hp 1%nat ltac:(cbn; lia)).
  - exists out'. split; [exact Ho'|]. exact (Hp' 1%nat ltac:(cbn; lia)).
Defined.

(** C4, as stated, fails on sdmTest.py: a freshly built memory has all
    sums zero, none of them strictly positive, and its [lookup] outputs
    1 at every position. *)
Lemma sdmTest_zero_sum_reads_one :
  exists sdm,
    sdmTest.SDM_init 1 2 [[0; 1]] = Ok sdm
    /\ sdmTest.lookup sdm [0; 1] = Ok [1; 1]
    /\ accumulated_sum_sdmTest sdm [0; 1] 0 = 0
    /\ accumulated_sum_sdmTest sdm [0; 1] 1 = 0
    /\ (0 >? 0) = false.
Proof.
  eexists. split; [vm_compute; reflexivity|].
  split; [vm_compute; reflexivity|].
  split; [vm_compute; reflexivity|].
  split; [vm_compute; reflexivity|reflexivity].
Qed.

(** ** Lemmas on the writes of sparse_malicious_memory.py *)


Lemma enter_cols_m_total (sdm : sparse_malicious_memory.SDM) (i : nat)
    (addrs : list (list Z)) (address : list Z) :
  sparse_malicious_memory.addresses sdm !! 0%nat = Some addrs ->
  addrs !! i = Some address ->
  forall m k data matrix row,
    data !! 0%nat = Some matrix -> matrix !! i = Some row ->
    (k + m <= length address)%nat -> (k + m <= length row)%nat ->
    exists row',
      sparse_malicious_memory.enter_cols sdm i (seq k m) data
      = Ok (<[0%nat := <[i := row']> matrix]> data)
      /\ length row' = length row.
Proof.
  intros Haddrs Haddr.
  induction m as [|m IH]; intros k data matrix row Hmat Hrow Ha Hr.
  - exists row. split; [|reflexivity]. cbn.
    now rewrite (list_insert_id matrix), (list_insert_id data).
  - cbn [seq sparse_malicious_memory.enter_cols].
    destruct (lookup_lt_is_Some_2 address k ltac:(lia)) as [bit Hbit].
    destruct (lookup_lt_is_Some_2 row k ltac:(lia)) as [c Hc].
    rewrite (getitem_Some _ _ _ Haddrs). cbn [bind].
    rewrite (getitem_Some _ _ _ Haddr). cbn [bind].
    rewrite (getitem_Some _ _ _ Hbit). cbn [bind].
    rewrite (getitem_Some _ _ _ Hmat). cbn [bind].
    rewrite (getitem_Some _ _ _ Hrow). cbn [bind].
    rewrite (getitem_Some _ _ _ Hc). cbn [bind].
    set (row1 := <[k := _]> row).
    assert (H0 : (0 < length data)%nat) by (eapply lookup_lt_Some; eauto).
    assert (Hi : (i < length matrix)%nat) by (eapply lookup_lt_Some; eauto).
    destruct (IH (S k) (<[0%nat := <[i := row1]> matrix]> data)
                (<[i := row1]> matrix) row1) as [row' [H1 H2]].
    { now apply list_lookup_insert_eq. }
    { now apply list_lookup_insert_eq. }
    { lia. }
    { unfold row1. rewrite length_insert. lia. }
    exists row'. split.
    + rewrite H1, !list_insert_insert_eq. reflexivity.
    + rewrite H2. unfold row1. now rewrite length_insert.
Qed.

Lemma enter_rows_m_total (sdm : sparse_malicious_memory.SDM)
    (addressVector : list Z) (addrs : list (list Z)) (shape : list nat) :
  sparse_malicious_memory.addresses sdm !! 0%nat = Some addrs ->
  forall is_ data matrix,
    data !! 0%nat = Some matrix -> length <$> matrix = shape ->
    Forall (fun i => exists address l,
                       addrs !! i = Some address /\ shape !! i = Some l
                       /\ (length address <= l)%nat) is_ ->
    exists data' matrix',
      sparse_malicious_memory.enter_rows sdm addressVector is_ data = Ok data'
      /\ data' !! 0%nat = Some matrix' /\ length <$> matrix' = shape.
Proof.
  intros Haddrs.
  induction is_ as [|i is_ IH]; intros data matrix Hmat Hshape His.
  - exists data, matrix. split; [reflexivity|]. split; assumption.
  - apply Forall_cons in His as [[address [l [Haddr [Hl Hal]]]] His].
    cbn [sparse_malicious_memory.enter_rows].
    rewrite (getitem_Some _ _ _ Haddrs). cbn [bind].
    rewrite (getitem_Some _ _ _ Haddr). cbn [bind].
    destruct (hamming_distance_indexed_total address
                (addressVector
                 ++ list_mul 0 (len address - len addressVector))) as [h Hh].
    { rewrite length_app. unfold list_mul, len. rewrite repeat_length. lia. }
    unfold sparse_malicious_memory.hamming_distance. rewrite Hh. cbn [bind].
    destruct (int_le_float h (sparse_malicious_memory.radius sdm)).
    + rewrite <- Hshape, list_lookup_fmap in Hl.
      destruct (matrix !! i) as [row|] eqn:Hrow; [|discriminate].
      cbn in Hl. injection Hl as <-.
      destruct (enter_cols_m_total sdm i addrs address Haddrs Haddr
                  (length address) 0 data matrix row Hmat Hrow
                  ltac:(lia) ltac:(lia)) as [row' [H1 H2]].
      rewrite H1. cbn [bind].
      assert (H0 : (0 < length data)%nat) by (eapply lookup_lt_Some; eauto).
      apply (IH _ (<[i := row']> matrix)).
      * now apply list_lookup_insert_eq.
      * rewrite list_fmap_insert, H2, <- Hshape. apply list_insert_id.
        now rewrite list_lookup_fmap, Hrow.
      * exact His.
    + now apply (IH data matrix).
Qed.

(** [enter] of sparse_malicious_memory.py succeeds whatever the length
    of the address vector. *)
Lemma enter_m_total (sdm : sparse_malicious_memory.SDM) (addressVector : list Z) :
  well_shaped_m sdm ->
  exists sdm',
    sparse_malicious_memory.enter sdm addressVector = Ok sdm'
    /\ sparse_malicious_memory.addresses sdm'
       = sparse_malicious_memory.addresses sdm.
Proof.
  intros [addrs [matrix [Haddrs [Hmat Hrows]]]].
  unfold sparse_malicious_memory.enter.
  rewrite (getitem_Some _ _ _ Haddrs). cbn [bind].
  destruct (enter_rows_m_total sdm addressVector addrs (length <$> matrix)
              Haddrs (seq 0 (length addrs))
              (sparse_malicious_memory.data sdm) matrix Hmat eq_refl)
    as [data' [matrix' [H1 _]]].
  { apply Forall_forall. intros i Hi. apply elem_of_seq in Hi.
    destruct (Hrows i ltac:(lia)) as [address [row [Ha [Hr Hle]]]].
    exists address, (length row). split; [exact Ha|]. split; [|exact Hle].
    now rewrite list_lookup_fmap, Hr. }
  rewrite H1. cbn [bind]. eexists. split; reflexivity.
Qed.

(** [enter] of compression_test.py succeeds whatever the key and its
    length, when the rows hold the data vector. *)
Lemma enter_total (sdm : SDM) (key_vector data_vector : list Z) :
  covers sdm (length data_vector) ->
  exists sdm',
    enter sdm key_vector data_vector = Ok sdm'
    /\ keys sdm' = keys sdm
    /\ length <$> data sdm' = length <$> data sdm.
Proof.
  intros Hcov. unfold enter.
  destruct (enter_rows_total (keys sdm) (radius sdm) key_vector data_vector
              (seq 0 (length (keys sdm))) (data sdm)) as [data' [H1 H2]].
  { apply Forall_forall. intros i Hi. apply elem_of_seq in Hi.
    split; [lia|]. destruct (Hcov i ltac:(lia)) as [row [Hrow Hle]].
    exists (length row). split; [|exact Hle].
    now rewrite list_lookup_fmap, Hrow. }
  rewrite H1. cbn [bind]. eexists. split; [reflexivity|].
  split; [reflexivity|exact H2].
Qed.

(** [lookup] with a key longer than the rows raises [IndexError] at the
    first address within the radius (and only there). *)
Lemma lookup_long_key (address row key_vector : list Z) (r : Z) :
  (length row < length key_vector)%nat ->
  hamming_distance address key_vector <= r ->
  lookup {| p := 1; n := len row; keys := [address]; data := [row];
            radius := r |} key_vector
  = Raise IndexError.
Proof.
  intros Hlen Hd. unfold lookup. cbn [keys length seq lookup_rows radius data].
  unfold getitem at 1. cbn [base.lookup list_lookup bind].
  apply Z.leb_le in Hd. rewrite Hd.
  rewrite (accumulate_short_row 0 [row] row eq_refl); [reflexivity|lia|lia|].
  rewrite repeat_length. lia.
Qed.


Lemma example_memory_m_well_shaped : well_shaped_m example_memory_m.
Proof.
  do 2 eexists. split; [reflexivity|]. split; [reflexivity|].
  intros i Hi. cbn in Hi.
  destruct i as [|[|i]]; [| |lia]; do 2 eexists;
    (split; [reflexivity|split; [reflexivity|cbn; lia]]).
Qed.

(** ** Evaluations *)

Example encode_data_in_range :
  encode_data [[1; -1]; [-128; 127]] = Ok [1; 255; 128; 127].
Proof. reflexivity. Qed.

Example encode_data_out_of_range :
  encode_data [[1; 128]; [-200]] = Raise (ValueError_vote_range 128).
Proof. reflexivity. Qed.

Example decode_odd_length :
  run_length_decode_packed [3; 0; 2] = Raise ValueError_odd_length.
Proof. reflexivity. Qed.

Example decode_invalid_value :
  run_length_decode_packed [3; 0; 2; 7] = Raise (ValueError_invalid_value 7).
Proof. reflexivity. Qed.

Example decode_zero_count :
  run_length_decode_packed [0; 1; 2; 0] = Ok [0; 0].
Proof. reflexivity. Qed.

Example chunk_zero_size :
  chunk_binary_data [1; 0; 1] 0 = Raise ZeroDivisionError.
Proof. reflexivity. Qed.

Example lookup_key_too_long :
  compression_test.lookup example_memory [0; 1; 1; 0; 1] = Raise IndexError.
Proof. reflexivity. Qed.

(** ** Lemmas on the splitting of a flat list into rows *)

Lemma slices_concat {A : Type} (rows : list (list A)) (k : nat) :
  Forall (fun row => length row = k) rows ->
  map (fun i => take k (drop (i * k) (concat rows))) (seq 0 (length rows))
  = rows.
Proof.
  induction 1 as [|row rows Hrow _ IH]; [reflexivity|].
  cbn [length seq map concat]. f_equal.
  - cbn [Nat.mul drop]. rewrite drop_0. rewrite <- Hrow. apply take_app_length.
  - etransitivity; [|exact IH]. rewrite <- fmap_S_seq.
    change (S <$> seq 0 (length rows)) with (map S (seq 0 (length rows))).
    rewrite map_map.
    apply map_ext. intros i. f_equal.
    replace (S i * k)%nat with (length row + i * k)%nat by lia.
    apply drop_app_add.
Qed.

Lemma range_step_exact (m k : nat) :
  (0 < k)%nat ->
  range_step (Z.of_nat (m * k)) (Z.of_nat k)
  = map (fun i => Z.of_nat i * Z.of_nat k) (seq 0 m).
Proof.
  intros Hk. unfold range_step, range.
  destruct (Z.ltb_spec (Z.of_nat k) 0); [lia|].
  replace ((Z.of_nat (m * k) + Z.of_nat k - 1) / Z.of_nat k) with (Z.of_nat m).
  - rewrite Nat2Z.id, map_map. reflexivity.
  - apply Z.div_unique with (r := Z.of_nat k - 1); [lia|nia].
Qed.

(** Splitting the concatenation of rows of one positive length gives the
    rows back. *)
Lemma chunks_of_concat {A : Type} (rows : list (list A)) (k : Z) :
  0 < k -> Forall (fun row => len row = k) rows ->
  chunks_of (concat rows) k = Ok rows.
Proof.
  intros Hk Hrows. unfold chunks_of.
  destruct (Z.eqb_spec k 0) as [|_]; [lia|]. f_equal.
  assert (Ek : k = Z.of_nat (Z.to_nat k)) by lia.
  revert Ek. generalize (Z.to_nat k). intros kn ->.
  assert (Hrows' : Forall (fun row => length row = kn) rows).
  { eapply Forall_impl; [exact Hrows|]. unfold len. intros row Hr. cbn beta in *. lia. }
  assert (Hlen : len (concat rows) = Z.of_nat (length rows * kn)).
  { unfold len. f_equal. clear Hrows. induction Hrows' as [|row rows Hr _ IH];
      [reflexivity|]. cbn [concat length]. rewrite length_app, IH, Hr. lia. }
  rewrite Hlen, range_step_exact by lia. rewrite map_map.
  rewrite <- (slices_concat rows kn Hrows') at 2.
  apply map_ext. intros i. unfold slice. f_equal; [|f_equal]; lia.
Qed.

(** ** Lemmas on the bit codec *)


Lemma file_to_binary_concat (byte_data : list Z) :
  file_to_binary byte_data = concat (map byte_bits byte_data).
Proof.
  unfold file_to_binary. apply flat_map_concat_map.
Qed.

Lemma binary_to_file_loop_groups (binary_array : list Z) (is_ : list Z) :
  forall byte_data,
    binary_to_file_loop binary_array is_ byte_data
    = pack_groups (map (fun i => slice binary_array i (i + 8)) is_) byte_data.
Proof.
  induction is_ as [|i is_ IH]; intros byte_data; [reflexivity|].
  cbn [binary_to_file_loop map pack_groups]. now rewrite IH.
Qed.

Lemma binary_to_file_groups (rows : list (list Z)) :
  Forall (fun row => len row = 8) rows ->
  binary_to_file (concat rows) = pack_groups rows [].
Proof.
  intros Hrows. unfold binary_to_file. rewrite binary_to_file_loop_groups.
  pose proof (chunks_of_concat rows 8 ltac:(lia) Hrows) as H.
  unfold chunks_of in H. cbn [Z.eqb] in H. injection H as ->. reflexivity.
Qed.

Lemma pack_byte_bits_all :
  forallb (fun b => pack_bits (byte_bits b) =? b) (range 256) = true.
Proof. vm_compute. reflexivity. Qed.

Lemma pack_byte_bits (b : Z) : is_byte b -> pack_bits (byte_bits b) = b.
Proof.
  intros Hb. pose proof pack_byte_bits_all as H.
  rewrite forallb_forall in H. apply Z.eqb_eq, H.
  unfold range. apply in_map_iff. exists (Z.to_nat b).
  unfold is_byte in Hb. split; [lia|]. apply in_seq. lia.
Qed.

Lemma byte_bits_are_bits (b : Z) : Forall is_bit (byte_bits b).
Proof.
  unfold byte_bits. apply Forall_map, Forall_forall. intros i _. cbn beta.
  change 1 with (Z.ones 1). rewrite Z.land_ones by lia.
  unfold is_bit. pose proof (Z.mod_pos_bound (Z.shiftr b i) (2 ^ 1) ltac:(lia)).
  change (2 ^ 1) with 2 in *. lia.
Qed.

Lemma pack_groups_bytes (byte_data : list Z) :
  forall acc, Forall is_byte byte_data ->
    pack_groups (map byte_bits byte_data) acc = Ok (acc ++ byte_data).
Proof.
  induction byte_data as [|b bs IH]; intros acc Hb.
  - cbn. now rewrite app_nil_r.
  - apply Forall_cons in Hb as [Hb Hbs]. cbn [map pack_groups].
    rewrite (pack_byte_bits b Hb). unfold is_byte in Hb.
    destruct (Z.leb_spec 0 b); [|lia]. destruct (Z.leb_spec b 255); [|lia].
    cbn [andb]. rewrite IH by assumption. now rewrite <- app_assoc.
Qed.

(** X1: the bits of a file are eight per byte, and writing them back
    gives the bytes of the file. *)
Theorem bytes_bits_round_trip (byte_data : list Z)
    (Hbytes : Forall is_byte byte_data) :
  binary_to_file (file_to_binary byte_data) = Ok byte_data
  /\ len (file_to_binary byte_data) = 8 * len byte_data
  /\ Forall is_bit (file_to_binary byte_data).
Proof.
  rewrite file_to_binary_concat. split; [|split].
  - rewrite binary_to_file_groups.
    + now apply pack_groups_bytes.
    + apply Forall_map, Forall_forall. intros b _. reflexivity.
  - unfold len. clear Hbytes. induction byte_data as [|b bs IH]; [reflexivity|].
    cbn [map concat length]. rewrite length_app. cbn [byte_bits map length]. lia.
  - clear Hbytes. induction byte_data as [|b bs IH]; [constructor|].
    cbn [map concat]. apply Forall_app. split; [apply byte_bits_are_bits|exact IH].
Qed.

Lemma bytes_bits_round_trip_witness :
  Forall is_byte [72; 105; 0; 255]
  /\ binary_to_file (file_to_binary [72; 105; 0; 255]) = Ok [72; 105; 0; 255].
Proof.
  assert (H : Forall is_byte [72; 105; 0; 255]).
  { repeat constructor; unfold is_byte; lia. }
  split; [exact H|]. exact (proj1 (bytes_bits_round_trip _ H)).
Defined.

Lemma lor_shiftl_bit (a bit : Z) :
  is_bit bit -> Z.lor (Z.shiftl a 1) bit = 2 * a + bit.
Proof.
  intros Hbit. rewrite Z.shiftl_mul_pow2 by lia. change (2 ^ 1) with 2.
  destruct Hbit as [-> | ->]; [rewrite Z.lor_0_r; lia|].
  assert (Hl : Z.land (a * 2) (Z.ones 1) = 0).
  { rewrite Z.land_ones by lia. change (2 ^ 1) with 2. apply Z.mod_mul. lia. }
  change (Z.ones 1) with 1 in Hl.
  rewrite <- Z.lxor_lor by exact Hl. rewrite <- Z.add_nocarry_lxor by exact Hl.
  lia.
Qed.

Lemma fold_pack_bits (group : list Z) :
  forall acc, Forall is_bit group -> 0 <= acc ->
    let v := fold_left (fun byte bit => Z.lor (Z.shiftl byte 1) bit) group acc in
    acc * 2 ^ len group <= v < (acc + 1) * 2 ^ len group.
Proof.
  unfold len. induction group as [|bit group IH]; intros acc Hg Hacc; cbn zeta.
  - cbn. lia.
  - apply Forall_cons in Hg as [Hbit Hg]. cbn [fold_left length].
    rewrite lor_shiftl_bit by assumption.
    specialize (IH (2 * acc + bit) Hg). cbn zeta in IH.
    assert (H2 : 2 ^ Z.of_nat (S (length group)) = 2 * 2 ^ Z.of_nat (length group)).
    { rewrite Nat2Z.inj_succ, Z.pow_succ_r by lia. reflexivity. }
    rewrite H2. pose proof (Z.pow_pos_nonneg 2 (Z.of_nat (length group))).
    destruct Hbit as [-> | ->]; nia.
Qed.

(** The value of a group of bits fits as many bits as the group has. *)
Lemma pack_bits_bound (group : list Z) :
  Forall is_bit group -> 0 <= pack_bits group < 2 ^ len group.
Proof.
  intros Hg. pose proof (fold_pack_bits group 0 Hg ltac:(lia)) as H.
  cbn zeta in H. unfold pack_bits. lia.
Qed.

Lemma pack_bits_byte (group : list Z) :
  Forall is_bit group -> len group <= 8 -> is_byte (pack_bits group).
Proof.
  intros Hg Hlen. pose proof (pack_bits_bound group Hg) as H.
  assert (2 ^ len group <= 2 ^ 8) by (apply Z.pow_le_mono_r; unfold len in *; lia).
  unfold is_byte. change (2 ^ 8) with 256 in *. lia.
Qed.

Lemma byte_bits_pack (group : list Z) :
  Forall is_bit group -> length group = 8%nat ->
  byte_bits (pack_bits group) = group.
Proof.
  intros Hg Hlen.
  do 8 (destruct group as [|? group]; [discriminate|]).
  destruct group; [|discriminate].
  repeat match goal with
         | H : Forall is_bit (_ :: _) |- _ => apply Forall_cons in H as [[-> | ->] H]
         end; reflexivity.
Qed.

Lemma pack_groups_bits (rows : list (list Z)) :
  forall acc,
    Forall (fun row => Forall is_bit row /\ len row <= 8) rows ->
    pack_groups rows acc = Ok (acc ++ map pack_bits rows).
Proof.
  induction rows as [|row rows IH]; intros acc Hrows.
  - cbn. now rewrite app_nil_r.
  - apply Forall_cons in Hrows as [[Hbits Hlen] Hrows]. cbn [pack_groups map].
    pose proof (pack_bits_byte row Hbits Hlen) as Hb. unfold is_byte in Hb.
    destruct (Z.leb_spec 0 (pack_bits row)); [|lia].
    destruct (Z.leb_spec (pack_bits row) 255); [|lia]. cbn [andb].
    rewrite IH by assumption. now rewrite <- app_assoc.
Qed.

Lemma groups_of_eight (m : nat) :
  forall l : list Z,
    length l = (8 * m)%nat ->
    exists rows, l = concat rows /\ Forall (fun row => length row = 8%nat) rows
                 /\ length rows = m.
Proof.
  induction m as [|m IH]; intros l Hl.
  - exists []. destruct l; [|discriminate]. repeat split; constructor.
  - destruct (IH (drop 8 l)) as [rows [H1 [H2 H3]]].
    { rewrite length_drop. lia. }
    exists (take 8 l :: rows). split; [|split].
    + cbn [concat]. rewrite <- H1. now rewrite take_drop.
    + constructor; [|exact H2]. rewrite length_take. lia.
    + cbn. now rewrite H3.
Qed.

Lemma Forall_concat_inv {A : Type} (P : A -> Prop) (rows : list (list A)) :
  Forall P (concat rows) -> Forall (Forall P) rows.
Proof.
  induction rows as [|row rows IH]; intros H; [constructor|].
  cbn [concat] in H. apply Forall_app in H as [H1 H2]. constructor; auto.
Qed.

(** X2: a list of bits whose length is a multiple of 8 is written as
    one byte per group of eight, and reading these bytes gives the bits
    back. *)
Theorem bits_bytes_round_trip (binary_array : list Z)
    (Hbits : Forall is_bit binary_array)
    (Hlen : len binary_array mod 8 = 0) :
  exists byte_data,
    binary_to_file binary_array = Ok byte_data
    /\ Forall is_byte byte_data
    /\ 8 * len byte_data = len binary_array
    /\ file_to_binary byte_data = binary_array.
Proof.
  unfold len in Hlen.
  destruct (groups_of_eight (length binary_array / 8) binary_array)
    as [rows [-> [Hrows Hm]]].
  { pose proof (Nat.div_mod_eq (length binary_array) 8).
    assert ((length binary_array mod 8)%nat = 0%nat); [|lia].
    apply Nat2Z.inj. rewrite Nat2Z.inj_mod. exact Hlen. }
  assert (Hrb : Forall (fun row => Forall is_bit row /\ len row <= 8) rows).
  { apply Forall_forall. intros row Hin. split.
    - apply Forall_concat_inv in Hbits. rewrite Forall_forall in Hbits.
      now apply Hbits.
    - rewrite Forall_forall in Hrows. unfold len. rewrite (Hrows row Hin). lia. }
  exists (map pack_bits rows). split; [|split; [|split]].
  - rewrite binary_to_file_groups.
    + now rewrite pack_groups_bits.
    + eapply Forall_impl; [exact Hrows|]. intros row Hr. unfold len. cbn beta in *. lia.
  - apply Forall_map. eapply Forall_impl; [exact Hrb|].
    intros row [H1 H2]. now apply pack_bits_byte.
  - unfold len. rewrite length_map. clear Hbits Hlen Hm Hrb.
    induction Hrows as [|row rows Hr _ IH]; [reflexivity|].
    cbn [concat length]. rewrite length_app. lia.
  - rewrite file_to_binary_concat, map_map. f_equal.
    clear Hbits Hlen Hm. induction Hrows as [|row rows Hr _ IH]; [reflexivity|].
    apply Forall_cons in Hrb as [[Hb _] Hrb]. cbn [map].
    rewrite byte_bits_pack by assumption. f_equal. now apply IH.
Qed.

Lemma bits_bytes_round_trip_witness :
  Forall is_bit [0; 1; 0; 0; 1; 0; 0; 0; 1; 1; 1; 1; 1; 1; 1; 1]
  /\ len [0; 1; 0; 0; 1; 0; 0; 0; 1; 1; 1; 1; 1; 1; 1; 1] mod 8 = 0
  /\ exists byte_data,
       binary_to_file [0; 1; 0; 0; 1; 0; 0; 0; 1; 1; 1; 1; 1; 1; 1; 1]
       = Ok byte_data
       /\ file_to_binary byte_data
          = [0; 1; 0; 0; 1; 0; 0; 0; 1; 1; 1; 1; 1; 1; 1; 1].
Proof.
  assert (H1 : Forall is_bit [0; 1; 0; 0; 1; 0; 0; 0; 1; 1; 1; 1; 1; 1; 1; 1]).
  { repeat constructor; unfold is_bit; lia. }
  assert (H2 : len [0; 1; 0; 0; 1; 0; 0; 0; 1; 1; 1; 1; 1; 1; 1; 1] mod 8 = 0)
    by reflexivity.
  split; [exact H1|]. split; [exact H2|].
  destruct (bits_bytes_round_trip _ H1 H2) as [byte_data [Hw [_ [_ Hr]]]].
  exists byte_data. split; assumption.
Defined.

Lemma slices_concat_tail {A : Type} (rows : list (list A)) (tail : list A)
    (k : nat) :
  Forall (fun row => length row = k) rows -> (length tail <= k)%nat ->
  map (fun i => take k (drop (i * k) (concat rows ++ tail)))
      (seq 0 (S (length rows)))
  = rows ++ [tail].
Proof.
  intros Hrows Htail. induction Hrows as [|row rows Hrow _ IH].
  - cbn [length seq map concat app Nat.mul]. rewrite drop_0.
    now rewrite take_ge by lia.
  - cbn [length]. rewrite <- cons_seq. cbn [map concat app]. f_equal.
    + cbn [Nat.mul]. rewrite drop_0, <- app_assoc, <- Hrow. apply take_app_length.
    + etransitivity; [|exact IH]. rewrite <- fmap_S_seq.
      change (S <$> seq 0 (S (length rows)))
        with (map S (seq 0 (S (length rows)))).
      rewrite map_map. apply map_ext. intros i. f_equal.
      replace (S i * k)%nat with (length row + i * k)%nat by lia.
      rewrite <- app_assoc. apply drop_app_add.
Qed.

Lemma range_step_partial (m k t : nat) :
  (0 < t < k)%nat ->
  range_step (Z.of_nat (m * k + t)) (Z.of_nat k)
  = map (fun i => Z.of_nat i * Z.of_nat k) (seq 0 (S m)).
Proof.
  intros Ht. unfold range_step, range.
  destruct (Z.ltb_spec (Z.of_nat k) 0); [lia|].
  replace ((Z.of_nat (m * k + t) + Z.of_nat k - 1) / Z.of_nat k)
    with (Z.of_nat (S m)).
  - rewrite Nat2Z.id, map_map. reflexivity.
  - apply Z.div_unique with (r := Z.of_nat t - 1); [lia|nia].
Qed.

(** Splitting rows of one length followed by a shorter, non-empty tail
    gives the rows and the tail. *)
Lemma chunks_of_concat_tail {A : Type} (rows : list (list A)) (tail : list A)
    (k : Z) :
  Forall (fun row => len row = k) rows -> 0 < len tail < k ->
  chunks_of (concat rows ++ tail) k = Ok (rows ++ [tail]).
Proof.
  intros Hrows Htail. unfold chunks_of.
  destruct (Z.eqb_spec k 0) as [|_]; [lia|]. f_equal.
  assert (Ek : k = Z.of_nat (Z.to_nat k)) by lia.
  revert Ek. generalize (Z.to_nat k). intros kn ->.
  assert (Hrows' : Forall (fun row => length row = kn) rows).
  { eapply Forall_impl; [exact Hrows|]. unfold len. intros row Hr. cbn beta in *. lia. }
  assert (Hlen : len (concat rows ++ tail)
                 = Z.of_nat (length rows * kn + length tail)).
  { unfold len. f_equal. rewrite length_app. f_equal. clear Hrows.
    induction Hrows' as [|row rows Hr _ IH]; [reflexivity|].
    cbn [concat length]. rewrite length_app, IH, Hr. lia. }
  unfold len in Htail.
  rewrite Hlen, range_step_partial by lia. rewrite map_map.
  rewrite <- (slices_concat_tail rows tail kn Hrows') by lia.
  apply map_ext. intros i. unfold slice. f_equal; [|f_equal]; lia.
Qed.

(** X3: when the number of bits is not a multiple of 8, the bits left
    after the full groups are written as one more byte, whose value is
    these bits read as a binary number: the group is not padded with
    zeros on the right. *)
Theorem binary_to_file_partial_group (binary_array : list Z)
    (Hbits : Forall is_bit binary_array)
    (Hrest : 0 < len binary_array mod 8) :
  let full := (8 * (length binary_array / 8))%nat in
  exists byte_data,
    binary_to_file (take full binary_array) = Ok byte_data
    /\ binary_to_file binary_array
       = Ok (byte_data ++ [pack_bits (drop full binary_array)])
    /\ len (drop full binary_array) = len binary_array mod 8
    /\ 0 <= pack_bits (drop full binary_array) < 2 ^ (len binary_array mod 8).
Proof.
  cbn zeta. set (full := (8 * (length binary_array / 8))%nat).
  unfold len in Hrest. change 8 with (Z.of_nat 8) in Hrest.
  rewrite <- Nat2Z.inj_mod in Hrest.
  pose proof (Nat.div_mod_eq (length binary_array) 8) as Hdm.
  pose proof (Nat.mod_upper_bound (length binary_array) 8 ltac:(lia)) as Hub.
  assert (Htl : length (drop full binary_array) = (length binary_array mod 8)%nat).
  { rewrite length_drop. unfold full. lia. }
  destruct (groups_of_eight (length binary_array / 8) (take full binary_array))
    as [rows [Hfull [Hrows Hm]]].
  { rewrite length_take. unfold full. lia. }
  apply Forall_take with (n := full) in Hbits as Hbf.
  apply Forall_drop with (n := full) in Hbits as Hbt.
  rewrite Hfull in Hbf.
  assert (Hrb : Forall (fun row => Forall is_bit row /\ len row <= 8) rows).
  { apply Forall_concat_inv in Hbf. rewrite Forall_forall in Hbf, Hrows.
    apply Forall_forall. intros row Hin. split; [now apply Hbf|].
    unfold len. rewrite (Hrows row Hin). lia. }
  assert (Hrows8 : Forall (fun row => len row = 8) rows).
  { eapply Forall_impl; [exact Hrows|]. intros row Hr. unfold len. cbn beta in *. lia. }
  exists (map pack_bits rows). split; [|split; [|split]].
  - rewrite Hfull, binary_to_file_groups by assumption.
    now rewrite pack_groups_bits.
  - rewrite <- (take_drop full binary_array) at 1. rewrite Hfull.
    unfold binary_to_file. rewrite binary_to_file_loop_groups.
    pose proof (chunks_of_concat_tail rows (drop full binary_array) 8 Hrows8)
      as Hc.
    unfold chunks_of in Hc. cbn [Z.eqb] in Hc.
    specialize (Hc ltac:(unfold len; lia)). injection Hc as ->.
    rewrite pack_groups_bits.
    + now rewrite map_app.
    + apply Forall_app. split; [exact Hrb|]. constructor; [|constructor].
      split; [exact Hbt|]. unfold len. lia.
  - unfold len. rewrite Htl. apply Nat2Z.inj_mod.
  - pose proof (pack_bits_bound _ Hbt) as Hb. unfold len in *.
    rewrite Htl, Nat2Z.inj_mod in Hb. exact Hb.
Qed.

Lemma binary_to_file_partial_group_witness :
  Forall is_bit [1; 1; 1; 1; 1; 1; 1; 1; 1; 0; 1]
  /\ 0 < len [1; 1; 1; 1; 1; 1; 1; 1; 1; 0; 1] mod 8
  /\ binary_to_file [1; 1; 1; 1; 1; 1; 1; 1; 1; 0; 1] = Ok [255; 5].
Proof.
  assert (H1 : Forall is_bit [1; 1; 1; 1; 1; 1; 1; 1; 1; 0; 1]).
  { repeat constructor; unfold is_bit; lia. }
  assert (H2 : 0 < len [1; 1; 1; 1; 1; 1; 1; 1; 1; 0; 1] mod 8) by reflexivity.
  split; [exact H1|]. split; [exact H2|].
  destruct (binary_to_file_partial_group _ H1 H2) as [byte_data [Hf [Hw _]]].
  vm_compute in Hf. injection Hf as <-. rewrite Hw. reflexivity.
Defined.

(** ** More on the Hamming distances *)

Lemma hamming_distance_nil_l (b : list Z) : hamming_distance [] b = 0.
Proof. reflexivity. Qed.

Lemma hamming_distance_nil_r (a : list Z) : hamming_distance a [] = 0.
Proof. destruct a; reflexivity. Qed.

Lemma hamming_distance_sym (a : list Z) :
  forall b, hamming_distance a b = hamming_distance b a.
Proof.
  induction a as [|x a IH]; intros [|y b]; try reflexivity.
  rewrite !hamming_distance_cons, IH, (Z.eqb_sym x y). reflexivity.
Qed.

Lemma hamming_distance_zero (a : list Z) :
  forall b, length a = length b -> hamming_distance a b = 0 -> a = b.
Proof.
  induction a as [|x a IH]; intros [|y b] Hlen Hd; try discriminate;
    [reflexivity|].
  rewrite hamming_distance_cons in Hd.
  pose proof (hamming_distance_bound a b).
  destruct (Z.eqb_spec x y) as [->|]; [|lia].
  cbn [length] in Hlen. f_equal. apply IH; lia.
Qed.

Lemma hamming_distance_triangle (a : list Z) :
  forall b c, length a = length b -> length b = length c ->
    hamming_distance a c <= hamming_distance a b + hamming_distance b c.
Proof.
  induction a as [|x a IH]; intros [|y b] [|z c] Hab Hbc;
    try (cbn in Hab, Hbc; lia).
  - rewrite !hamming_distance_nil_l. lia.
  - rewrite !hamming_distance_cons.
    cbn [length] in Hab, Hbc.
    specialize (IH b c ltac:(lia) ltac:(lia)).
    destruct (Z.eqb_spec x z), (Z.eqb_spec x y), (Z.eqb_spec y z); lia.
Qed.

(** X4: on vectors of one length the distance of compression_test.py is
    a metric: zero exactly between equal vectors, symmetric, and
    satisfying the triangle inequality; it never exceeds the length. *)
Theorem hamming_distance_metric (a b c : list Z)
    (Hab : length a = length b) (Hbc : length b = length c) :
  (hamming_distance a b = 0 <-> a = b)
  /\ hamming_distance a b = hamming_distance b a
  /\ hamming_distance a c <= hamming_distance a b + hamming_distance b c
  /\ 0 <= hamming_distance a b <= len a.
Proof.
  split; [split|split; [|split]].
  - now apply hamming_distance_zero.
  - intros ->. apply hamming_distance_self.
  - apply hamming_distance_sym.
  - now apply hamming_distance_triangle.
  - pose proof (hamming_distance_bound a b). lia.
Qed.

Lemma hamming_distance_metric_witness :
  length [0; 1; 1] = length [1; 1; 0] /\ length [1; 1; 0] = length [1; 0; 0]
  /\ hamming_distance [0; 1; 1] [1; 0; 0]
     <= hamming_distance [0; 1; 1] [1; 1; 0] + hamming_distance [1; 1; 0] [1; 0; 0].
Proof.
  assert (H1 : length [0; 1; 1] = length [1; 1; 0]) by reflexivity.
  assert (H2 : length [1; 1; 0] = length [1; 0; 0]) by reflexivity.
  split; [exact H1|]. split; [exact H2|].
  exact (proj1 (proj2 (proj2 (hamming_distance_metric _ _ _ H1 H2)))).
Defined.

Lemma hamming_loop_shift (x y : Z) (vector1 vector2 : list Z) :
  forall m k distance,
    hamming_loop (x :: vector1) (y :: vector2) (seq (S k) m) distance
    = hamming_loop vector1 vector2 (seq k m) distance.
Proof.
  induction m as [|m IH]; intros k distance; [reflexivity|].
  cbn [seq hamming_loop]. unfold getitem. rewrite !lookup_cons.
  destruct (vector1 !! k); cbn [bind]; [|reflexivity].
  destruct (vector2 !! k); cbn [bind]; [|reflexivity].
  apply IH.
Qed.

Lemma hamming_loop_zip (vector1 : list Z) :
  forall vector2 distance,
    hamming_loop vector1 vector2 (seq 0 (length vector1)) distance
    = if (length vector1 <=? length vector2)%nat
      then Ok (distance + hamming_distance vector1 vector2)
      else Raise IndexError.
Proof.
  induction vector1 as [|x v1 IH]; intros vector2 distance.
  - cbn [length seq hamming_loop Nat.leb]. rewrite hamming_distance_nil_l.
    f_equal. lia.
  - cbn [length seq hamming_loop]. unfold getitem at 1.
    rewrite lookup_cons. cbn [bind].
    destruct vector2 as [|y v2].
    + reflexivity.
    + unfold getitem at 1. rewrite lookup_cons. cbn [bind].
      rewrite hamming_loop_shift, IH. cbn [length].
      change (S (length v1) <=? S (length v2))%nat
        with (length v1 <=? length v2)%nat.
      destruct (length v1 <=? length v2)%nat; [|reflexivity].
      rewrite hamming_distance_cons. f_equal. destruct (x =? y); lia.
Qed.

(** X5: the index-based distance of sdmTest.py and
    sparse_malicious_memory.py raises [IndexError] exactly when its second
    vector is shorter than the first, and is otherwise the distance of
    compression_test.py, taken over the length of the first vector. *)
Theorem hamming_distance_indexed_spec (vector1 vector2 : list Z) :
  ((length vector1 <= length vector2)%nat ->
   hamming_distance_indexed vector1 vector2
   = Ok (hamming_distance vector1 vector2))
  /\ ((length vector2 < length vector1)%nat ->
      hamming_distance_indexed vector1 vector2 = Raise IndexError)
  /\ ((exists e, hamming_distance_indexed vector1 vector2 = Raise e)
      <-> (length vector2 < length vector1)%nat).
Proof.
  unfold hamming_distance_indexed. rewrite hamming_loop_zip.
  destruct (Nat.leb_spec (length vector1) (length vector2)).
  - split; [intros _; f_equal; lia|]. split; [lia|].
    split; [intros [e He]; discriminate|lia].
  - split; [lia|]. split; [reflexivity|]. split; [intros _; assumption|eauto].
Qed.

(** ** More on the run-length coder *)

Lemma expand_pairs_snoc (ps : list (Z * Z)) (c v : Z) :
  expand_pairs (ps ++ [(c, v)]) = expand_pairs ps ++ list_mul v c.
Proof.
  unfold expand_pairs. rewrite flat_map_app. cbn [flat_map fst snd].
  now rewrite app_nil_r.
Qed.

(** The invariant of the encoding loop for arbitrary values: the pairs
    emitted, the pending run and the unread values make up the input, and
    every emitted count is between 1 and 255. *)
Lemma rle_loop_expand (rest : list Z) :
  forall enc cv c,
    Nat.even (length enc) = true -> 1 <= c <= 255 ->
    Forall (fun p => 1 <= fst p <= 255) (to_pairs enc) ->
    Nat.even (length (rle_loop rest enc cv c)) = true
    /\ Forall (fun p => 1 <= fst p <= 255) (to_pairs (rle_loop rest enc cv c))
    /\ expand_pairs (to_pairs (rle_loop rest enc cv c))
       = expand_pairs (to_pairs enc) ++ list_mul cv c ++ rest.
Proof.
  assert (Hsnoc : forall enc cv c,
    Nat.even (length enc) = true -> 1 <= c <= 255 ->
    Forall (fun p => 1 <= fst p <= 255) (to_pairs enc) ->
    Nat.even (length (enc ++ [c; cv])) = true
    /\ Forall (fun p => 1 <= fst p <= 255) (to_pairs (enc ++ [c; cv]))
    /\ expand_pairs (to_pairs (enc ++ [c; cv]))
       = expand_pairs (to_pairs enc) ++ list_mul cv c).
  { intros enc cv c Hev Hc HF. rewrite even_length_snoc, to_pairs_snoc by assumption.
    split; [assumption|]. split; [|apply expand_pairs_snoc].
    apply Forall_app. split; [assumption|]. constructor; [exact Hc|constructor]. }
  induction rest as [|val rest IH]; intros enc cv c Hev Hc HF.
  - cbn [rle_loop]. rewrite app_nil_r. now apply Hsnoc.
  - cbn [rle_loop]. destruct (Hsnoc enc cv c Hev Hc HF) as [S1 [S2 S3]].
    destruct (Z.eqb_spec val cv) as [->|Hne].
    + destruct (Z.ltb_spec c 255).
      * destruct (IH enc cv (c + 1) Hev ltac:(lia) HF) as [H1 [H2 H3]].
        split; [exact H1|]. split; [exact H2|]. rewrite H3.
        rewrite list_mul_succ by lia. now rewrite <- !app_assoc.
      * destruct (IH (enc ++ [c; cv]) cv 1 S1 ltac:(lia) S2) as [H1 [H2 H3]].
        split; [exact H1|]. split; [exact H2|]. rewrite H3, S3.
        now rewrite <- !app_assoc.
    + destruct (IH (enc ++ [c; cv]) val 1 S1 ltac:(lia) S2) as [H1 [H2 H3]].
      split; [exact H1|]. split; [exact H2|]. rewrite H3, S3.
      now rewrite <- !app_assoc.
Qed.

Lemma rle_expand (bits : list Z) :
  Nat.even (length (run_length_encode_packed bits)) = true
  /\ Forall (fun p => 1 <= fst p <= 255)
            (to_pairs (run_length_encode_packed bits))
  /\ expand_pairs (to_pairs (run_length_encode_packed bits)) = bits.
Proof.
  destruct bits as [|b rest].
  - split; [reflexivity|]. split; [constructor|reflexivity].
  - cbn [run_length_encode_packed].
    destruct (rle_loop_expand rest [] b 1 eq_refl ltac:(lia) ltac:(constructor))
      as [H1 [H2 H3]].
    split; [exact H1|]. split; [exact H2|]. rewrite H3. reflexivity.
Qed.

(** X6: the encoder is lossless on lists of arbitrary integers: its
    output is a flat list of pairs with counts between 1 and 255 whose
    expansion is the input (only the decoder restricts the values). *)
Theorem rle_encode_lossless (bits : list Z) :
  Nat.Even (length (run_length_encode_packed bits))
  /\ Forall (fun p => 1 <= fst p <= 255)
            (to_pairs (run_length_encode_packed bits))
  /\ expand_pairs (to_pairs (run_length_encode_packed bits)) = bits.
Proof.
  destruct (rle_expand bits) as [H1 [H2 H3]].
  split; [now apply Nat.even_spec|]. split; assumption.
Qed.

Lemma expand_pairs_values (ps : list (Z * Z)) (v : Z) :
  v ∈ expand_pairs ps -> exists c, (c, v) ∈ ps.
Proof.
  induction ps as [|[c w] ps IH]; intros Hin.
  - inversion Hin.
  - unfold expand_pairs in Hin. cbn [flat_map fst snd] in Hin.
    apply elem_of_app in Hin as [Hin|Hin].
    + unfold list_mul in Hin. apply list_elem_of_In, repeat_spec in Hin.
      subst w. exists c. left.
    + destruct (IH Hin) as [c' Hc']. exists c'. now right.
Qed.

(** X7: when the input holds a value that is not a bit, decoding its
    encoding raises the invalid-value [ValueError]: such inputs are
    encoded but cannot be read back. *)
Theorem rle_round_trip_rejects_non_bits (bits : list Z)
    (Hbad : Exists (fun v => ~ is_bit v) bits) :
  exists v,
    ~ is_bit v
    /\ run_length_decode_packed (run_length_encode_packed bits)
       = Raise (ValueError_invalid_value v).
Proof.
  destruct (rle_expand bits) as [Hev [_ Hexp]].
  destruct (decode_loop_spec (run_length_encode_packed bits) [] Hev)
    as [_ Herr].
  unfold run_length_decode_packed. rewrite len_mod2_even, Hev. cbn [negb].
  apply Herr. apply Exists_exists in Hbad as [v [Hin Hv]].
  rewrite <- Hexp in Hin. destruct (expand_pairs_values _ _ Hin) as [c Hc].
  apply Exists_exists. exists (c, v). split; [exact Hc|exact Hv].
Qed.

Lemma rle_round_trip_rejects_non_bits_witness :
  Exists (fun v => ~ is_bit v) [0; 0; 7; 1]
  /\ run_length_decode_packed (run_length_encode_packed [0; 0; 7; 1])
     = Raise (ValueError_invalid_value 7).
Proof.
  assert (H : Exists (fun v => ~ is_bit v) [0; 0; 7; 1]).
  { right. right. left. unfold is_bit. lia. }
  split; [exact H|].
  destruct (rle_round_trip_rejects_non_bits _ H) as [v [_ Hv]].
  vm_compute in Hv. injection Hv as <-. reflexivity.
Defined.

(** ** The bundle read back by the loader *)

Lemma decode_loop_app (enc1 enc2 : list Z) :
  forall acc d,
    decode_loop enc1 acc = Ok d ->
    decode_loop (enc1 ++ enc2) acc = decode_loop enc2 d.
Proof.
  induction enc1 as [| x | x y l IH] using list_pair_ind; intros acc d Hd.
  - cbn in Hd. now injection Hd as <-.
  - discriminate.
  - cbn [app decode_loop] in *.
    destruct ((0 <=? y) && (y <=? 1)); [|discriminate]. now apply IH.
Qed.

Lemma decode_loop_rle (key : list Z) (acc : list Z) :
  Forall is_bit key ->
  decode_loop (run_length_encode_packed key) acc = Ok (acc ++ key).
Proof.
  intros Hkey. destruct (rle_pairs key Hkey) as [Hev Hpairs].
  destruct (decode_loop_spec (run_length_encode_packed key) acc Hev) as [Hok _].
  rewrite Hok.
  - destruct (rle_expand key) as [_ [_ ->]]. reflexivity.
  - eapply Forall_impl; [exact Hpairs|]. intros cv [_ Hv]. exact Hv.
Qed.

Lemma decode_loop_rle_keys (keys : list (list Z)) :
  forall acc, Forall (Forall is_bit) keys ->
    decode_loop (concat (map run_length_encode_packed keys)) acc
    = Ok (acc ++ concat keys).
Proof.
  induction keys as [|key keys IH]; intros acc Hkeys.
  - cbn. now rewrite app_nil_r.
  - apply Forall_cons in Hkeys as [Hkey Hkeys]. cbn [map concat].
    rewrite (decode_loop_app _ _ acc (acc ++ key)) by now apply decode_loop_rle.
    rewrite IH by assumption. now rewrite <- app_assoc.
Qed.

Lemma encode_keys_ok (keys : list (list Z)) :
  Forall (Forall is_bit) keys ->
  encode_keys keys = Ok (concat (map run_length_encode_packed keys)).
Proof.
  intros Hkeys.
  assert (Hflat : Forall is_byte (concat (map run_length_encode_packed keys))).
  { induction Hkeys as [|key keys Hkey _ IH]; [constructor|].
    cbn [map concat]. apply Forall_app. split; [now apply rle_bytes|exact IH]. }
  unfold encode_keys. rewrite (check_byte_range_ok _ Hflat). cbn [bind].
  now apply bytes_ok.
Qed.

(** X8: the keys blob of the bundle reads back as the addresses: for
    binary addresses of one positive length [chunk_size], [load_keys] of
    the encoded keys is the list of addresses. *)
Theorem load_keys_round_trip (keys : list (list Z)) (chunk_size : Z)
    (Hsize : 0 < chunk_size)
    (Hlen : Forall (fun key => len key = chunk_size) keys)
    (Hbits : Forall (Forall is_bit) keys) :
  exists keys_bytes,
    encode_keys keys = Ok keys_bytes
    /\ sdm_loader_no_deps.load_keys keys_bytes chunk_size = Ok keys.
Proof.
  exists (concat (map run_length_encode_packed keys)).
  split; [now apply encode_keys_ok|].
  unfold sdm_loader_no_deps.load_keys, run_length_decode_packed.
  pose proof (decode_loop_rle_keys keys [] Hbits) as Hd. cbn [app] in Hd.
  rewrite len_mod2_even, (decode_loop_even _ _ _ Hd), Hd. cbn [negb bind].
  now apply chunks_of_concat.
Qed.

Lemma load_keys_round_trip_witness :
  0 < 4
  /\ Forall (fun key => len key = 4) [[0; 0; 1; 1]; [1; 1; 1; 1]]
  /\ Forall (Forall is_bit) [[0; 0; 1; 1]; [1; 1; 1; 1]]
  /\ exists keys_bytes,
       encode_keys [[0; 0; 1; 1]; [1; 1; 1; 1]] = Ok keys_bytes
       /\ sdm_loader_no_deps.load_keys keys_bytes 4
          = Ok [[0; 0; 1; 1]; [1; 1; 1; 1]].
Proof.
  assert (H1 : 0 < 4) by lia.
  assert (H2 : Forall (fun key => len key = 4) [[0; 0; 1; 1]; [1; 1; 1; 1]]).
  { repeat constructor. }
  assert (H3 : Forall (Forall is_bit) [[0; 0; 1; 1]; [1; 1; 1; 1]]).
  { repeat constructor; unfold is_bit; lia. }
  split; [exact H1|]. split; [exact H2|]. split; [exact H3|].
  exact (load_keys_round_trip _ 4 H1 H2 H3).
Defined.

Lemma to_signed_unsigned (val : Z) :
  in_signed_byte val ->
  sdm_loader_no_deps.to_signed (to_unsigned_byte val) = val.
Proof.
  unfold in_signed_byte, sdm_loader_no_deps.to_signed, to_unsigned_byte.
  intros Hv. destruct (Z.ltb_spec val 0).
  - destruct (Z.gtb_spec (val + 256) 127); lia.
  - destruct (Z.gtb_spec val 127); lia.
Qed.

Lemma encode_data_ok (data : list (list Z)) :
  Forall in_signed_byte (concat data) ->
  encode_data data = Ok (map to_unsigned_byte (concat data)).
Proof.
  intros HF. unfold encode_data. rewrite (pack_data_ok data [] HF).
  cbn [bind app]. apply bytes_ok.
  apply Forall_map. eapply Forall_impl; [exact HF|].
  intros v Hv. now apply to_unsigned_byte_is_byte.
Qed.

(** X9: the data blob of the bundle reads back as the counters: for a
    matrix with rows of one positive length [chunk_size] and counters in
    [-128, 127], [load_data] of the encoded counters is the matrix. *)
Theorem load_data_round_trip (data : list (list Z)) (chunk_size : Z)
    (Hsize : 0 < chunk_size)
    (Hlen : Forall (fun row => len row = chunk_size) data)
    (Hrange : Forall in_signed_byte (concat data)) :
  exists data_bytes,
    encode_data data = Ok data_bytes
    /\ sdm_loader_no_deps.load_data data_bytes chunk_size = Ok data.
Proof.
  exists (map to_unsigned_byte (concat data)).
  split; [now apply encode_data_ok|].
  unfold sdm_loader_no_deps.load_data. rewrite map_map.
  replace (map (fun x => sdm_loader_no_deps.to_signed (to_unsigned_byte x))
               (concat data)) with (concat data).
  - now apply chunks_of_concat.
  - induction Hrange as [|v l Hv _ IH]; [reflexivity|].
    cbn [map]. now rewrite to_signed_unsigned, <- IH.
Qed.

Lemma load_data_round_trip_witness :
  0 < 2
  /\ Forall (fun row => len row = 2) [[3; -1]; [-128; 127]]
  /\ Forall in_signed_byte (concat [[3; -1]; [-128; 127]])
  /\ exists data_bytes,
       encode_data [[3; -1]; [-128; 127]] = Ok data_bytes
       /\ sdm_loader_no_deps.load_data data_bytes 2 = Ok [[3; -1]; [-128; 127]].
Proof.
  assert (H1 : 0 < 2) by lia.
  assert (H2 : Forall (fun row => len row = 2) [[3; -1]; [-128; 127]]).
  { repeat constructor. }
  assert (H3 : Forall in_signed_byte (concat [[3; -1]; [-128; 127]])).
  { repeat constructor; unfold in_signed_byte; lia. }
  split; [exact H1|]. split; [exact H2|]. split; [exact H3|].
  exact (load_data_round_trip _ 2 H1 H2 H3).
Defined.

(** ** What a write does *)


Lemma vote_row_lookup (data_vector row : list Z) (j : nat) :
  (length data_vector <= length row)%nat ->
  vote_row data_vector row !! j
  = (fun c => if in_window 0 (length data_vector) j
              then vote (default 0 (data_vector !! j)) c else c)
      <$> row !! j.
Proof.
  intros Hlen. unfold vote_row.
  destruct (in_window 0 (length data_vector) j) eqn:E.
  - apply in_window_true in E.
    rewrite lookup_app_l by (rewrite length_zip_with; lia).
    rewrite lookup_zip_with.
    destruct (lookup_lt_is_Some_2 data_vector j ltac:(lia)) as [b Hb].
    destruct (lookup_lt_is_Some_2 row j ltac:(lia)) as [c Hc].
    rewrite Hb, Hc. reflexivity.
  - apply in_window_false in E.
    rewrite lookup_app_r by (rewrite length_zip_with; lia).
    rewrite length_zip_with, lookup_drop.
    replace (length data_vector + (j - length data_vector `min` length row))%nat
      with j by lia.
    now destruct (row !! j).
Qed.

Lemma enter_cols_vote_row (data_vector : list Z) (i : nat)
    (data : list (list Z)) (row : list Z) :
  data !! i = Some row -> (length data_vector <= length row)%nat ->
  enter_cols data_vector i (seq 0 (length data_vector)) data
  = Ok (<[i := vote_row data_vector row]> data).
Proof.
  intros Hrow Hlen.
  destruct (enter_cols_seq data_vector i (length data_vector) 0 data row Hrow
              ltac:(lia) ltac:(lia)) as [row' [H1 [H2 H3]]].
  rewrite H1. do 2 f_equal. apply list_eq. intros j.
  now rewrite H3, vote_row_lookup.
Qed.

Lemma length_vote_row (data_vector row : list Z) :
  (length data_vector <= length row)%nat ->
  length (vote_row data_vector row) = length row.
Proof.
  intros Hlen. unfold vote_row.
  rewrite length_app, length_zip_with, length_drop. lia.
Qed.

(** The loop of [enter] over the rows [k .. k+m-1]. *)
Lemma enter_rows_seq (sdm : SDM) (key_vector data_vector : list Z) :
  forall m k data,
    (forall i, (k <= i < k + m)%nat ->
       (i < length (keys sdm))%nat
       /\ exists l, (length <$> data) !! i = Some l
                    /\ (length data_vector <= l)%nat) ->
    exists data',
      enter_rows (keys sdm) (radius sdm) key_vector data_vector (seq k m) data
      = Ok data'
      /\ length <$> data' = length <$> data
      /\ forall i, data' !! i
                   = (fun row => if in_window k m i && in_radius sdm key_vector i
                                 then vote_row data_vector row else row)
                       <$> data !! i.
Proof.
  induction m as [|m IH]; intros k data Hwf.
  - exists data. split; [reflexivity|]. split; [reflexivity|].
    intros i. destruct (data !! i); cbn [fmap option_fmap option_map];
      [|reflexivity]. window.
  - cbn [seq enter_rows].
    destruct (Hwf k ltac:(lia)) as [Hk [l [Hl Hdv]]].
    destruct (lookup_lt_is_Some_2 (keys sdm) k Hk) as [key Hkey].
    rewrite (getitem_Some _ _ _ Hkey). cbn [bind].
    assert (Hin : in_radius sdm key_vector k
                  = (hamming_distance key key_vector <=? radius sdm)).
    { unfold in_radius. now rewrite Hkey. }
    rewrite list_lookup_fmap in Hl.
    destruct (data !! k) as [row|] eqn:Hrow; [|discriminate].
    cbn in Hl. injection Hl as <-.
    destruct (hamming_distance key key_vector <=? radius sdm).
    + rewrite (enter_cols_vote_row data_vector k data row Hrow Hdv). cbn [bind].
      assert (Hshape : length <$> <[k := vote_row data_vector row]> data
                       = length <$> data).
      { rewrite list_fmap_insert, length_vote_row by assumption.
        apply list_insert_id. now rewrite list_lookup_fmap, Hrow. }
      destruct (IH (S k) (<[k := vote_row data_vector row]> data))
        as [data' [H1 [H2 H3]]].
      { intros i Hi. rewrite Hshape. apply Hwf. lia. }
      exists data'. split; [exact H1|]. split; [now rewrite H2|].
      intros i. rewrite H3.
      assert (Hkd : (k < length data)%nat) by (eapply lookup_lt_Some; eauto).
      destruct (Nat.eq_dec i k) as [->|Hne].
      * rewrite list_lookup_insert_eq by lia. rewrite Hrow, Hin.
        cbn [fmap option_fmap option_map]. window.
      * rewrite list_lookup_insert_ne by lia.
        destruct (data !! i); cbn [fmap option_fmap option_map]; [|reflexivity].
        window.
    + destruct (IH (S k) data) as [data' [H1 [H2 H3]]].
      { intros i Hi. apply Hwf. lia. }
      exists data'. split; [exact H1|]. split; [exact H2|].
      intros i. rewrite H3.
      destruct (data !! i) eqn:Hi; cbn [fmap option_fmap option_map];
        [|reflexivity].
      destruct (Nat.eq_dec i k) as [->|Hne].
      * rewrite Hin. rewrite andb_false_r. window.
      * window.
Qed.

Lemma in_radius_out_of_range (sdm : SDM) (key_vector : list Z) (i : nat) :
  (length (keys sdm) <= i)%nat -> in_radius sdm key_vector i = false.
Proof. intros Hi. unfold in_radius. now rewrite lookup_ge_None_2. Qed.

(** [enter] on a memory whose rows hold the data vector. *)
Lemma enter_entered (sdm : SDM) (key_vector data_vector : list Z) :
  covers sdm (length data_vector) ->
  enter sdm key_vector data_vector
  = Ok {| p := p sdm; n := n sdm; keys := keys sdm;
          data := entered sdm key_vector data_vector; radius := radius sdm |}.
Proof.
  intros Hcov. unfold enter.
  destruct (enter_rows_seq sdm key_vector data_vector (length (keys sdm)) 0
              (data sdm)) as [data' [H1 [H2 H3]]].
  { intros i Hi. split; [lia|]. destruct (Hcov i ltac:(lia)) as [row [Hrow Hle]].
    exists (length row). split; [|exact Hle]. now rewrite list_lookup_fmap, Hrow. }
  rewrite H1. cbn [bind]. do 2 f_equal. apply list_eq. intros i.
  rewrite H3. unfold entered. rewrite list_lookup_imap.
  destruct (data sdm !! i); cbn [fmap option_fmap option_map]; [|reflexivity].
  f_equal. destruct (in_window 0 (length (keys sdm)) i) eqn:E; [reflexivity|].
  apply in_window_false in E. rewrite in_radius_out_of_range by lia. reflexivity.
Qed.

Lemma counter_entered (sdm : SDM) (key_vector data_vector : list Z) (i j : nat) :
  covers sdm (length data_vector) ->
  counter (entered sdm key_vector data_vector) i j
  = if in_radius sdm key_vector i && (j <? length data_vector)%nat
    then vote (default 0 (data_vector !! j)) (counter (data sdm) i j)
    else counter (data sdm) i j.
Proof.
  intros Hcov. unfold counter, entered. rewrite list_lookup_imap.
  destruct (in_radius sdm key_vector i) eqn:Hin; cbn [andb].
  - assert (Hi : (i < length (keys sdm))%nat).
    { destruct (Nat.lt_ge_cases i (length (keys sdm))) as [|Hge]; [assumption|].
      rewrite in_radius_out_of_range in Hin by lia. discriminate. }
    destruct (Hcov i Hi) as [row [Hrow Hle]]. rewrite Hrow.
    cbn [fmap option_fmap option_map]. rewrite vote_row_lookup by assumption.
    destruct (Nat.ltb_spec j (length data_vector)).
    + destruct (lookup_lt_is_Some_2 row j ltac:(lia)) as [c Hc]. rewrite Hc.
      cbn [fmap option_fmap option_map default from_option id]. window.
    + destruct (row !! j); cbn [fmap option_fmap option_map default from_option id];
        [|reflexivity]. window.
  - destruct (data sdm !! i); reflexivity.
Qed.

(** X10: a write moves exactly the counters of the rows whose address is
    within the radius of the key, in the columns of the data vector, by
    one each: up where the bit is 1, down otherwise.  The addresses, the
    radius and all other counters are left as they are. *)
Theorem enter_votes_in_radius (sdm : SDM) (key_vector data_vector : list Z)
    (Hcovers : covers sdm (length data_vector)) :
  exists sdm',
    enter sdm key_vector data_vector = Ok sdm'
    /\ keys sdm' = keys sdm /\ radius sdm' = radius sdm
    /\ length <$> data sdm' = length <$> data sdm
    /\ forall i j,
         counter (data sdm') i j
         = if in_radius sdm key_vector i && (j <? length data_vector)%nat
           then (if default 0 (data_vector !! j) =? 1
                 then counter (data sdm) i j + 1
                 else counter (data sdm) i j - 1)
           else counter (data sdm) i j.
Proof.
  eexists. split; [now apply enter_entered|]. cbn [keys radius data].
  split; [reflexivity|]. split; [reflexivity|]. split.
  - destruct (enter_total sdm key_vector data_vector Hcovers)
      as [sdm' [He [_ Hs]]].
    rewrite enter_entered in He by assumption. injection He as <-. exact Hs.
  - intros i j. now rewrite counter_entered.
Qed.

Lemma enter_votes_in_radius_witness :
  covers example_memory (length [1; 0; 1; 1])
  /\ exists sdm',
       enter example_memory [0; 1; 1; 0] [1; 0; 1; 1] = Ok sdm'
       /\ data sdm' = [[3; -1; 0; 1]; [-1; 0; 3; -2]].
Proof.
  pose proof example_memory_covers as H. split; [exact H|].
  destruct (enter_votes_in_radius example_memory [0; 1; 1; 0] [1; 0; 1; 1] H)
    as [sdm' [He _]].
  exists sdm'. split; [exact He|].
  vm_compute in He. injection He as <-. reflexivity.
Defined.

Lemma enter_rows_no_neighbour (sdm : SDM) (key_vector data_vector : list Z) :
  (forall i, in_radius sdm key_vector i = false) ->
  forall is_ data,
    Forall (fun i => (i < length (keys sdm))%nat) is_ ->
    enter_rows (keys sdm) (radius sdm) key_vector data_vector is_ data = Ok data.
Proof.
  intros Hnone. induction is_ as [|i is_ IH]; intros data His; [reflexivity|].
  apply Forall_cons in His as [Hi His]. cbn [enter_rows].
  destruct (lookup_lt_is_Some_2 (keys sdm) i Hi) as [key Hkey].
  rewrite (getitem_Some _ _ _ Hkey). cbn [bind].
  specialize (Hnone i) as Hin. unfold in_radius in Hin. rewrite Hkey in Hin.
  rewrite Hin. now apply IH.
Qed.

(** X11: when no address lies within the radius of the key, a write is
    a silent no-op: the memory is returned unchanged and nothing is
    raised, whatever the data vector and its length. *)
Theorem enter_without_neighbour (sdm : SDM) (key_vector data_vector : list Z)
    (Hnone : forall i, in_radius sdm key_vector i = false) :
  enter sdm key_vector data_vector = Ok sdm.
Proof.
  unfold enter.
  rewrite (enter_rows_no_neighbour sdm key_vector data_vector Hnone)
    by apply Forall_seq_lt.
  cbn [bind]. destruct sdm. reflexivity.
Qed.

Lemma enter_without_neighbour_witness :
  (forall i, in_radius example_memory [1; 0; 0; 1] i = false)
  /\ enter example_memory [1; 0; 0; 1] [1; 1; 1; 1; 1; 1] = Ok example_memory.
Proof.
  assert (H : forall i, in_radius example_memory [1; 0; 0; 1] i = false).
  { intros [|[|i]]; reflexivity. }
  split; [exact H|]. exact (enter_without_neighbour _ _ _ H).
Defined.

(** ** Recall from a fresh memory *)


Lemma Zsum_indicator (b : nat -> bool) (c : Z) (l : list nat) :
  Zsum (map (fun i => if b i then c else 0) l) = c * count_of b l.
Proof.
  unfold count_of. induction l as [|i l IH]; [cbn; lia|].
  cbn [map]. rewrite !Zsum_cons, IH. destruct (b i); lia.
Qed.

Lemma count_of_existsb (b : nat -> bool) (l : list nat) :
  0 <= count_of b l /\ (0 <? count_of b l) = existsb b l.
Proof.
  unfold count_of. induction l as [|i l [IH1 IH2]]; [split; [cbn; lia|reflexivity]|].
  cbn [map existsb]. rewrite Zsum_cons. destruct (b i); cbn [orb].
  - split; [lia|]. apply Z.ltb_lt. lia.
  - split; [lia|]. rewrite <- IH2. f_equal.
Qed.

Lemma fresh_covers (sdm : SDM) (n : nat) : fresh sdm n -> covers sdm n.
Proof.
  intros Hf i Hi. exists (repeat 0 n). rewrite Hf. split.
  - now apply lookup_repeat.
  - now rewrite repeat_length.
Qed.

Lemma fresh_counter (sdm : SDM) (n : nat) (i j : nat) :
  fresh sdm n -> counter (data sdm) i j = 0.
Proof.
  intros Hf. unfold counter. rewrite Hf.
  destruct (Nat.lt_ge_cases i (length (keys sdm))) as [Hi|Hi].
  - rewrite lookup_repeat by assumption.
    destruct (Nat.lt_ge_cases j n) as [Hj|Hj].
    + now rewrite lookup_repeat.
    + rewrite lookup_ge_None_2; [reflexivity|]. now rewrite repeat_length.
  - rewrite lookup_ge_None_2; [reflexivity|]. now rewrite repeat_length.
Qed.

Lemma covers_entered (sdm : SDM) (key_vector data_vector : list Z) (m : nat) :
  covers sdm (length data_vector) -> covers sdm m ->
  covers {| p := p sdm; n := n sdm; keys := keys sdm;
            data := entered sdm key_vector data_vector; radius := radius sdm |} m.
Proof.
  intros Hdv Hm i Hi. cbn [keys data] in *.
  destruct (Hm i Hi) as [row [Hrow Hle]]. destruct (Hdv i Hi) as [row' [Hrow' Hle']].
  rewrite Hrow in Hrow'. injection Hrow' as <-.
  unfold entered. rewrite list_lookup_imap, Hrow.
  cbn [fmap option_fmap option_map]. eexists. split; [reflexivity|].
  destruct (in_radius sdm key_vector i); [|exact Hle].
  now rewrite length_vote_row.
Qed.

(** The sums read at a key just written into a fresh memory. *)
Lemma accumulated_sum_fresh (sdm : SDM) (key_vector pattern : list Z) (j : nat) :
  fresh sdm (length pattern) -> (j < length pattern)%nat ->
  accumulated_sum
    {| p := p sdm; n := n sdm; keys := keys sdm;
       data := entered sdm key_vector pattern; radius := radius sdm |}
    key_vector j
  = vote (default 0 (pattern !! j)) 0
    * count_of (in_radius sdm key_vector) (seq 0 (length (keys sdm))).
Proof.
  intros Hf Hj. unfold accumulated_sum. cbn [keys data].
  rewrite <- Zsum_indicator. f_equal. apply map_ext. intros i.
  change (in_radius {| p := p sdm; n := n sdm; keys := keys sdm;
                       data := entered sdm key_vector pattern;
                       radius := radius sdm |} key_vector i)
    with (in_radius sdm key_vector i).
  destruct (in_radius sdm key_vector i) eqn:Hin; [|reflexivity].
  rewrite counter_entered by now apply fresh_covers.
  rewrite Hin, (fresh_counter sdm _ i j Hf). cbn [andb].
  destruct (Nat.ltb_spec j (length pattern)); [reflexivity|lia].
Qed.

Lemma threshold_vote_count (b c : Z) :
  is_bit b -> 0 <= c ->
  threshold (vote b 0 * c) = if 0 <? c then b else 0.
Proof.
  intros [-> | ->] Hc; unfold threshold.
  - change (vote 0 0) with (-1).
    destruct (Z.gtb_spec (-1 * c) 0); [lia|]. now destruct (0 <? c).
  - change (vote 1 0) with 1.
    destruct (Z.gtb_spec (1 * c) 0), (Z.ltb_spec 0 c); lia.
Qed.

Lemma fresh_recall (sdm : SDM) (key_vector pattern : list Z) :
  fresh sdm (length pattern) -> length key_vector = length pattern ->
  Forall is_bit pattern ->
  lookup {| p := p sdm; n := n sdm; keys := keys sdm;
            data := entered sdm key_vector pattern; radius := radius sdm |}
         key_vector
  = Ok (if existsb (in_radius sdm key_vector) (seq 0 (length (keys sdm)))
        then pattern else repeat 0 (length pattern)).
Proof.
  intros Hf Hkey Hbits.
  pose proof (fresh_covers sdm _ Hf) as Hcov.
  destruct (lookup_spec _ key_vector
              (covers_entered sdm key_vector pattern (length key_vector) Hcov
                 ltac:(now rewrite Hkey))) as [out [Ho [Hol Hop]]].
  rewrite Ho. f_equal. apply list_eq. intros j.
  destruct (count_of_existsb (in_radius sdm key_vector)
              (seq 0 (length (keys sdm)))) as [Hc0 Hc].
  destruct (Nat.lt_ge_cases j (length pattern)) as [Hj|Hj].
  - rewrite (Hop j ltac:(lia)), accumulated_sum_fresh by assumption.
    destruct (lookup_lt_is_Some_2 pattern j Hj) as [b Hb].
    rewrite Hb. cbn [default from_option id].
    assert (Hbit : is_bit b).
    { rewrite Forall_forall in Hbits. apply Hbits.
      eapply list_elem_of_lookup_2, Hb. }
    rewrite threshold_vote_count by assumption. rewrite Hc.
    destruct (existsb _ _); [now rewrite Hb|].
    now rewrite lookup_repeat.
  - rewrite lookup_ge_None_2 by lia. symmetry.
    destruct (existsb _ _); apply lookup_ge_None_2;
      [lia|rewrite repeat_length; lia].
Qed.

(** X12: in a memory with any number of addresses and all counters
    zero, writing a pattern of bits at a key and reading at the same key
    returns the pattern when at least one address lies within the radius
    of the key, and all zeros when none does (the write was a no-op). *)
Theorem fresh_memory_recall (sdm : SDM) (key_vector pattern : list Z)
    (Hfresh : fresh sdm (length pattern))
    (Hkey : length key_vector = length pattern)
    (Hbits : Forall is_bit pattern) :
  exists sdm',
    enter sdm key_vector pattern = Ok sdm'
    /\ lookup sdm' key_vector
       = Ok (if existsb (in_radius sdm key_vector) (seq 0 (length (keys sdm)))
             then pattern else repeat 0 (length pattern)).
Proof.
  eexists. split.
  - apply enter_entered. now apply fresh_covers.
  - now apply fresh_recall.
Qed.


Lemma fresh_memory_recall_witness :
  fresh fresh_example_memory (length [1; 0; 0; 1])
  /\ length [0; 1; 1; 0] = length [1; 0; 0; 1]
  /\ Forall is_bit [1; 0; 0; 1]
  /\ exists sdm',
       enter fresh_example_memory [0; 1; 1; 0] [1; 0; 0; 1] = Ok sdm'
       /\ lookup sdm' [0; 1; 1; 0] = Ok [1; 0; 0; 1].
Proof.
  assert (H1 : fresh fresh_example_memory (length [1; 0; 0; 1])) by reflexivity.
  assert (H2 : length [0; 1; 1; 0] = length [1; 0; 0; 1]) by reflexivity.
  assert (H3 : Forall is_bit [1; 0; 0; 1]).
  { repeat constructor; unfold is_bit; lia. }
  split; [exact H1|]. split; [exact H2|]. split; [exact H3|].
  exact (fresh_memory_recall fresh_example_memory _ _ H1 H2 H3).
Defined.

(** ** Writes at distant keys *)

Lemma disjoint_neighbourhoods (sdm : SDM) (key1 key2 : list Z) (n i : nat) :
  Forall (fun key => length key = n) (keys sdm) ->
  length key1 = n -> length key2 = n ->
  2 * radius sdm < hamming_distance key1 key2 ->
  in_radius sdm key1 i = true -> in_radius sdm key2 i = false.
Proof.
  intros Hkeys H1 H2 Hfar Hin. unfold in_radius in *.
  destruct (keys sdm !! i) as [key|] eqn:Hkey; [|reflexivity].
  assert (Hlen : length key = n).
  { rewrite Forall_forall in Hkeys. apply Hkeys.
    eapply list_elem_of_lookup_2, Hkey. }
  apply Z.leb_le in Hin. apply Z.leb_gt.
  pose proof (hamming_distance_triangle key1 key key2 ltac:(lia) ltac:(lia)).
  rewrite (hamming_distance_sym key1 key) in H. lia.
Qed.

Lemma lookup_ext (sdm sdm' : SDM) (key_vector : list Z) :
  covers sdm (length key_vector) -> covers sdm' (length key_vector) ->
  (forall j, accumulated_sum sdm' key_vector j = accumulated_sum sdm key_vector j) ->
  lookup sdm' key_vector = lookup sdm key_vector.
Proof.
  intros Hc Hc' Hsum.
  destruct (lookup_spec sdm key_vector Hc) as [out [Ho [Hol Hop]]].
  destruct (lookup_spec sdm' key_vector Hc') as [out' [Ho' [Hol' Hop']]].
  rewrite Ho, Ho'. f_equal. apply list_eq. intros j.
  destruct (Nat.lt_ge_cases j (length key_vector)) as [Hj|Hj].
  - now rewrite (Hop j Hj), (Hop' j Hj), Hsum.
  - now rewrite !lookup_ge_None_2 by lia.
Qed.

(** X13: when all vectors have one length and two keys are further
    apart than twice the radius, no address is within the radius of both,
    and a write at one key leaves every read at the other key as it
    was. *)
Theorem distant_keys_do_not_interfere (sdm : SDM)
    (key1 data_vector key2 : list Z) (n : nat)
    (Hkeys : Forall (fun key => length key = n) (keys sdm))
    (Hkey1 : length key1 = n) (Hkey2 : length key2 = n)
    (Hfar : 2 * radius sdm < hamming_distance key1 key2)
    (Hdata : covers sdm (length data_vector))
    (Hread : covers sdm (length key2)) :
  (forall i, in_radius sdm key1 i && in_radius sdm key2 i = false)
  /\ exists sdm',
       enter sdm key1 data_vector = Ok sdm'
       /\ lookup sdm' key2 = lookup sdm key2.
Proof.
  split.
  - intros i. destruct (in_radius sdm key1 i) eqn:Hin; [|reflexivity].
    cbn [andb].
    exact (disjoint_neighbourhoods sdm key1 key2 n i Hkeys Hkey1 Hkey2 Hfar Hin).
  - eexists. split; [now apply enter_entered|].
    apply lookup_ext; [assumption|now apply covers_entered|].
    intros j. unfold accumulated_sum. cbn [keys data]. f_equal.
    apply map_ext. intros i.
    change (in_radius {| p := p sdm; n := compression_test.n sdm;
                         keys := keys sdm;
                         data := entered sdm key1 data_vector;
                         radius := radius sdm |} key2 i)
      with (in_radius sdm key2 i).
    destruct (in_radius sdm key2 i) eqn:Hin2; [|reflexivity].
    rewrite counter_entered by assumption.
    destruct (in_radius sdm key1 i) eqn:Hin1; [|reflexivity].
    rewrite (disjoint_neighbourhoods sdm key1 key2 n i) in Hin2 by assumption.
    discriminate.
Qed.

Lemma distant_keys_do_not_interfere_witness :
  Forall (fun key => length key = 4%nat) (keys example_memory)
  /\ 2 * radius example_memory < hamming_distance [0; 1; 1; 0] [1; 0; 0; 0]
  /\ exists sdm',
       enter example_memory [0; 1; 1; 0] [1; 1; 1; 1] = Ok sdm'
       /\ lookup sdm' [1; 0; 0; 0] = lookup example_memory [1; 0; 0; 0].
Proof.
  assert (H1 : Forall (fun key => length key = 4%nat) (keys example_memory)).
  { repeat constructor. }
  assert (H2 : 2 * radius example_memory
               < hamming_distance [0; 1; 1; 0] [1; 0; 0; 0]) by reflexivity.
  split; [exact H1|]. split; [exact H2|].
  exact (proj2 (distant_keys_do_not_interfere example_memory
                  [0; 1; 1; 0] [1; 1; 1; 1] [1; 0; 0; 0] 4 H1 eq_refl eq_refl H2
                  example_memory_covers example_memory_covers)).
Defined.

(** ** Repeated writes and the overflow of the counters *)


Lemma enter_single_row (address row key_vector pattern : list Z) (n : nat) :
  length key_vector = n -> length pattern = length row ->
  enter (single_row_memory address row n) key_vector pattern
  = Ok (single_row_memory address (zip_with vote pattern row) n).
Proof.
  intros Hkey Hlen.
  rewrite enter_entered.
  - unfold single_row_memory, entered, in_radius.
    cbn [keys data radius p compression_test.n imap base.lookup list_lookup].
    assert (Hd : (hamming_distance address key_vector <=? Z.of_nat n) = true).
    { apply Z.leb_le. pose proof (hamming_distance_bound address key_vector).
      unfold len in *. lia. }
    rewrite Hd. unfold vote_row. rewrite drop_ge by lia.
    now rewrite app_nil_r.
  - intros i Hi. cbn in Hi. assert (i = 0%nat) as -> by lia.
    exists row. split; [reflexivity|lia].
Qed.

Lemma vote_written (a : Z) (pattern : list Z) :
  zip_with vote pattern (written a pattern) = written (a + 1) pattern.
Proof.
  unfold written. induction pattern as [|b pattern IH]; [reflexivity|].
  cbn [map zip_with]. rewrite IH. f_equal. unfold vote.
  destruct (b =? 1); lia.
Qed.

Lemma enter_all_single_row (address key_vector pattern : list Z) (n : nat) :
  length key_vector = n ->
  forall k a,
    enter_all (single_row_memory address (written a pattern) n)
      (repeat (key_vector, pattern) k)
    = Ok (single_row_memory address (written (a + Z.of_nat k) pattern) n).
Proof.
  intros Hkey. induction k as [|k IH]; intros a.
  - cbn. now rewrite Z.add_0_r.
  - cbn [repeat enter_all].
    rewrite enter_single_row; [|assumption|unfold written; now rewrite length_map].
    cbn [bind]. rewrite vote_written, IH.
    replace (a + 1 + Z.of_nat k) with (a + Z.of_nat (S k)) by lia. reflexivity.
Qed.

Lemma written_zero (pattern : list Z) :
  written 0 pattern = repeat 0 (length pattern).
Proof.
  unfold written. induction pattern as [|b pattern IH]; [reflexivity|].
  cbn [map length repeat]. rewrite IH. now destruct (b =? 1).
Qed.

(** X14: after [k] writes of one pattern of bits at one key into a
    one-address memory with radius n and zero counters, the counters are
    [k] on the 1 bits and [-k] on the 0 bits; when the pattern has a 1
    bit, encoding the counters succeeds up to 127 writes and raises the
    out-of-range [ValueError] from the 128th on. *)
Theorem repeated_writes_overflow (address key_vector pattern : list Z)
    (n k : nat)
    (Hkey : length key_vector = n) (Hlen : length pattern = n)
    (Hbits : Forall is_bit pattern) (Hone : 1 ∈ pattern) :
  exists sdm',
    enter_all (single_address_memory address n) (repeat (key_vector, pattern) k)
    = Ok sdm'
    /\ data sdm' = [written (Z.of_nat k) pattern]
    /\ ((k <= 127)%nat ->
        encode_data (data sdm')
        = Ok (map to_unsigned_byte (written (Z.of_nat k) pattern)))
    /\ ((128 <= k)%nat ->
        exists v, Z.abs v = Z.of_nat k
                  /\ encode_data (data sdm') = Raise (ValueError_vote_range v)).
Proof.
  exists (single_row_memory address (written (Z.of_nat k) pattern) n).
  split.
  { pose proof (enter_all_single_row address key_vector pattern n Hkey k 0) as H.
    rewrite written_zero, Hlen in H. exact H. }
  cbn [single_row_memory data]. split; [reflexivity|].
  assert (Hvals : forall v, v ∈ written (Z.of_nat k) pattern ->
                            v = Z.of_nat k \/ v = - Z.of_nat k).
  { intros v Hv. unfold written in Hv. apply list_elem_of_fmap in Hv as [b [-> _]].
    destruct (b =? 1); auto. }
  split.
  - intros Hk. rewrite encode_data_ok; cbn [concat]; rewrite app_nil_r;
      [reflexivity|].
    apply Forall_forall. intros v Hv. destruct (Hvals v Hv) as [-> | ->];
      unfold in_signed_byte; lia.
  - intros Hk.
    destruct (pack_data_err [written (Z.of_nat k) pattern] []) as [v [Hv [Hin Hp]]].
    { cbn [concat]. rewrite app_nil_r. apply Exists_exists.
      exists (Z.of_nat k). split.
      - unfold written. apply list_elem_of_fmap. exists 1. split; [reflexivity|exact Hone].
      - unfold in_signed_byte. lia. }
    exists v. split.
    + cbn [concat] in Hin. rewrite app_nil_r in Hin.
      destruct (Hvals v Hin) as [-> | ->]; lia.
    + unfold encode_data. now rewrite Hp.
Qed.

Lemma repeated_writes_overflow_witness :
  length [0; 1; 1] = 3%nat /\ length [1; 0; 1] = 3%nat
  /\ Forall is_bit [1; 0; 1] /\ 1 ∈ [1; 0; 1]
  /\ exists sdm',
       enter_all (single_address_memory [1; 1; 1] 3)
         (repeat ([0; 1; 1], [1; 0; 1]) 128) = Ok sdm'
       /\ encode_data (data sdm') = Raise (ValueError_vote_range 128).
Proof.
  assert (H3 : Forall is_bit [1; 0; 1]).
  { repeat constructor; unfold is_bit; lia. }
  assert (H4 : 1 ∈ [1; 0; 1]) by left.
  split; [reflexivity|]. split; [reflexivity|]. split; [exact H3|].
  split; [exact H4|].
  destruct (repeated_writes_overflow [1; 1; 1] [0; 1; 1] [1; 0; 1] 3 128
              eq_refl eq_refl H3 H4) as [sdm' [He [Hd _]]].
  exists sdm'. split; [exact He|]. rewrite Hd. reflexivity.
Defined.

(** ** The loader's read against the writer's *)

Lemma add_row_accumulate (i : nat) (data : list (list Z)) (row : list Z) :
  data !! i = Some row ->
  forall m k retrieved,
    (k + m = length row)%nat ->
    sdm_loader_no_deps.add_row (drop k row) k retrieved
    = accumulate i (seq k m) data retrieved.
Proof.
  intros Hrow. induction m as [|m IH]; intros k retrieved Hk.
  - rewrite drop_ge by lia. reflexivity.
  - destruct (lookup_lt_is_Some_2 row k ltac:(lia)) as [c Hc].
    rewrite (drop_S _ _ _ Hc).
    cbn [sdm_loader_no_deps.add_row seq accumulate].
    destruct (getitem retrieved k) as [r|e]; cbn [bind]; [|reflexivity].
    rewrite (getitem_Some _ _ _ Hrow). cbn [bind].
    rewrite (getitem_Some _ _ _ Hc). cbn [bind].
    apply IH. lia.
Qed.

Lemma add_row_short (row : list Z) :
  forall k retrieved,
    (k <= length retrieved)%nat -> (length retrieved < k + length row)%nat ->
    sdm_loader_no_deps.add_row row k retrieved = Raise IndexError.
Proof.
  induction row as [|val row IH]; intros k retrieved Hk Hlen.
  - cbn in Hlen. lia.
  - cbn [sdm_loader_no_deps.add_row].
    destruct (Nat.eq_dec k (length retrieved)) as [->|Hne].
    + now rewrite getitem_None by lia.
    + destruct (lookup_lt_is_Some_2 retrieved k ltac:(lia)) as [r Hr].
      rewrite (getitem_Some _ _ _ Hr). cbn [bind].
      apply IH; rewrite length_insert; cbn [length] in Hlen; lia.
Qed.


Lemma loader_lookup_rows (sdm : SDM) (key_vector : list Z) :
  rows_of_length sdm (length key_vector) ->
  forall m k retrieved,
    (k + m = length (keys sdm))%nat ->
    sdm_loader_no_deps.lookup_rows (loaded sdm) key_vector (drop k (keys sdm))
      k retrieved
    = lookup_rows sdm key_vector (seq k m) retrieved.
Proof.
  intros Hrows. induction m as [|m IH]; intros k retrieved Hk.
  - rewrite drop_ge by lia. reflexivity.
  - destruct (lookup_lt_is_Some_2 (keys sdm) k ltac:(lia)) as [key Hkey].
    rewrite (drop_S _ _ _ Hkey).
    cbn [sdm_loader_no_deps.lookup_rows seq lookup_rows].
    rewrite (getitem_Some _ _ _ Hkey). cbn [bind].
    cbn [loaded sdm_loader_no_deps.radius sdm_loader_no_deps.data].
    destruct (hamming_distance key key_vector <=? radius sdm).
    + destruct (Hrows k ltac:(lia)) as [row [Hrow Hlen]].
      rewrite (getitem_Some _ _ _ Hrow). cbn [bind].
      pose proof (add_row_accumulate k (data sdm) row Hrow (length row) 0
                    retrieved eq_refl) as Ha.
      rewrite drop_0 in Ha. rewrite Ha, Hlen.
      destruct (accumulate k (seq 0 (length key_vector)) (data sdm) retrieved);
        cbn [bind]; [|reflexivity].
      apply IH. lia.
    + apply IH. lia.
Qed.

(** [add_row] either keeps the length of the sums or raises
    [IndexError]. *)
Lemma add_row_result (row : list Z) :
  forall k retrieved,
    (exists out, sdm_loader_no_deps.add_row row k retrieved = Ok out
                 /\ length out = length retrieved)
    \/ sdm_loader_no_deps.add_row row k retrieved = Raise IndexError.
Proof.
  induction row as [|val row IH]; intros k retrieved.
  - left. exists retrieved. split; reflexivity.
  - cbn [sdm_loader_no_deps.add_row].
    destruct (retrieved !! k) as [r|] eqn:Hr.
    + rewrite (getitem_Some _ _ _ Hr). cbn [bind].
      destruct (IH (S k) (<[k := r + val]> retrieved)) as [[out [Ho Hl]]|He].
      * left. exists out. split; [exact Ho|]. now rewrite Hl, length_insert.
      * right. exact He.
    + right. rewrite getitem_None; [reflexivity|].
      now apply lookup_ge_None_1.
Qed.

(** The loader's loop over the addresses raises [IndexError] when one of
    the addresses still to come is within the radius and its row is
    longer than the key. *)
Lemma loader_lookup_rows_long (sdm_l : sdm_loader_no_deps.SDM)
    (key_vector : list Z) :
  forall ks i0 retrieved,
    length retrieved = length key_vector ->
    (exists d key row,
       ks !! d = Some key
       /\ sdm_loader_no_deps.data sdm_l !! (i0 + d)%nat = Some row
       /\ hamming_distance key key_vector <= sdm_loader_no_deps.radius sdm_l
       /\ (length key_vector < length row)%nat) ->
    sdm_loader_no_deps.lookup_rows sdm_l key_vector ks i0 retrieved
    = Raise IndexError.
Proof.
  intros ks. induction ks as [|key0 ks IH]; intros i0 retrieved Hlen
    [d [key [row [Hkey [Hrow [Hd Hlong]]]]]].
  - rewrite lookup_nil in Hkey. discriminate.
  - cbn [sdm_loader_no_deps.lookup_rows].
    destruct d as [|d].
    + rewrite lookup_cons in Hkey. injection Hkey as Hkey. subst key0.
      rewrite Nat.add_0_r in Hrow.
      apply Z.leb_le in Hd. rewrite Hd.
      rewrite (getitem_Some _ _ _ Hrow). cbn [bind].
      rewrite add_row_short; [reflexivity|lia|lia].
    + rewrite lookup_cons in Hkey.
      assert (Hnext : exists d' key' row',
                ks !! d' = Some key'
                /\ sdm_loader_no_deps.data sdm_l !! (S i0 + d')%nat = Some row'
                /\ hamming_distance key' key_vector
                   <= sdm_loader_no_deps.radius sdm_l
                /\ (length key_vector < length row')%nat).
      { exists d, key, row. split; [exact Hkey|].
        split; [|split; assumption].
        replace (S i0 + d)%nat with (i0 + S d)%nat by lia. exact Hrow. }
      destruct (hamming_distance key0 key_vector
                <=? sdm_loader_no_deps.radius sdm_l).
      * destruct (sdm_loader_no_deps.data sdm_l !! i0) as [row0|] eqn:Hrow0.
        -- rewrite (getitem_Some _ _ _ Hrow0). cbn [bind].
           destruct (add_row_result row0 0 retrieved) as [[out [Ho Hl]]|He].
           ++ rewrite Ho. cbn [bind]. apply IH; [lia|exact Hnext].
           ++ now rewrite He.
        -- rewrite getitem_None; [reflexivity|].
           now apply lookup_ge_None_1.
      * apply IH; assumption.
Qed.

(** X15: on a memory whose rows have the length of the key, the [lookup]
    written into the loader returns what the writer's [lookup] returns;
    unlike the writer's, it raises [IndexError] for every memory and key
    such that some address is within the radius of the key and the row
    of that address is longer than the key. *)
Theorem loader_lookup_agrees (sdm : SDM) (key_vector : list Z)
    (Hrows : rows_of_length sdm (length key_vector)) :
  sdm_loader_no_deps.lookup (loaded sdm) key_vector = lookup sdm key_vector
  /\ forall (sdm_l : sdm_loader_no_deps.SDM) (short_key key row : list Z)
            (i : nat),
       sdm_loader_no_deps.keys sdm_l !! i = Some key ->
       sdm_loader_no_deps.data sdm_l !! i = Some row ->
       hamming_distance key short_key <= sdm_loader_no_deps.radius sdm_l ->
       (length short_key < length row)%nat ->
       sdm_loader_no_deps.lookup sdm_l short_key = Raise IndexError.
Proof.
  split.
  - unfold sdm_loader_no_deps.lookup, lookup.
    pose proof (loader_lookup_rows sdm key_vector Hrows (length (keys sdm)) 0
                  (repeat 0 (length key_vector)) eq_refl) as H.
    rewrite drop_0 in H. cbn [loaded sdm_loader_no_deps.keys] in *.
    now rewrite H.
  - intros sdm_l short_key key row i Hkey Hrow Hd Hlen.
    unfold sdm_loader_no_deps.lookup.
    rewrite (loader_lookup_rows_long sdm_l short_key);
      [reflexivity|apply repeat_length|].
    exists i, key, row. split; [exact Hkey|]. split; [exact Hrow|].
    split; assumption.
Qed.

Lemma loader_lookup_agrees_witness :
  rows_of_length example_memory (length [0; 1; 1; 0])
  /\ sdm_loader_no_deps.lookup (loaded example_memory) [0; 1; 1; 0]
     = Ok [1; 0; 0; 0]
  /\ hamming_distance [0; 1; 1; 0] [1; 0; 0] = 3
  /\ sdm_loader_no_deps.lookup (loaded example_memory) [1; 0; 0]
     = Raise IndexError.
Proof.
  assert (H : rows_of_length example_memory (length [0; 1; 1; 0])).
  { intros i Hi. cbn in Hi.
    destruct i as [|[|i]]; [| |lia]; eexists; (split; reflexivity). }
  split; [exact H|]. split; [|split; [reflexivity|]].
  - rewrite (proj1 (loader_lookup_agrees example_memory [0; 1; 1; 0] H)).
    reflexivity.
  - apply (proj2 (loader_lookup_agrees example_memory [0; 1; 1; 0] H)
             (loaded example_memory) [1; 0; 0] [1; 1; 0; 0] [-1; 0; 3; -2]
             1%nat);
      [reflexivity|reflexivity|vm_compute; discriminate|cbn; lia].
Defined.

(** ** One file of one chunk, from ingestion to reconstruction *)

Lemma file_to_binary_length (byte_data : list Z) :
  len (file_to_binary byte_data) = 8 * len byte_data.
Proof.
  rewrite file_to_binary_concat. unfold len.
  induction byte_data as [|b bs IH]; [reflexivity|].
  cbn [map concat length]. rewrite length_app. cbn [byte_bits map length]. lia.
Qed.

Lemma file_to_binary_bits (byte_data : list Z) :
  Forall is_bit (file_to_binary byte_data).
Proof.
  rewrite file_to_binary_concat.
  induction byte_data as [|b bs IH]; [constructor|].
  cbn [map concat]. apply Forall_app. split; [apply byte_bits_are_bits|exact IH].
Qed.

Lemma binary_to_file_of_bytes (byte_data : list Z) :
  Forall is_byte byte_data ->
  binary_to_file (file_to_binary byte_data) = Ok byte_data.
Proof.
  intros Hb. rewrite file_to_binary_concat, binary_to_file_groups.
  - now apply pack_groups_bytes.
  - apply Forall_map, Forall_forall. intros b _. reflexivity.
Qed.

Lemma random_vector_spec `{Random} (k : nat) :
  (forall g, is_bit (fst (randint 0 1 g))) ->
  forall g, length (fst (random_vector k g)) = k
            /\ Forall is_bit (fst (random_vector k g)).
Proof.
  intros Hgen. induction k as [|k IH]; intros g; [split; [reflexivity|constructor]|].
  cbn [random_vector]. specialize (Hgen g).
  destruct (randint 0 1 g) as [x g1]. specialize (IH g1).
  destruct (random_vector k g1) as [xs g2]. cbn [fst length] in *.
  destruct IH as [IH1 IH2]. split; [now rewrite IH1|now constructor].
Qed.

Lemma random_matrix_spec `{Random} (k m : nat) :
  (forall g, is_bit (fst (randint 0 1 g))) ->
  forall g, Forall (fun row => length row = m /\ Forall is_bit row)
                   (fst (random_matrix k m g)).
Proof.
  intros Hgen. induction k as [|k IH]; intros g; [constructor|].
  cbn [random_matrix]. pose proof (random_vector_spec m Hgen g) as Hrow.
  destruct (random_vector m g) as [row g1]. specialize (IH g1).
  destruct (random_matrix k m g1) as [rows g2]. cbn [fst] in *.
  now constructor.
Qed.

Lemma map_const_range {A : Type} (c : A) (k : Z) :
  map (fun _ => c) (range k) = repeat c (Z.to_nat k).
Proof.
  unfold range. rewrite map_map. generalize 0%nat.
  induction (Z.to_nat k) as [|m IH]; intros s; [reflexivity|].
  cbn [seq map repeat]. now rewrite IH.
Qed.

Lemma SDM_init_fresh `{Random} (p_ n_ seed_ : Z) (sdm : SDM) (g : rng) :
  SDM_init p_ n_ seed_ = Ok (sdm, g) ->
  fresh sdm (Z.to_nat n_) /\ length (keys sdm) = Z.to_nat p_.
Proof.
  intros Hinit. pose proof (SDM_init_keys _ _ _ _ _ Hinit) as Hk.
  assert (Hlen : length (keys sdm) = Z.to_nat p_).
  { rewrite Hk. apply random_matrix_length. }
  split; [|exact Hlen]. unfold fresh. rewrite Hlen.
  unfold SDM_init in Hinit.
  destruct (random_matrix (Z.to_nat p_) (Z.to_nat n_) (seed seed_)) as [ks g'].
  destruct (init_radius n_) as [r|e]; cbn [bind] in Hinit; [|discriminate].
  injection Hinit as <- _. cbn [data].
  now rewrite (map_const_range 0 n_), map_const_range.
Qed.

Lemma single_chunk (binary_data : list Z) (chunk_size : Z) :
  0 < len binary_data <= chunk_size ->
  chunk_binary_data binary_data chunk_size
  = Ok [binary_data ++ list_mul 0 (chunk_size - len binary_data)].
Proof.
  intros Hsize.
  destruct (chunk_binary_data_spec binary_data chunk_size ltac:(lia))
    as [chunks [H1 [H2 [H3 [H4 H5]]]]].
  assert (Hone : len chunks = 1).
  { rewrite H3. destruct (Z.eq_dec (len binary_data) chunk_size) as [->|Hne].
    - rewrite Z.div_same, Z.mod_same by lia. reflexivity.
    - rewrite Z.div_small, Z.mod_small by lia.
      destruct (Z.gtb_spec (len binary_data) 0); lia. }
  destruct chunks as [|chunk [|chunk' chunks]]; unfold len in Hone;
    cbn [length] in Hone; try lia.
  rewrite H1. cbn [concat] in H5. rewrite app_nil_r in H5.
  unfold len in H5 at 1. cbn [length] in H5.
  replace (Z.of_nat 1 * chunk_size) with chunk_size in H5 by lia.
  now rewrite H5.
Qed.

Lemma entered_rows (sdm : SDM) (key_vector pattern : list Z) :
  fresh sdm (length pattern) -> Forall is_bit pattern ->
  Forall (fun row => len row = len pattern /\ Forall in_signed_byte row)
         (entered sdm key_vector pattern).
Proof.
  intros Hf Hbits. unfold entered. rewrite Hf.
  apply Forall_forall. intros row Hrow.
  apply list_elem_of_lookup in Hrow as [i Hi].
  rewrite list_lookup_imap in Hi.
  destruct (repeat (repeat 0 (length pattern)) (length (keys sdm)) !! i)
    as [row0|] eqn:Hr; [|discriminate].
  assert (row0 = repeat 0 (length pattern)) as ->.
  { apply list_elem_of_lookup_2, list_elem_of_In, repeat_spec in Hr. exact Hr. }
  cbn in Hi. injection Hi as <-.
  assert (Hzero : Forall in_signed_byte (repeat 0 (length pattern))).
  { apply Forall_forall. intros v Hv.
    apply list_elem_of_In, repeat_spec in Hv. subst v.
    unfold in_signed_byte. lia. }
  destruct (in_radius sdm key_vector i).
  - split.
    + unfold len. rewrite length_vote_row; rewrite repeat_length; lia.
    + unfold vote_row. rewrite drop_ge by (rewrite repeat_length; lia).
      rewrite app_nil_r. clear Hf Hr Hzero.
      induction Hbits as [|b pattern Hb _ IH]; [constructor|].
      cbn [length repeat zip_with]. constructor; [|exact IH].
      unfold in_signed_byte, vote. destruct (b =? 1); lia.
  - split; [unfold len; now rewrite repeat_length|exact Hzero].
Qed.

Lemma load_keys_encoded (keys : list (list Z)) (chunk_size : Z) :
  0 < chunk_size -> Forall (fun key => len key = chunk_size) keys ->
  Forall (Forall is_bit) keys ->
  sdm_loader_no_deps.load_keys (concat (map run_length_encode_packed keys))
    chunk_size = Ok keys.
Proof.
  intros Hsize Hlen Hbits.
  unfold sdm_loader_no_deps.load_keys, run_length_decode_packed.
  pose proof (decode_loop_rle_keys keys [] Hbits) as Hd. cbn [app] in Hd.
  rewrite len_mod2_even, (decode_loop_even _ _ _ Hd), Hd. cbn [negb bind].
  now apply chunks_of_concat.
Qed.

Lemma load_data_encoded (data : list (list Z)) (chunk_size : Z) :
  0 < chunk_size -> Forall (fun row => len row = chunk_size) data ->
  Forall in_signed_byte (concat data) ->
  sdm_loader_no_deps.load_data (map to_unsigned_byte (concat data)) chunk_size
  = Ok data.
Proof.
  intros Hsize Hlen Hrange.
  unfold sdm_loader_no_deps.load_data. rewrite map_map.
  replace (map (fun x => sdm_loader_no_deps.to_signed (to_unsigned_byte x))
               (concat data)) with (concat data).
  - now apply chunks_of_concat.
  - induction Hrange as [|v l Hv _ IH]; [reflexivity|].
    cbn [map]. now rewrite to_signed_unsigned, <- IH.
Qed.

Lemma loader_lookup_eq (sdm : SDM) (key_vector : list Z) :
  rows_of_length sdm (length key_vector) ->
  sdm_loader_no_deps.lookup (loaded sdm) key_vector = lookup sdm key_vector.
Proof.
  intros Hrows. unfold sdm_loader_no_deps.lookup, lookup.
  pose proof (loader_lookup_rows sdm key_vector Hrows (length (keys sdm)) 0
                (repeat 0 (length key_vector)) eq_refl) as H.
  rewrite drop_0 in H. cbn [loaded sdm_loader_no_deps.keys] in *.
  now rewrite H.
Qed.

(** X16: end to end, for one file that fits one chunk.  On the memory
    [SDM(p, n)] with at least one address, a file of at least one byte
    and at most [n] bits is ingested without error, the two blobs of the
    bundle load back as the arrays of the memory, and the loader's
    [reconstruct_file] returns the bits and writes the bytes of the
    file. *)
Theorem single_chunk_end_to_end `{Random} (p_ n_ : Z) (byte_data : list Z)
    (sdm : SDM) (g : rng)
    (Hgen : forall g, is_bit (fst (randint 0 1 g)))
    (Hp : 1 <= p_)
    (Hinit : SDM_init p_ n_ default_seed = Ok (sdm, g))
    (Hradius : 0 <= radius sdm)
    (Hbytes : Forall is_byte byte_data)
    (Hsize : 0 < 8 * len byte_data <= n_) :
  exists sdm' info,
    process_file sdm byte_data n_ = Ok (sdm', info)
    /\ original_length info = 8 * len byte_data
    /\ exists keys_bytes data_bytes,
         encode_keys (keys sdm') = Ok keys_bytes
         /\ encode_data (data sdm') = Ok data_bytes
         /\ sdm_loader_no_deps.load_sdm keys_bytes data_bytes (radius sdm') n_
            = Ok (loaded sdm')
         /\ sdm_loader_no_deps.reconstruct_file (loaded sdm') (chunk_keys info)
              (original_length info)
            = Ok (file_to_binary byte_data, byte_data).
Proof.
  set (bits := file_to_binary byte_data).
  pose proof (file_to_binary_length byte_data) as HL. fold bits in HL.
  pose proof (file_to_binary_bits byte_data) as Hbits. fold bits in Hbits.
  set (chunk := bits ++ list_mul 0 (n_ - len bits)).
  assert (Hchunk : chunk_binary_data bits n_ = Ok [chunk]).
  { apply single_chunk. lia. }
  assert (Hclen : length chunk = Z.to_nat n_).
  { unfold chunk, list_mul. rewrite length_app, repeat_length.
    unfold len in *. lia. }
  assert (Hcbits : Forall is_bit chunk).
  { apply Forall_app. split; [exact Hbits|].
    apply Forall_forall. intros v Hv. unfold list_mul in Hv.
    apply list_elem_of_In, repeat_spec in Hv. subst v. now left. }
  destruct (SDM_init_fresh _ _ _ _ _ Hinit) as [Hfresh Hklen].
  pose proof (SDM_init_keys _ _ _ _ _ Hinit) as Hkeys.
  pose proof (random_matrix_spec (Z.to_nat p_) (Z.to_nat n_) Hgen
                (seed default_seed)) as Hrows.
  rewrite <- Hkeys in Hrows.
  (* the key of the chunk is the first address *)
  destruct (lookup_lt_is_Some_2 (keys sdm) 0 ltac:(lia)) as [key0 Hkey0].
  assert (Hgk : generate_key_vectors 1 n_ 42
                = ([key0], snd (generate_key_vectors 1 n_ 42))).
  { pose proof (random_matrix_prefix (Z.to_nat n_) 1 (Z.to_nat p_)
                  (seed default_seed) 0 ltac:(lia) ltac:(lia)) as Hpre.
    rewrite <- Hkeys, Hkey0 in Hpre.
    pose proof (random_matrix_length (Z.to_nat n_) 1 (seed default_seed)) as Hl1.
    unfold generate_key_vectors. change (Z.to_nat 1) with 1%nat.
    change 42 with default_seed.
    destruct (random_matrix 1 (Z.to_nat n_) (seed default_seed)) as [ks g1].
    cbn [fst snd] in *. destruct ks as [|k0 [|k1 ks]]; try discriminate.
    cbn in Hpre. now injection Hpre as ->. }
  assert (Hk0 : length key0 = Z.to_nat n_ /\ Forall is_bit key0).
  { rewrite Forall_forall in Hrows. apply Hrows.
    eapply list_elem_of_lookup_2, Hkey0. }
  destruct Hk0 as [Hk0len Hk0bits].
  rewrite <- Hclen in Hfresh.
  set (sdm' := {| p := p sdm; n := n sdm; keys := keys sdm;
                  data := entered sdm key0 chunk; radius := radius sdm |}).
  assert (Henter : enter sdm key0 chunk = Ok sdm').
  { apply enter_entered. now apply fresh_covers. }
  assert (Hnear : existsb (in_radius sdm key0) (seq 0 (length (keys sdm))) = true).
  { apply existsb_exists. exists 0%nat. split; [apply in_seq; lia|].
    unfold in_radius. rewrite Hkey0, hamming_distance_self.
    now apply Z.leb_le. }
  assert (Hlookup : lookup sdm' key0 = Ok chunk).
  { unfold sdm'. rewrite fresh_recall by (assumption || lia).
    now rewrite Hnear. }
  pose proof (entered_rows sdm key0 chunk Hfresh Hcbits) as Hrows'.
  exists sdm', {| chunk_keys := [run_length_encode_packed key0];
                  original_length := len bits |}.
  split.
  { unfold process_file. fold bits. rewrite Hchunk. cbn [bind].
    change (len [chunk]) with 1. rewrite Hgk.
    cbn [zip zip_with enter_all]. rewrite Henter. cbn [bind encode_chunk_keys].
    rewrite (bytes_ok _ (rle_bytes key0 Hk0bits)). reflexivity. }
  split; [exact HL|].
  exists (concat (map run_length_encode_packed (keys sdm))),
         (map to_unsigned_byte (concat (entered sdm key0 chunk))).
  assert (Hkbits : Forall (Forall is_bit) (keys sdm)).
  { eapply Forall_impl; [exact Hrows|]. intros row [_ Hr]. exact Hr. }
  assert (Hrange : Forall in_signed_byte (concat (entered sdm key0 chunk))).
  { apply Forall_concat. eapply Forall_impl; [exact Hrows'|].
    intros row [_ Hr]. exact Hr. }
  split; [now apply encode_keys_ok|]. split; [now apply encode_data_ok|].
  split.
  { unfold sdm_loader_no_deps.load_sdm. cbn [keys data radius sdm'].
    rewrite load_keys_encoded; [|lia| |assumption].
    - cbn [bind]. rewrite load_data_encoded; [reflexivity|lia| |assumption].
      eapply Forall_impl; [exact Hrows'|]. intros row [Hr _].
      unfold len in *. cbn beta. lia.
    - eapply Forall_impl; [exact Hrows|]. intros row [Hr _].
      unfold len. cbn beta. lia. }
  unfold sdm_loader_no_deps.reconstruct_file.
  cbn [chunk_keys original_length sdm_loader_no_deps.reconstruct_loop].
  rewrite (rle_round_trip key0 Hk0bits). cbn [bind].
  rewrite loader_lookup_eq.
  - rewrite Hlookup. cbn [bind app].
    assert (Hslice : slice chunk 0 (len bits) = bits).
    { unfold slice, chunk, len. change (Z.to_nat 0) with 0%nat.
      rewrite drop_0, Nat.sub_0_r, Nat2Z.id. apply take_app_length. }
    rewrite Hslice. unfold bits. rewrite binary_to_file_of_bytes by assumption.
    reflexivity.
  - intros i Hi. cbn [keys data sdm'] in *.
    destruct (lookup_lt_is_Some_2 (entered sdm key0 chunk) i) as [row Hrow].
    { unfold entered. rewrite length_imap, Hfresh, repeat_length. exact Hi. }
    exists row. split; [exact Hrow|].
    rewrite Forall_forall in Hrows'.
    destruct (Hrows' row (list_elem_of_lookup_2 _ _ _ Hrow)) as [Hr _].
    unfold len in Hr. lia.
Qed.

Lemma lcg_bits : forall g, is_bit (fst (randint (Random := lcg) 0 1 g)).
Proof.
  intros g. cbn [randint lcg fst].
  set (x := ((1103515245 * g + 12345) mod 2147483648) / 65536).
  pose proof (Z.mod_pos_bound x (1 - 0 + 1) ltac:(lia)). unfold is_bit. lia.
Qed.

Lemma single_chunk_end_to_end_witness :
  (forall g, is_bit (fst (randint (Random := lcg) 0 1 g)))
  /\ 1 <= 2 /\ Forall is_byte [165] /\ 0 < 8 * len [165] <= 16
  /\ exists sdm g,
       SDM_init (H := lcg) 2 16 default_seed = Ok (sdm, g)
       /\ 0 <= radius sdm
       /\ exists sdm' info,
            process_file (H := lcg) sdm [165] 16 = Ok (sdm', info)
            /\ sdm_loader_no_deps.reconstruct_file (loaded sdm')
                 (chunk_keys info) (original_length info)
               = Ok (file_to_binary [165], [165]).
Proof.
  assert (H2 : 1 <= 2) by lia.
  assert (H3 : Forall is_byte [165]).
  { repeat constructor; unfold is_byte; lia. }
  assert (H4 : 0 < 8 * len [165] <= 16) by (unfold len; cbn [length]; lia).
  split; [exact lcg_bits|]. split; [exact H2|]. split; [exact H3|].
  split; [exact H4|].
  assert (Hinit : SDM_init (H := lcg) 2 16 default_seed
                  = Ok ({| p := 2; n := 16;
                           keys := fst (random_matrix (H := lcg) 2 16 default_seed);
                           data := [repeat 0 16; repeat 0 16];
                           radius := 7 |},
                        snd (random_matrix (H := lcg) 2 16 default_seed)))
    by (vm_compute; reflexivity).
  eexists. eexists. split; [exact Hinit|].
  assert (Hr : 0 <= 7) by lia. split; [exact Hr|].
  destruct (single_chunk_end_to_end (H := lcg) 2 16 [165] _ _ lcg_bits H2
              Hinit Hr H3 H4)
    as [sdm' [info [Hp [_ [kb [db [_ [_ [_ Hrec]]]]]]]]].
  exists sdm', info. split; assumption.
Defined.

(** ** Edge cases of the chunking *)

(** X17: a chunk size of zero raises [ZeroDivisionError]; a negative
    chunk size raises nothing and returns no chunk at all, whatever the
    payload; an empty payload gives no chunk for every non-zero size. *)
Theorem chunk_binary_data_edge_cases (binary_data : list Z) (chunk_size : Z) :
  chunk_binary_data binary_data 0 = Raise ZeroDivisionError
  /\ (chunk_size < 0 -> chunk_binary_data binary_data chunk_size = Ok [])
  /\ (chunk_size <> 0 -> chunk_binary_data [] chunk_size = Ok []).
Proof.
  split; [reflexivity|]. split.
  - intros Hneg. unfold chunk_binary_data.
    destruct (Z.eqb_spec chunk_size 0) as [|_]; [lia|].
    pose proof (Z.div_mod (len binary_data) chunk_size ltac:(lia)) as Hdm.
    pose proof (Z.mod_neg_bound (len binary_data) chunk_size Hneg) as Hm.
    assert (Hq : len binary_data / chunk_size <= 0).
    { unfold len in *. nia. }
    destruct (Z.gtb_spec (len binary_data mod chunk_size) 0); [lia|].
    unfold range. replace (Z.to_nat (len binary_data / chunk_size)) with 0%nat by lia.
    reflexivity.
  - intros Hnz. unfold chunk_binary_data.
    destruct (Z.eqb_spec chunk_size 0) as [|_]; [lia|].
    change (len []) with 0. rewrite Z.div_0_l, Z.mod_0_l by lia. reflexivity.
Qed.

(** ** Writes and reads of sdmTest.py *)


Lemma sdmTest_enter_rows_seq (sdm : sdmTest.SDM) (addressVector : list Z) :
  length addressVector = Z.to_nat (sdmTest.n sdm) ->
  forall m k data,
    (forall i, (k <= i < k + m)%nat ->
       (exists address, sdmTest.addresses sdm !! i = Some address
                        /\ (length address <= length addressVector)%nat)
       /\ exists l, (length <$> data) !! i = Some l
                    /\ (length addressVector <= l)%nat) ->
    exists data',
      sdmTest.enter_rows sdm addressVector (seq k m) data = Ok data'
      /\ length <$> data' = length <$> data
      /\ forall i, data' !! i
                   = (fun row => if in_window k m i
                                    && in_radius_sdmTest sdm addressVector i
                                 then vote_row addressVector row else row)
                       <$> data !! i.
Proof.
  intros Hav. induction m as [|m IH]; intros k data Hwf.
  - exists data. split; [reflexivity|]. split; [reflexivity|].
    intros i. destruct (data !! i); cbn [fmap option_fmap option_map];
      [|reflexivity]. window.
  - cbn [seq sdmTest.enter_rows].
    destruct (Hwf k ltac:(lia)) as [[address [Haddr Hal]] [l [Hl Hdv]]].
    rewrite (getitem_Some _ _ _ Haddr). cbn [bind].
    destruct (hamming_distance_indexed_total address addressVector Hal)
      as [h Hh].
    unfold sdmTest.hamming_distance. rewrite Hh. cbn [bind].
    assert (Hin : in_radius_sdmTest sdm addressVector k
                  = int_le_float h (sdmTest.radius sdm)).
    { unfold in_radius_sdmTest, sdmTest.hamming_distance.
      now rewrite Haddr, Hh. }
    rewrite list_lookup_fmap in Hl.
    destruct (data !! k) as [row|] eqn:Hrow; [|discriminate].
    cbn in Hl. injection Hl as <-.
    destruct (int_le_float h (sdmTest.radius sdm)).
    + unfold sdmTest.enter_cols. rewrite <- Hav.
      rewrite (enter_cols_vote_row addressVector k data row Hrow Hdv).
      cbn [bind].
      assert (Hshape : length <$> <[k := vote_row addressVector row]> data
                       = length <$> data).
      { rewrite list_fmap_insert, length_vote_row by assumption.
        apply list_insert_id. now rewrite list_lookup_fmap, Hrow. }
      destruct (IH (S k) (<[k := vote_row addressVector row]> data))
        as [data' [H1 [H2 H3]]].
      { intros i Hi. rewrite Hshape. apply Hwf. lia. }
      exists data'. split; [exact H1|]. split; [now rewrite H2|].
      intros i. rewrite H3.
      assert (Hkd : (k < length data)%nat) by (eapply lookup_lt_Some; eauto).
      destruct (Nat.eq_dec i k) as [->|Hne].
      * rewrite list_lookup_insert_eq by lia. rewrite Hrow, Hin.
        cbn [fmap option_fmap option_map]. window.
      * rewrite list_lookup_insert_ne by lia.
        destruct (data !! i); cbn [fmap option_fmap option_map]; [|reflexivity].
        window.
    + destruct (IH (S k) data) as [data' [H1 [H2 H3]]].
      { intros i Hi. apply Hwf. lia. }
      exists data'. split; [exact H1|]. split; [exact H2|].
      intros i. rewrite H3.
      destruct (data !! i) eqn:Hi; cbn [fmap option_fmap option_map];
        [|reflexivity].
      destruct (Nat.eq_dec i k) as [->|Hne].
      * rewrite Hin. rewrite andb_false_r. window.
      * window.
Qed.

Lemma in_radius_sdmTest_out_of_range (sdm : sdmTest.SDM) (av : list Z) (i : nat) :
  (length (sdmTest.addresses sdm) <= i)%nat -> in_radius_sdmTest sdm av i = false.
Proof. intros Hi. unfold in_radius_sdmTest. now rewrite lookup_ge_None_2. Qed.

Lemma fresh_sdmTest_rows (sdm : sdmTest.SDM) (i : nat) :
  fresh_sdmTest sdm -> (i < Z.to_nat (sdmTest.p sdm))%nat ->
  (exists address, sdmTest.addresses sdm !! i = Some address
                   /\ length address = Z.to_nat (sdmTest.n sdm))
  /\ sdmTest.data sdm !! i = Some (repeat 0 (Z.to_nat (sdmTest.n sdm))).
Proof.
  intros [Hp [Hn Hd]] Hi. split.
  - destruct (lookup_lt_is_Some_2 (sdmTest.addresses sdm) i ltac:(lia))
      as [address Ha].
    exists address. split; [exact Ha|]. rewrite Forall_forall in Hn.
    apply Hn. eapply list_elem_of_lookup_2, Ha.
  - rewrite Hd. now apply lookup_repeat.
Qed.

Lemma sdmTest_enter_entered (sdm : sdmTest.SDM) (addressVector : list Z) :
  fresh_sdmTest sdm -> length addressVector = Z.to_nat (sdmTest.n sdm) ->
  sdmTest.enter sdm addressVector
  = Ok {| sdmTest.p := sdmTest.p sdm; sdmTest.n := sdmTest.n sdm;
          sdmTest.addresses := sdmTest.addresses sdm;
          sdmTest.data := entered_sdmTest sdm addressVector;
          sdmTest.radius := sdmTest.radius sdm |}.
Proof.
  intros Hf Hav. unfold sdmTest.enter.
  destruct (sdmTest_enter_rows_seq sdm addressVector Hav
              (Z.to_nat (sdmTest.p sdm)) 0 (sdmTest.data sdm))
    as [data' [H1 [H2 H3]]].
  { intros i Hi.
    destruct (fresh_sdmTest_rows sdm i Hf ltac:(lia)) as [[address [Ha Hl]] Hrow].
    split; [exists address; split; [exact Ha|lia]|].
    exists (Z.to_nat (sdmTest.n sdm)). rewrite list_lookup_fmap, Hrow.
    cbn. rewrite repeat_length. split; [reflexivity|lia]. }
  rewrite H1. cbn [bind]. do 2 f_equal. apply list_eq. intros i.
  rewrite H3. unfold entered_sdmTest. rewrite list_lookup_imap.
  destruct (sdmTest.data sdm !! i); cbn [fmap option_fmap option_map];
    [|reflexivity].
  f_equal. destruct (in_window 0 (Z.to_nat (sdmTest.p sdm)) i) eqn:E;
    [reflexivity|].
  apply in_window_false in E. destruct Hf as [Hp _].
  rewrite in_radius_sdmTest_out_of_range by lia. reflexivity.
Qed.

Lemma counter_entered_sdmTest (sdm : sdmTest.SDM) (addressVector : list Z)
    (i j : nat) :
  fresh_sdmTest sdm -> length addressVector = Z.to_nat (sdmTest.n sdm) ->
  (j < Z.to_nat (sdmTest.n sdm))%nat ->
  in_radius_sdmTest sdm addressVector i = true ->
  counter (entered_sdmTest sdm addressVector) i j
  = vote (default 0 (addressVector !! j)) 0.
Proof.
  intros Hf Hav Hj Hin.
  assert (Hi : (i < Z.to_nat (sdmTest.p sdm))%nat).
  { destruct (Nat.lt_ge_cases i (Z.to_nat (sdmTest.p sdm))) as [|Hge];
      [assumption|].
    destruct Hf as [Hp _].
    rewrite in_radius_sdmTest_out_of_range in Hin by lia. discriminate. }
  destruct (fresh_sdmTest_rows sdm i Hf Hi) as [_ Hrow].
  unfold counter, entered_sdmTest. rewrite list_lookup_imap, Hrow.
  cbn [fmap option_fmap option_map]. rewrite Hin.
  rewrite vote_row_lookup by (rewrite repeat_length; lia).
  rewrite lookup_repeat by assumption.
  cbn [fmap option_fmap option_map default from_option id].
  rewrite Hav. window.
Qed.

Lemma entered_sdmTest_well_shaped (sdm : sdmTest.SDM) (addressVector : list Z) :
  fresh_sdmTest sdm -> length addressVector = Z.to_nat (sdmTest.n sdm) ->
  well_shaped
    {| sdmTest.p := sdmTest.p sdm; sdmTest.n := sdmTest.n sdm;
       sdmTest.addresses := sdmTest.addresses sdm;
       sdmTest.data := entered_sdmTest sdm addressVector;
       sdmTest.radius := sdmTest.radius sdm |} addressVector.
Proof.
  intros Hf Hav i Hi. cbn [sdmTest.p sdmTest.n sdmTest.addresses sdmTest.data] in *.
  destruct (fresh_sdmTest_rows sdm i Hf Hi) as [[address [Ha Hl]] Hrow].
  exists address. eexists. split; [exact Ha|]. split; [lia|].
  unfold entered_sdmTest. rewrite list_lookup_imap, Hrow.
  cbn [fmap option_fmap option_map]. split; [reflexivity|].
  destruct (in_radius_sdmTest sdm addressVector i).
  - rewrite length_vote_row; rewrite repeat_length; lia.
  - rewrite repeat_length. lia.
Qed.

Lemma sdmTest_threshold_vote_count (b c : Z) :
  is_bit b -> 0 <= c ->
  sdmTest.threshold (vote b 0 * c) = if 0 <? c then b else 1.
Proof.
  intros [-> | ->] Hc; unfold sdmTest.threshold.
  - change (vote 0 0) with (-1).
    destruct (Z.geb_spec (-1 * c) 0), (Z.ltb_spec 0 c); lia.
  - change (vote 1 0) with 1.
    destruct (Z.geb_spec (1 * c) 0), (Z.ltb_spec 0 c); lia.
Qed.

(** X18: in a memory of sdmTest.py as its constructor leaves it, writing
    an address vector of n bits and reading at the same vector returns
    the vector when at least one address lies within the radius; when
    none does, nothing was stored and the read returns all ones, since a
    sum of zero is read as 1. *)
Theorem sdmTest_fresh_recall (sdm : sdmTest.SDM) (addressVector : list Z)
    (Hfresh : fresh_sdmTest sdm)
    (Hlen : length addressVector = Z.to_nat (sdmTest.n sdm))
    (Hbits : Forall is_bit addressVector) :
  exists sdm',
    sdmTest.enter sdm addressVector = Ok sdm'
    /\ sdmTest.addresses sdm' = sdmTest.addresses sdm
    /\ sdmTest.lookup sdm' addressVector
       = Ok (if existsb (in_radius_sdmTest sdm addressVector)
                        (seq 0 (Z.to_nat (sdmTest.p sdm)))
             then addressVector else repeat 1 (length addressVector)).
Proof.
  eexists. split; [now apply sdmTest_enter_entered|]. split; [reflexivity|].
  destruct (sdmTest_lookup_spec _ addressVector
              (entered_sdmTest_well_shaped sdm addressVector Hfresh Hlen))
    as [out [Ho [Hol Hop]]].
  cbn [sdmTest.p sdmTest.n] in Hol, Hop.
  rewrite Ho. f_equal. apply list_eq. intros j.
  destruct (count_of_existsb (in_radius_sdmTest sdm addressVector)
              (seq 0 (Z.to_nat (sdmTest.p sdm)))) as [Hc0 Hc].
  destruct (Nat.lt_ge_cases j (Z.to_nat (sdmTest.n sdm))) as [Hj|Hj].
  - rewrite (Hop j Hj).
    assert (Hsum : accumulated_sum_sdmTest
                     {| sdmTest.p := sdmTest.p sdm; sdmTest.n := sdmTest.n sdm;
                        sdmTest.addresses := sdmTest.addresses sdm;
                        sdmTest.data := entered_sdmTest sdm addressVector;
                        sdmTest.radius := sdmTest.radius sdm |} addressVector j
                   = vote (default 0 (addressVector !! j)) 0
                     * count_of (in_radius_sdmTest sdm addressVector)
                                (seq 0 (Z.to_nat (sdmTest.p sdm)))).
    { unfold accumulated_sum_sdmTest. cbn [sdmTest.p sdmTest.data].
      rewrite <- Zsum_indicator. f_equal. apply map_ext. intros i.
      change (in_radius_sdmTest
                {| sdmTest.p := sdmTest.p sdm; sdmTest.n := sdmTest.n sdm;
                   sdmTest.addresses := sdmTest.addresses sdm;
                   sdmTest.data := entered_sdmTest sdm addressVector;
                   sdmTest.radius := sdmTest.radius sdm |} addressVector i)
        with (in_radius_sdmTest sdm addressVector i).
      destruct (in_radius_sdmTest sdm addressVector i) eqn:Hin; [|reflexivity].
      now apply counter_entered_sdmTest. }
    rewrite Hsum.
    destruct (lookup_lt_is_Some_2 addressVector j ltac:(lia)) as [b Hb].
    rewrite Hb. cbn [default from_option id].
    assert (Hbit : is_bit b).
    { rewrite Forall_forall in Hbits. apply Hbits.
      eapply list_elem_of_lookup_2, Hb. }
    rewrite sdmTest_threshold_vote_count by assumption. rewrite Hc.
    destruct (existsb _ _); [now rewrite Hb|].
    rewrite lookup_repeat by lia. reflexivity.
  - rewrite lookup_ge_None_2 by lia. symmetry.
    destruct (existsb _ _); apply lookup_ge_None_2;
      [lia|rewrite repeat_length; lia].
Qed.


Lemma sdmTest_fresh_recall_witness :
  fresh_sdmTest fresh_example_sdmTest
  /\ length [0; 1; 0; 0] = Z.to_nat (sdmTest.n fresh_example_sdmTest)
  /\ Forall is_bit [0; 1; 0; 0]
  /\ exists sdm',
       sdmTest.enter fresh_example_sdmTest [0; 1; 0; 0] = Ok sdm'
       /\ sdmTest.addresses sdm' = sdmTest.addresses fresh_example_sdmTest
       /\ sdmTest.lookup sdm' [0; 1; 0; 0] = Ok [0; 1; 0; 0].
Proof.
  assert (H1 : fresh_sdmTest fresh_example_sdmTest).
  { split; [reflexivity|]. split; [|reflexivity].
    repeat constructor. }
  assert (H2 : length [0; 1; 0; 0]
               = Z.to_nat (sdmTest.n fresh_example_sdmTest)) by reflexivity.
  assert (H3 : Forall is_bit [0; 1; 0; 0]).
  { repeat constructor; unfold is_bit; lia. }
  split; [exact H1|]. split; [exact H2|]. split; [exact H3|].
  exact (sdmTest_fresh_recall fresh_example_sdmTest _ H1 H2 H3).
Defined.

(** ** Writes and reads of sparse_malicious_memory.py *)


(** The inner loop of [enter] over the columns [k .. k+m-1] of row [i]. *)
Lemma enter_cols_m_seq (sdm : sparse_malicious_memory.SDM) (i : nat)
    (addrs : list (list Z)) (address : list Z) :
  sparse_malicious_memory.addresses sdm !! 0%nat = Some addrs ->
  addrs !! i = Some address ->
  forall m k data matrix row,
    data !! 0%nat = Some matrix -> matrix !! i = Some row ->
    (k + m <= length address)%nat -> (k + m <= length row)%nat ->
    exists row',
      sparse_malicious_memory.enter_cols sdm i (seq k m) data
      = Ok (<[0%nat := <[i := row']> matrix]> data)
      /\ length row' = length row
      /\ forall j, row' !! j
                   = (fun c => if in_window k m j
                               then vote (default 0 (address !! j)) c else c)
                       <$> row !! j.
Proof.
  intros Haddrs Haddr.
  induction m as [|m IH]; intros k data matrix row Hmat Hrow Ha Hr.
  - exists row. split; [|split; [reflexivity|]].
    + cbn. now rewrite (list_insert_id matrix), (list_insert_id data).
    + intros j. destruct (row !! j); cbn [fmap option_fmap option_map];
        [|reflexivity]. window.
  - cbn [seq sparse_malicious_memory.enter_cols].
    destruct (lookup_lt_is_Some_2 address k ltac:(lia)) as [bit Hbit].
    destruct (lookup_lt_is_Some_2 row k ltac:(lia)) as [c Hc].
    rewrite (getitem_Some _ _ _ Haddrs). cbn [bind].
    rewrite (getitem_Some _ _ _ Haddr). cbn [bind].
    rewrite (getitem_Some _ _ _ Hbit). cbn [bind].
    rewrite (getitem_Some _ _ _ Hmat). cbn [bind].
    rewrite (getitem_Some _ _ _ Hrow). cbn [bind].
    rewrite (getitem_Some _ _ _ Hc). cbn [bind].
    fold (vote bit c).
    assert (H0 : (0 < length data)%nat) by (eapply lookup_lt_Some; eauto).
    assert (Hi : (i < length matrix)%nat) by (eapply lookup_lt_Some; eauto).
    destruct (IH (S k) (<[0%nat := <[i := <[k := vote bit c]> row]> matrix]> data)
                (<[i := <[k := vote bit c]> row]> matrix)
                (<[k := vote bit c]> row)) as [row' [H1 [H2 H3]]].
    { now apply list_lookup_insert_eq. }
    { now apply list_lookup_insert_eq. }
    { lia. }
    { rewrite length_insert. lia. }
    exists row'. split; [|split].
    + rewrite H1, !list_insert_insert_eq. reflexivity.
    + now rewrite H2, length_insert.
    + intros j. rewrite H3.
      destruct (Nat.eq_dec j k) as [->|Hne].
      * rewrite list_lookup_insert_eq by lia. rewrite Hc, Hbit.
        cbn [fmap option_fmap option_map default from_option id]. window.
      * rewrite list_lookup_insert_ne by lia.
        destruct (row !! j); cbn [fmap option_fmap option_map]; [|reflexivity].
        window.
Qed.

Lemma enter_cols_m_vote_row (sdm : sparse_malicious_memory.SDM) (i : nat)
    (addrs : list (list Z)) (address : list Z)
    (data : list (list (list Z))) (matrix : list (list Z)) (row : list Z) :
  sparse_malicious_memory.addresses sdm !! 0%nat = Some addrs ->
  addrs !! i = Some address ->
  data !! 0%nat = Some matrix -> matrix !! i = Some row ->
  (length address <= length row)%nat ->
  sparse_malicious_memory.enter_cols sdm i (seq 0 (length address)) data
  = Ok (<[0%nat := <[i := vote_row address row]> matrix]> data).
Proof.
  intros Haddrs Haddr Hmat Hrow Hlen.
  destruct (enter_cols_m_seq sdm i addrs address Haddrs Haddr
              (length address) 0 data matrix row Hmat Hrow ltac:(lia) ltac:(lia))
    as [row' [H1 [H2 H3]]].
  rewrite H1. do 3 f_equal. apply list_eq. intros j.
  now rewrite H3, vote_row_lookup.
Qed.

Lemma in_radius_m_eq (sdm : sparse_malicious_memory.SDM)
    (addressVector : list Z) (addrs : list (list Z)) (address : list Z)
    (i : nat) (h : Z) :
  sparse_malicious_memory.addresses sdm !! 0%nat = Some addrs ->
  addrs !! i = Some address ->
  hamming_distance_indexed address
    (addressVector ++ list_mul 0 (len address - len addressVector)) = Ok h ->
  in_radius_m sdm addressVector i
  = int_le_float h (sparse_malicious_memory.radius sdm).
Proof.
  intros Haddrs Haddr Hh.
  unfold in_radius_m, sparse_malicious_memory.hamming_distance.
  now rewrite Haddrs, Haddr, Hh.
Qed.

Lemma in_radius_m_out_of_range (sdm : sparse_malicious_memory.SDM)
    (addressVector : list Z) (addrs : list (list Z)) (i : nat) :
  sparse_malicious_memory.addresses sdm !! 0%nat = Some addrs ->
  (length addrs <= i)%nat -> in_radius_m sdm addressVector i = false.
Proof.
  intros Haddrs Hi. unfold in_radius_m.
  now rewrite Haddrs, lookup_ge_None_2.
Qed.

Lemma padded_total (address addressVector : list Z) :
  exists h,
    hamming_distance_indexed address
      (addressVector ++ list_mul 0 (len address - len addressVector)) = Ok h.
Proof.
  apply hamming_distance_indexed_total.
  rewrite length_app. unfold list_mul, len. rewrite repeat_length. lia.
Qed.

(** The loop of [enter] over the rows [k .. k+m-1]. *)
Lemma enter_rows_m_seq (sdm : sparse_malicious_memory.SDM)
    (addressVector : list Z) (addrs : list (list Z)) :
  sparse_malicious_memory.addresses sdm !! 0%nat = Some addrs ->
  forall m k data matrix,
    data !! 0%nat = Some matrix ->
    (forall i, (k <= i < k + m)%nat ->
       exists address l,
         addrs !! i = Some address /\ (length <$> matrix) !! i = Some l
         /\ (length address <= l)%nat) ->
    exists matrix',
      sparse_malicious_memory.enter_rows sdm addressVector (seq k m) data
      = Ok (<[0%nat := matrix']> data)
      /\ length <$> matrix' = length <$> matrix
      /\ forall i, matrix' !! i
                   = (fun row => if in_window k m i
                                    && in_radius_m sdm addressVector i
                                 then vote_row (default [] (addrs !! i)) row
                                 else row)
                       <$> matrix !! i.
Proof.
  intros Haddrs. induction m as [|m IH]; intros k data matrix Hmat Hwf.
  - exists matrix. split; [cbn; now rewrite list_insert_id|].
    split; [reflexivity|]. intros i.
    destruct (matrix !! i); cbn [fmap option_fmap option_map]; [|reflexivity].
    window.
  - cbn [seq sparse_malicious_memory.enter_rows].
    destruct (Hwf k ltac:(lia)) as [address [l [Haddr [Hl Hal]]]].
    rewrite (getitem_Some _ _ _ Haddrs). cbn [bind].
    rewrite (getitem_Some _ _ _ Haddr). cbn [bind].
    destruct (padded_total address addressVector) as [h Hh].
    unfold sparse_malicious_memory.hamming_distance. rewrite Hh. cbn [bind].
    pose proof (in_radius_m_eq sdm addressVector addrs address k h
                  Haddrs Haddr Hh) as Hin.
    rewrite list_lookup_fmap in Hl.
    destruct (matrix !! k) as [row|] eqn:Hrow; [|discriminate].
    cbn in Hl. injection Hl as <-.
    assert (H0 : (0 < length data)%nat) by (eapply lookup_lt_Some; eauto).
    assert (Hkd : (k < length matrix)%nat) by (eapply lookup_lt_Some; eauto).
    destruct (int_le_float h (sparse_malicious_memory.radius sdm)).
    + rewrite (enter_cols_m_vote_row sdm k addrs address data matrix row
                 Haddrs Haddr Hmat Hrow Hal).
      cbn [bind].
      assert (Hshape : length <$> <[k := vote_row address row]> matrix
                       = length <$> matrix).
      { rewrite list_fmap_insert, length_vote_row by assumption.
        apply list_insert_id. now rewrite list_lookup_fmap, Hrow. }
      destruct (IH (S k) (<[0%nat := <[k := vote_row address row]> matrix]> data)
                  (<[k := vote_row address row]> matrix))
        as [matrix' [H1 [H2 H3]]].
      { now apply list_lookup_insert_eq. }
      { intros i Hi. rewrite Hshape. apply Hwf. lia. }
      exists matrix'. split; [now rewrite H1, list_insert_insert_eq|].
      split; [now rewrite H2|].
      intros i. rewrite H3.
      destruct (Nat.eq_dec i k) as [->|Hne].
      * rewrite list_lookup_insert_eq by lia. rewrite Hrow, Hin, Haddr.
        cbn [fmap option_fmap option_map default from_option id]. window.
      * rewrite list_lookup_insert_ne by lia.
        destruct (matrix !! i); cbn [fmap option_fmap option_map]; [|reflexivity].
        window.
    + destruct (IH (S k) data matrix Hmat) as [matrix' [H1 [H2 H3]]].
      { intros i Hi. apply Hwf. lia. }
      exists matrix'. split; [exact H1|]. split; [exact H2|].
      intros i. rewrite H3.
      destruct (matrix !! i) eqn:Hi; cbn [fmap option_fmap option_map];
        [|reflexivity].
      destruct (Nat.eq_dec i k) as [->|Hne].
      * rewrite Hin. rewrite andb_false_r. window.
      * window.
Qed.

Lemma enter_m_entered (sdm : sparse_malicious_memory.SDM)
    (addressVector : list Z) (addrs matrix : list (list Z)) :
  sparse_malicious_memory.addresses sdm !! 0%nat = Some addrs ->
  sparse_malicious_memory.data sdm !! 0%nat = Some matrix ->
  (forall i, (i < length addrs)%nat ->
     exists address row,
       addrs !! i = Some address /\ matrix !! i = Some row
       /\ (length address <= length row)%nat) ->
  sparse_malicious_memory.enter sdm addressVector
  = Ok {| sparse_malicious_memory.p := sparse_malicious_memory.p sdm;
          sparse_malicious_memory.n := sparse_malicious_memory.n sdm;
          sparse_malicious_memory.addresses :=
            sparse_malicious_memory.addresses sdm;
          sparse_malicious_memory.data :=
            <[0%nat := entered_m sdm addressVector addrs matrix]>
              (sparse_malicious_memory.data sdm);
          sparse_malicious_memory.radius :=
            sparse_malicious_memory.radius sdm |}.
Proof.
  intros Haddrs Hmat Hrows. unfold sparse_malicious_memory.enter.
  rewrite (getitem_Some _ _ _ Haddrs). cbn [bind].
  destruct (enter_rows_m_seq sdm addressVector addrs Haddrs (length addrs) 0
              (sparse_malicious_memory.data sdm) matrix Hmat)
    as [matrix' [H1 [H2 H3]]].
  { intros i Hi. destruct (Hrows i ltac:(lia)) as [address [row [Ha [Hr Hle]]]].
    exists address, (length row). split; [exact Ha|]. split; [|exact Hle].
    now rewrite list_lookup_fmap, Hr. }
  rewrite H1. cbn [bind]. do 3 f_equal. apply list_eq. intros i.
  rewrite H3. unfold entered_m. rewrite list_lookup_imap.
  destruct (matrix !! i); cbn [fmap option_fmap option_map]; [|reflexivity].
  f_equal. destruct (in_window 0 (length addrs) i) eqn:E; [reflexivity|].
  apply in_window_false in E.
  rewrite (in_radius_m_out_of_range sdm addressVector addrs i Haddrs) by lia.
  reflexivity.
Qed.

(** The inner loop of [lookup] over the columns [k .. k+m-1] of row [i]. *)
Lemma lookup_cols_m_seq (sdm : sparse_malicious_memory.SDM) (i : nat)
    (matrix : list (list Z)) (row : list Z) :
  sparse_malicious_memory.data sdm !! 0%nat = Some matrix ->
  matrix !! i = Some row ->
  forall m k retrieved,
    (k + m <= length retrieved)%nat -> (k + m <= length row)%nat ->
    exists out,
      sparse_malicious_memory.lookup_cols sdm i (seq k m) retrieved = Ok out
      /\ length out = length retrieved
      /\ forall j, out !! j
                   = (fun r => if in_window k m j
                               then r + default 0 (row !! j) else r)
                       <$> retrieved !! j.
Proof.
  intros Hmat Hrow. induction m as [|m IH]; intros k retrieved Hret Hlen.
  - exists retrieved. split; [reflexivity|]. split; [reflexivity|].
    intros j. destruct (retrieved !! j); cbn [fmap option_fmap option_map];
      [|reflexivity]. window.
  - cbn [seq sparse_malicious_memory.lookup_cols].
    destruct (lookup_lt_is_Some_2 retrieved k ltac:(lia)) as [r Hr].
    destruct (lookup_lt_is_Some_2 row k ltac:(lia)) as [c Hc].
    rewrite (getitem_Some _ _ _ Hr). cbn [bind].
    rewrite (getitem_Some _ _ _ Hmat). cbn [bind].
    rewrite (getitem_Some _ _ _ Hrow). cbn [bind].
    rewrite (getitem_Some _ _ _ Hc). cbn [bind].
    destruct (IH (S k) (<[k := r + c]> retrieved)) as [out [H1 [H2 H3]]].
    { rewrite length_insert. lia. }
    { lia. }
    exists out. split; [exact H1|]. split; [now rewrite H2, length_insert|].
    intros j. rewrite H3.
    destruct (Nat.eq_dec j k) as [->|Hne].
    + rewrite list_lookup_insert_eq by lia. rewrite Hr, Hc.
      cbn [fmap option_fmap option_map default from_option id]. window.
    + rewrite list_lookup_insert_ne by lia.
      destruct (retrieved !! j); cbn [fmap option_fmap option_map];
        [|reflexivity]. window.
Qed.

(** The loop of [lookup] over the rows, when every address and every row
    of counters has [n] entries. *)
Lemma lookup_rows_m_spec (sdm : sparse_malicious_memory.SDM)
    (addressVector : list Z) (addrs matrix : list (list Z)) (n : nat) :
  sparse_malicious_memory.addresses sdm !! 0%nat = Some addrs ->
  sparse_malicious_memory.data sdm !! 0%nat = Some matrix ->
  (forall i, (i < length addrs)%nat ->
     exists address row,
       addrs !! i = Some address /\ matrix !! i = Some row
       /\ length address = n /\ (n <= length row)%nat) ->
  forall is_ retrieved,
    Forall (fun i => (i < length addrs)%nat) is_ ->
    length retrieved = n ->
    exists out,
      sparse_malicious_memory.lookup_rows sdm addressVector is_ retrieved
      = Ok out
      /\ length out = n
      /\ forall j, (j < n)%nat ->
           out !! j
           = Some (default 0 (retrieved !! j)
                   + Zsum (map (fun i => if in_radius_m sdm addressVector i
                                         then counter matrix i j else 0)
                               is_)).
Proof.
  intros Haddrs Hmat Hwf.
  induction is_ as [|i is_ IH]; intros retrieved His Hlen.
  - exists retrieved. split; [reflexivity|]. split; [exact Hlen|].
    intros j Hj. cbn [map]. change (Zsum []) with 0.
    destruct (lookup_lt_is_Some_2 retrieved j ltac:(lia)) as [r Hr].
    rewrite Hr. cbn [default from_option id]. f_equal. lia.
  - apply Forall_cons in His as [Hi His].
    cbn [sparse_malicious_memory.lookup_rows].
    destruct (Hwf i Hi) as [address [row [Haddr [Hrow [Hal Hm]]]]].
    rewrite (getitem_Some _ _ _ Haddrs). cbn [bind].
    rewrite (getitem_Some _ _ _ Haddr). cbn [bind].
    destruct (padded_total address addressVector) as [h Hh].
    unfold sparse_malicious_memory.hamming_distance. rewrite Hh. cbn [bind].
    pose proof (in_radius_m_eq sdm addressVector addrs address i h
                  Haddrs Haddr Hh) as Hin.
    destruct (int_le_float h (sparse_malicious_memory.radius sdm)).
    + destruct (lookup_cols_m_seq sdm i matrix row Hmat Hrow
                  (length address) 0 retrieved ltac:(lia) ltac:(lia))
        as [acc [Ha [Hal' Hap]]].
      rewrite Ha. cbn [bind].
      destruct (IH acc His ltac:(lia)) as [out [Ho [Hol Hop]]].
      exists out. split; [exact Ho|]. split; [exact Hol|].
      intros j Hj. rewrite (Hop j Hj). cbn [map]. rewrite Zsum_cons, Hin.
      rewrite Hap. destruct (lookup_lt_is_Some_2 retrieved j ltac:(lia)) as [r Hr].
      rewrite Hr. cbn [fmap option_fmap option_map default from_option id].
      unfold counter at 2. rewrite Hrow. f_equal.
      destruct (in_window 0 (length address) j) eqn:E.
      * lia.
      * apply in_window_false in E. lia.
    + destruct (IH retrieved His Hlen) as [out [Ho [Hol Hop]]].
      exists out. split; [exact Ho|]. split; [exact Hol|].
      intros j Hj. rewrite (Hop j Hj). cbn [map]. rewrite Zsum_cons, Hin.
      f_equal; lia.
Qed.

(** The in-place conversion of the sums of the columns [k .. k+m-1]. *)
Lemma threshold_loop_m_seq :
  forall m k retrieved,
    (k + m <= length retrieved)%nat ->
    exists out,
      sparse_malicious_memory.threshold_loop (seq k m) retrieved = Ok out
      /\ length out = length retrieved
      /\ forall j, out !! j
                   = (fun x => if in_window k m j
                               then (if x >? 0 then 1 else 0) else x)
                       <$> retrieved !! j.
Proof.
  induction m as [|m IH]; intros k retrieved Hk.
  - exists retrieved. split; [reflexivity|]. split; [reflexivity|].
    intros j. destruct (retrieved !! j); cbn [fmap option_fmap option_map];
      [|reflexivity]. window.
  - cbn [seq sparse_malicious_memory.threshold_loop].
    destruct (lookup_lt_is_Some_2 retrieved k ltac:(lia)) as [x Hx].
    rewrite (getitem_Some _ _ _ Hx). cbn [bind].
    destruct (IH (S k) (<[k := if x >? 0 then 1 else 0]> retrieved))
      as [out [H1 [H2 H3]]].
    { rewrite length_insert. lia. }
    exists out. split; [exact H1|]. split; [now rewrite H2, length_insert|].
    intros j. rewrite H3.
    destruct (Nat.eq_dec j k) as [->|Hne].
    + rewrite list_lookup_insert_eq by lia. rewrite Hx.
      cbn [fmap option_fmap option_map]. window.
    + rewrite list_lookup_insert_ne by lia.
      destruct (retrieved !! j); cbn [fmap option_fmap option_map];
        [|reflexivity]. window.
Qed.

(** [lookup] of sparse_malicious_memory.py when every address and every
    row of counters has [n] entries and there is at least one address. *)
Lemma lookup_m_spec (sdm : sparse_malicious_memory.SDM)
    (addressVector : list Z) (addrs matrix : list (list Z)) (n : nat) :
  sparse_malicious_memory.addresses sdm !! 0%nat = Some addrs ->
  sparse_malicious_memory.data sdm !! 0%nat = Some matrix ->
  (0 < length addrs)%nat ->
  (forall i, (i < length addrs)%nat ->
     exists address row,
       addrs !! i = Some address /\ matrix !! i = Some row
       /\ length address = n /\ (n <= length row)%nat) ->
  sparse_malicious_memory.lookup sdm addressVector
  = Ok (map (fun j =>
               if Zsum (map (fun i => if in_radius_m sdm addressVector i
                                      then counter matrix i j else 0)
                            (seq 0 (length addrs))) >? 0
               then 1 else 0)
            (seq 0 n)).
Proof.
  intros Haddrs Hmat Hpos Hwf. unfold sparse_malicious_memory.lookup.
  rewrite (getitem_Some _ _ _ Haddrs). cbn [bind].
  destruct (Hwf 0%nat Hpos) as [address0 [row0 [Ha0 [_ [Hl0 _]]]]].
  rewrite (getitem_Some _ _ _ Ha0). cbn [bind]. rewrite Hl0.
  destruct (lookup_rows_m_spec sdm addressVector addrs matrix n Haddrs Hmat Hwf
              (seq 0 (length addrs)) (repeat 0 n) (Forall_seq_lt _)
              (repeat_length _ _)) as [sums [Hs [Hsl Hsp]]].
  rewrite Hs. cbn [bind].
  destruct (threshold_loop_m_seq (length sums) 0 sums ltac:(lia))
    as [out [Ho [Hol Hop]]].
  rewrite Ho. f_equal. apply list_eq. intros j.
  rewrite Hop, list_lookup_fmap.
  destruct (Nat.lt_ge_cases j n) as [Hj|Hj].
  - rewrite (Hsp j Hj), lookup_seq_lt by assumption.
    cbn [fmap option_fmap option_map]. rewrite (lookup_repeat 0 _ j Hj).
    cbn [default from_option id Nat.add]. rewrite Z.add_0_l.
    rewrite Hsl. window.
  - rewrite (lookup_ge_None_2 sums) by lia.
    rewrite lookup_seq_ge by lia. reflexivity.
Qed.

Lemma fresh_m_rows (sdm : sparse_malicious_memory.SDM)
    (addrs : list (list Z)) (n : nat) :
  fresh_m sdm addrs n ->
  sparse_malicious_memory.addresses sdm !! 0%nat = Some addrs
  /\ sparse_malicious_memory.data sdm !! 0%nat
     = Some (repeat (repeat 0 n) (length addrs))
  /\ forall i, (i < length addrs)%nat ->
       exists address,
         addrs !! i = Some address /\ length address = n
         /\ repeat (repeat 0 n) (length addrs) !! i = Some (repeat 0 n).
Proof.
  intros [Ha [_ [Hn Hd]]]. rewrite Ha, Hd. split; [reflexivity|].
  split; [reflexivity|]. intros i Hi.
  destruct (lookup_lt_is_Some_2 addrs i Hi) as [address Haddr].
  exists address. split; [exact Haddr|]. split.
  - rewrite Forall_forall in Hn. apply Hn. eapply list_elem_of_lookup_2, Haddr.
  - now apply lookup_repeat.
Qed.

Lemma counter_entered_m (sdm : sparse_malicious_memory.SDM)
    (addressVector : list Z) (addrs : list (list Z)) (n i j : nat) :
  fresh_m sdm addrs n -> (j < n)%nat ->
  in_radius_m sdm addressVector i = true ->
  counter (entered_m sdm addressVector addrs
             (repeat (repeat 0 n) (length addrs))) i j
  = vote (default 0 (default [] (addrs !! i) !! j)) 0.
Proof.
  intros Hf Hj Hin.
  destruct (fresh_m_rows sdm addrs n Hf) as [Haddrs [_ Hrows]].
  assert (Hi : (i < length addrs)%nat).
  { destruct (Nat.lt_ge_cases i (length addrs)) as [|Hge]; [assumption|].
    rewrite (in_radius_m_out_of_range sdm addressVector addrs i Haddrs) in Hin
      by lia. discriminate. }
  destruct (Hrows i Hi) as [address [Haddr [Hlen Hrow]]].
  unfold counter, entered_m. rewrite list_lookup_imap, Hrow.
  cbn [fmap option_fmap option_map]. rewrite Hin, Haddr.
  cbn [default from_option id].
  rewrite vote_row_lookup by (rewrite repeat_length; lia).
  rewrite lookup_repeat by assumption.
  cbn [fmap option_fmap option_map default from_option id].
  rewrite Hlen. window.
Qed.

(** A write into a fresh memory followed by a read at the same vector. *)
Lemma fresh_m_recall (sdm : sparse_malicious_memory.SDM)
    (addrs : list (list Z)) (n : nat) (addressVector : list Z) :
  fresh_m sdm addrs n ->
  exists sdm',
    sparse_malicious_memory.enter sdm addressVector = Ok sdm'
    /\ sparse_malicious_memory.lookup sdm' addressVector
       = Ok (map (fun j => if address_votes sdm addressVector addrs j >? 0
                           then 1 else 0)
                 (seq 0 n)).
Proof.
  intros Hf.
  destruct (fresh_m_rows sdm addrs n Hf) as [Haddrs [Hmat Hrows]].
  pose proof Hf as [_ [Hpos [_ Hdata]]].
  eexists. split.
  - apply (enter_m_entered sdm addressVector addrs _ Haddrs Hmat).
    intros i Hi. destruct (Hrows i Hi) as [address [Ha [Hl Hr]]].
    exists address, (repeat 0 n). split; [exact Ha|]. split; [exact Hr|].
    rewrite repeat_length. lia.
  - rewrite (lookup_m_spec _ addressVector addrs
               (entered_m sdm addressVector addrs
                  (repeat (repeat 0 n) (length addrs))) n).
    + f_equal. apply map_ext_in. intros j Hj. apply in_seq in Hj.
      unfold address_votes.
      replace (Zsum (map _ (seq 0 (length addrs))))
        with (Zsum (map (fun i => if in_radius_m sdm addressVector i
                                  then vote (default 0
                                               (default [] (addrs !! i) !! j)) 0
                                  else 0)
                        (seq 0 (length addrs)))); [reflexivity|].
      f_equal. apply map_ext. intros i.
      change (in_radius_m _ addressVector i)
        with (in_radius_m sdm addressVector i).
      destruct (in_radius_m sdm addressVector i) eqn:Hin; [|reflexivity].
      symmetry. apply (counter_entered_m sdm addressVector addrs n i j Hf);
        [lia|exact Hin].
    + exact Haddrs.
    + cbn [sparse_malicious_memory.data]. now rewrite Hdata.
    + exact Hpos.
    + intros i Hi. destruct (Hrows i Hi) as [address [Ha [Hl Hr]]].
      exists address. eexists. split; [exact Ha|].
      unfold entered_m. rewrite list_lookup_imap, Hr.
      cbn [fmap option_fmap option_map]. split; [reflexivity|].
      split; [exact Hl|].
      destruct (in_radius_m sdm addressVector i).
      * rewrite Ha. cbn [default from_option id].
        rewrite length_vote_row; rewrite repeat_length; lia.
      * rewrite repeat_length. lia.
Qed.

Lemma Zsum_single (b : nat -> bool) (f : nat -> Z) (i0 : nat) :
  (forall i, b i = true <-> i = i0) ->
  forall m k,
    Zsum (map (fun i => if b i then f i else 0) (seq k m))
    = if in_window k m i0 then f i0 else 0.
Proof.
  intros Hb. induction m as [|m IH]; intros k.
  - cbn. window.
  - cbn [seq map]. rewrite Zsum_cons, IH.
    destruct (b k) eqn:Hk.
    + apply Hb in Hk. subst k. window. lia.
    + assert (k <> i0).
      { intros ->. rewrite (proj2 (Hb i0) eq_refl) in Hk. discriminate. }
      window.
Qed.

(** X19: in a memory of sparse_malicious_memory.py as its constructor
    leaves it, a write followed by a read at the same vector succeeds
    and returns, in each column, 1 exactly when more of the addresses
    within the radius have a 1 there than not: what is stored and read
    back are the bits of the addresses, and the written vector only
    selects the rows. *)
Theorem malicious_memory_recall (sdm : sparse_malicious_memory.SDM)
    (addrs : list (list Z)) (n : nat) (addressVector : list Z)
    (Hfresh : fresh_m sdm addrs n) :
  exists sdm',
    sparse_malicious_memory.enter sdm addressVector = Ok sdm'
    /\ sparse_malicious_memory.lookup sdm' addressVector
       = Ok (map (fun j => if address_votes sdm addressVector addrs j >? 0
                           then 1 else 0)
                 (seq 0 n)).
Proof.
  destruct (fresh_m_recall sdm addrs n addressVector Hfresh) as [sdm' [He Hl]].
  exists sdm'. split; [exact He|exact Hl].
Qed.


Lemma fresh_example_m_fresh :
  fresh_m fresh_example_m [[0; 1; 1; 0]; [1; 0; 0; 1]; [1; 0; 1; 1]] 4.
Proof.
  split; [reflexivity|]. split; [cbn; lia|]. split; [|reflexivity].
  repeat constructor.
Qed.

Lemma malicious_memory_recall_witness :
  fresh_m fresh_example_m [[0; 1; 1; 0]; [1; 0; 0; 1]; [1; 0; 1; 1]] 4
  /\ exists sdm',
       sparse_malicious_memory.enter fresh_example_m [0; 1] = Ok sdm'
       /\ sparse_malicious_memory.lookup sdm' [0; 1] = Ok [0; 1; 1; 0].
Proof.
  split; [exact fresh_example_m_fresh|].
  exact (malicious_memory_recall fresh_example_m _ 4 [0; 1]
           fresh_example_m_fresh).
Defined.

(** X20: when exactly one address of such a memory lies within the
    radius of the written vector, the read returns that address, bit for
    bit, whatever the vector was. *)
Theorem malicious_memory_returns_address (sdm : sparse_malicious_memory.SDM)
    (addrs : list (list Z)) (n : nat) (addressVector address : list Z)
    (i0 : nat)
    (Hfresh : fresh_m sdm addrs n)
    (Haddress : addrs !! i0 = Some address)
    (Hbits : Forall is_bit address)
    (Honly : forall i, in_radius_m sdm addressVector i = true <-> i = i0) :
  exists sdm',
    sparse_malicious_memory.enter sdm addressVector = Ok sdm'
    /\ sparse_malicious_memory.lookup sdm' addressVector = Ok address.
Proof.
  destruct (fresh_m_recall sdm addrs n addressVector Hfresh) as [sdm' [He Hl]].
  exists sdm'. split; [exact He|]. rewrite Hl. f_equal.
  destruct (fresh_m_rows sdm addrs n Hfresh) as [_ [_ Hrows]].
  assert (Hi0 : (i0 < length addrs)%nat) by (eapply lookup_lt_Some; eauto).
  destruct (Hrows i0 Hi0) as [address' [Ha [Hlen _]]].
  rewrite Haddress in Ha. injection Ha as <-.
  apply list_eq. intros j. rewrite list_lookup_fmap.
  destruct (Nat.lt_ge_cases j n) as [Hj|Hj].
  - rewrite lookup_seq_lt by assumption. cbn [fmap option_fmap option_map Nat.add].
    unfold address_votes.
    rewrite (Zsum_single (in_radius_m sdm addressVector)
               (fun i => vote (default 0 (default [] (addrs !! i) !! j)) 0)
               i0 Honly).
    destruct (in_window 0 (length addrs) i0) eqn:E;
      [|apply in_window_false in E; lia].
    rewrite Haddress. cbn [default from_option id].
    destruct (lookup_lt_is_Some_2 address j ltac:(lia)) as [b Hb].
    rewrite Hb. cbn [default from_option id]. f_equal.
    assert (Hbit : is_bit b).
    { rewrite Forall_forall in Hbits. apply Hbits.
      eapply list_elem_of_lookup_2, Hb. }
    destruct Hbit as [-> | ->]; reflexivity.
  - rewrite lookup_seq_ge by lia. rewrite lookup_ge_None_2 by lia. reflexivity.
Qed.

Lemma fresh_example_m_only :
  forall i, in_radius_m fresh_example_m [0; 1] i = true <-> i = 0%nat.
Proof.
  intros i. destruct i as [|[|[|i]]]; split; intros H;
    try reflexivity; try discriminate; vm_compute in H; discriminate.
Qed.

Lemma malicious_memory_returns_address_witness :
  fresh_m fresh_example_m [[0; 1; 1; 0]; [1; 0; 0; 1]; [1; 0; 1; 1]] 4
  /\ [[0; 1; 1; 0]; [1; 0; 0; 1]; [1; 0; 1; 1]] !! 0%nat = Some [0; 1; 1; 0]
  /\ Forall is_bit [0; 1; 1; 0]
  /\ (forall i, in_radius_m fresh_example_m [0; 1] i = true <-> i = 0%nat)
  /\ exists sdm',
       sparse_malicious_memory.enter fresh_example_m [0; 1] = Ok sdm'
       /\ sparse_malicious_memory.lookup sdm' [0; 1] = Ok [0; 1; 1; 0].
Proof.
  assert (H3 : Forall is_bit [0; 1; 1; 0]).
  { repeat constructor; unfold is_bit; lia. }
  split; [exact fresh_example_m_fresh|]. split; [reflexivity|].
  split; [exact H3|]. split; [exact fresh_example_m_only|].
  exact (malicious_memory_returns_address fresh_example_m _ 4 [0; 1]
           [0; 1; 1; 0] 0 fresh_example_m_fresh eq_refl H3
           fresh_example_m_only).
Defined.

(** ** The loops of main in sparse_malicious_memory.py *)


Lemma enter_m_uniform (sdm : sparse_malicious_memory.SDM) (n : nat)
    (addressVector : list Z) :
  uniform_m sdm n ->
  exists sdm',
    sparse_malicious_memory.enter sdm addressVector = Ok sdm'
    /\ uniform_m sdm' n.
Proof.
  intros [addrs [matrix [Haddrs [Hmat [Hpos Hrows]]]]].
  eexists. split.
  - apply (enter_m_entered sdm addressVector addrs matrix Haddrs Hmat).
    intros i Hi. destruct (Hrows i Hi) as [address [row [Ha [Hr [Hl Hle]]]]].
    exists address, row. split; [exact Ha|]. split; [exact Hr|]. lia.
  - exists addrs, (entered_m sdm addressVector addrs matrix).
    cbn [sparse_malicious_memory.addresses sparse_malicious_memory.data].
    split; [exact Haddrs|]. split.
    { apply list_lookup_insert_eq. eapply lookup_lt_Some; eauto. }
    split; [exact Hpos|].
    intros i Hi. destruct (Hrows i Hi) as [address [row [Ha [Hr [Hl Hle]]]]].
    exists address. eexists. split; [exact Ha|].
    unfold entered_m. rewrite list_lookup_imap, Hr.
    cbn [fmap option_fmap option_map]. split; [reflexivity|].
    split; [exact Hl|].
    destruct (in_radius_m sdm addressVector i); [|exact Hle].
    rewrite Ha. cbn [default from_option id].
    rewrite length_vote_row; lia.
Qed.

Lemma lookup_m_bits (sdm : sparse_malicious_memory.SDM) (n : nat)
    (addressVector : list Z) :
  uniform_m sdm n ->
  exists out,
    sparse_malicious_memory.lookup sdm addressVector = Ok out
    /\ length out = n /\ Forall is_bit out.
Proof.
  intros [addrs [matrix [Haddrs [Hmat [Hpos Hrows]]]]].
  rewrite (lookup_m_spec sdm addressVector addrs matrix n Haddrs Hmat Hpos Hrows).
  eexists. split; [reflexivity|]. split.
  - now rewrite length_map, length_seq.
  - apply Forall_forall. intros x Hx. apply list_elem_of_fmap in Hx.
    destruct Hx as [j [-> _]]. unfold is_bit.
    destruct (_ >? 0); [right|left]; reflexivity.
Qed.

Lemma enter_chunks_uniform (n : nat) (chunks : list (list Z)) :
  forall sdm, uniform_m sdm n ->
    exists sdm',
      sparse_malicious_memory.enter_chunks sdm chunks = Ok sdm'
      /\ uniform_m sdm' n.
Proof.
  induction chunks as [|chunk rest IH]; intros sdm Hu.
  - exists sdm. split; [reflexivity|exact Hu].
  - cbn [sparse_malicious_memory.enter_chunks].
    destruct (enter_m_uniform sdm n chunk Hu) as [sdm1 [He Hu1]].
    rewrite He. cbn [bind]. now apply IH.
Qed.

Lemma lookup_chunks_bits (sdm : sparse_malicious_memory.SDM) (n : nat)
    (chunks : list (list Z)) :
  uniform_m sdm n ->
  forall retrieved, Forall is_bit retrieved ->
    exists out,
      sparse_malicious_memory.lookup_chunks sdm chunks retrieved = Ok out
      /\ length out = (length retrieved + n * length chunks)%nat
      /\ Forall is_bit out.
Proof.
  intros Hu. induction chunks as [|chunk rest IH]; intros retrieved Hbits.
  - exists retrieved. split; [reflexivity|]. split; [cbn; lia|exact Hbits].
  - cbn [sparse_malicious_memory.lookup_chunks].
    destruct (lookup_m_bits sdm n chunk Hu) as [out [Ho [Hol Hob]]].
    rewrite Ho. cbn [bind].
    destruct (IH (retrieved ++ out)) as [res [Hr [Hrl Hrb]]].
    { apply Forall_app. split; assumption. }
    exists res. split; [exact Hr|]. split; [|exact Hrb].
    rewrite Hrl, length_app, Hol. cbn [length]. lia.
Qed.

(** X21: on a memory of sparse_malicious_memory.py with at least one
    address, whose addresses all have n entries and whose rows of
    counters have at least n, the loops of main never raise, whatever
    the chunks are: every chunk is entered, every chunk is read back,
    and the data retrieved are n bits per chunk, also for a chunk
    shorter or longer than n. *)
Theorem malicious_main_loops (sdm : sparse_malicious_memory.SDM) (n : nat)
    (chunks : list (list Z))
    (Hshape : uniform_m sdm n) :
  exists sdm' retrieved_data,
    sparse_malicious_memory.enter_chunks sdm chunks = Ok sdm'
    /\ sparse_malicious_memory.lookup_chunks sdm' chunks [] = Ok retrieved_data
    /\ length retrieved_data = (n * length chunks)%nat
    /\ Forall is_bit retrieved_data.
Proof.
  destruct (enter_chunks_uniform n chunks sdm Hshape) as [sdm' [He Hu]].
  destruct (lookup_chunks_bits sdm' n chunks Hu [] (List.Forall_nil _))
    as [out [Ho [Hol Hob]]].
  exists sdm', out. split; [exact He|]. split; [exact Ho|].
  split; [exact Hol|exact Hob].
Qed.

Lemma example_memory_m_uniform : uniform_m example_memory_m 4.
Proof.
  exists [[0; 1; 1; 0]; [1; 1; 0; 0]], [[2; 0; -1; 0]; [-1; 0; 3; -2]].
  split; [reflexivity|]. split; [reflexivity|]. split; [cbn; lia|].
  intros i Hi. cbn [length] in Hi.
  destruct i as [|[|i]]; [| |lia]; eexists; eexists;
    (split; [reflexivity|]); (split; [reflexivity|]); cbn; lia.
Qed.

Lemma malicious_main_loops_witness :
  uniform_m example_memory_m 4
  /\ exists sdm' retrieved_data,
       sparse_malicious_memory.enter_chunks example_memory_m
         [[0; 1; 1; 0; 1; 1]; [1]] = Ok sdm'
       /\ sparse_malicious_memory.lookup_chunks sdm'
            [[0; 1; 1; 0; 1; 1]; [1]] [] = Ok retrieved_data
       /\ length retrieved_data = (4 * length [[0; 1; 1; 0; 1; 1]; [1]])%nat
       /\ Forall is_bit retrieved_data.
Proof.
  split; [exact example_memory_m_uniform|].
  exact (malicious_main_loops example_memory_m 4 [[0; 1; 1; 0; 1; 1]; [1]]
           example_memory_m_uniform).
Defined.

(** ** Keys whose length is not the vector length *)

Lemma count_of_shift (b : nat -> bool) (m : nat) :
  count_of b (seq 0 (S m))
  = (if b 0%nat then 1 else 0) + count_of (fun i => b (S i)) (seq 0 m).
Proof.
  unfold count_of. cbn [seq map]. rewrite Zsum_cons. f_equal.
  rewrite <- seq_shift, map_map. reflexivity.
Qed.

(** The distance of compression_test.py counts the differing positions
    of the common prefix. *)
Lemma hamming_distance_differing (a : list Z) :
  forall b,
    hamming_distance a b = differing a b (min (length a) (length b)).
Proof.
  induction a as [|x a IH]; intros [|y b].
  - reflexivity.
  - reflexivity.
  - rewrite hamming_distance_nil_r. reflexivity.
  - rewrite hamming_distance_cons, IH. cbn [length Nat.min].
    unfold differing. rewrite count_of_shift. cbn [base.lookup list_lookup].
    cbn [default from_option id]. f_equal. now destruct (x =? y).
Qed.

Lemma differing_padded (address key_vector : list Z) (k m : nat) :
  differing address (key_vector ++ repeat 0 k) m
  = differing address key_vector m.
Proof.
  unfold differing, count_of. f_equal. apply map_ext. intros i.
  assert (H : default 0 ((key_vector ++ repeat 0 k) !! i)
              = default 0 (key_vector !! i)).
  { destruct (Nat.lt_ge_cases i (length key_vector)) as [Hi|Hi].
    - now rewrite lookup_app_l.
    - rewrite lookup_app_r, (lookup_ge_None_2 key_vector) by lia.
      destruct (Nat.lt_ge_cases (i - length key_vector) k) as [Hk|Hk].
      + now rewrite lookup_repeat.
      + rewrite lookup_ge_None_2; [reflexivity|]. now rewrite repeat_length. }
  now rewrite H.
Qed.

(** The distance of [enter] in sparse_malicious_memory.py: the address
    against the key padded with zeros up to the length of the address. *)
Lemma padded_distance (address addressVector : list Z) :
  hamming_distance_indexed address
    (addressVector ++ list_mul 0 (len address - len addressVector))
  = Ok (differing address addressVector (length address)).
Proof.
  unfold hamming_distance_indexed. rewrite hamming_loop_zip.
  set (padded := addressVector ++ list_mul 0 (len address - len addressVector)).
  assert (Hlen : (length address <= length padded)%nat).
  { subst padded. rewrite length_app. unfold list_mul, len.
    rewrite repeat_length. lia. }
  destruct (Nat.leb_spec (length address) (length padded)); [|lia].
  rewrite Z.add_0_l, hamming_distance_differing.
  rewrite Nat.min_l by exact Hlen. subst padded. unfold list_mul.
  now rewrite differing_padded.
Qed.

(** The loop of [lookup] when every row is shorter than the key: it
    raises [IndexError] at the first address within the radius. *)
Lemma lookup_rows_long_key (sdm : SDM) (key_vector : list Z) :
  (forall i, (i < length (keys sdm))%nat ->
     exists row, data sdm !! i = Some row
                 /\ (length row < length key_vector)%nat) ->
  forall is_ retrieved,
    Forall (fun i => (i < length (keys sdm))%nat) is_ ->
    length retrieved = length key_vector ->
    lookup_rows sdm key_vector is_ retrieved
    = if existsb (in_radius sdm key_vector) is_
      then Raise IndexError else Ok retrieved.
Proof.
  intros Hrows. induction is_ as [|i is_ IH]; intros retrieved His Hlen.
  - reflexivity.
  - apply Forall_cons in His as [Hi His]. cbn [lookup_rows existsb].
    destruct (lookup_lt_is_Some_2 (keys sdm) i Hi) as [key Hkey].
    rewrite (getitem_Some _ _ _ Hkey). cbn [bind].
    unfold in_radius at 1. rewrite Hkey.
    destruct (hamming_distance key key_vector <=? radius sdm); cbn [orb].
    + destruct (Hrows i Hi) as [row [Hrow Hshort]].
      rewrite (accumulate_short_row i (data sdm) row Hrow);
        [reflexivity|lia|lia|lia].
    + now apply IH.
Qed.

(** C8, as amended.  Neither file rejects a key for its length.  In
    compression_test.py the distance counts the differing positions of
    the common prefix of address and key; on a memory whose rows have n
    counters, [enter] succeeds for a key of any length (it votes on the
    rows whose address is within the radius, for every data vector of at
    most n entries); [lookup] succeeds for a key of at most n entries and
    returns as many bits as the key has; for a longer key [lookup]
    returns zeros when no address is within the radius and otherwise
    raises [IndexError], from the loop that adds the counters.  In
    sparse_malicious_memory.py [enter] measures each address against the
    key padded with zeros up to the length of the address (a longer key
    is compared on the length of the address only) and succeeds for a
    key of any length, voting on the rows within the radius. *)
Theorem key_length_unchecked (sdm : compression_test.SDM) (n_ : nat)
    (sdm_m : sparse_malicious_memory.SDM)
    (Hrows : rows_of_length sdm n_)
    (Hshape : well_shaped_m sdm_m) :
  (forall address key_vector,
     compression_test.hamming_distance address key_vector
     = differing address key_vector
         (min (length address) (length key_vector)))
  /\ (forall key_vector data_vector,
        (length data_vector <= n_)%nat ->
        compression_test.enter sdm key_vector data_vector
        = Ok {| compression_test.p := compression_test.p sdm;
                compression_test.n := compression_test.n sdm;
                compression_test.keys := compression_test.keys sdm;
                compression_test.data := entered sdm key_vector data_vector;
                compression_test.radius := compression_test.radius sdm |})
  /\ (forall key_vector,
        (length key_vector <= n_)%nat ->
        exists out,
          compression_test.lookup sdm key_vector = Ok out
          /\ length out = length key_vector
          /\ forall j, (j < length key_vector)%nat ->
               out !! j
               = Some (compression_test.threshold
                         (accumulated_sum sdm key_vector j)))
  /\ (forall key_vector,
        (n_ < length key_vector)%nat ->
        compression_test.lookup sdm key_vector
        = if existsb (in_radius sdm key_vector)
                     (seq 0 (length (compression_test.keys sdm)))
          then Raise IndexError
          else Ok (repeat 0 (length key_vector)))
  /\ (forall address addressVector,
        sparse_malicious_memory.hamming_distance address
          (addressVector ++ list_mul 0 (len address - len addressVector))
        = Ok (differing address addressVector (length address)))
  /\ exists addrs matrix,
       sparse_malicious_memory.addresses sdm_m !! 0%nat = Some addrs
       /\ sparse_malicious_memory.data sdm_m !! 0%nat = Some matrix
       /\ forall addressVector,
            sparse_malicious_memory.enter sdm_m addressVector
            = Ok {| sparse_malicious_memory.p := sparse_malicious_memory.p sdm_m;
                    sparse_malicious_memory.n := sparse_malicious_memory.n sdm_m;
                    sparse_malicious_memory.addresses :=
                      sparse_malicious_memory.addresses sdm_m;
                    sparse_malicious_memory.data :=
                      <[0%nat := entered_m sdm_m addressVector addrs matrix]>
                        (sparse_malicious_memory.data sdm_m);
                    sparse_malicious_memory.radius :=
                      sparse_malicious_memory.radius sdm_m |}.
Proof.
  assert (Hcov : forall m, (m <= n_)%nat -> covers sdm m).
  { intros m Hm i Hi. destruct (Hrows i Hi) as [row [Hrow Hlen]].
    exists row. split; [exact Hrow|lia]. }
  split; [intros address key_vector; apply hamming_distance_differing|].
  split; [intros key_vector data_vector Hlen; now apply enter_entered, Hcov|].
  split; [intros key_vector Hlen; now apply lookup_spec, Hcov|].
  split.
  { intros key_vector Hlong. unfold compression_test.lookup.
    rewrite (lookup_rows_long_key sdm key_vector);
      [|intros i Hi; destruct (Hrows i Hi) as [row [Hrow Hlen]];
        exists row; split; [exact Hrow|lia]
       |apply Forall_seq_lt|apply repeat_length].
    destruct (existsb _ _); [reflexivity|]. cbn [bind]. f_equal.
    now rewrite map_repeat. }
  split; [intros address addressVector; apply padded_distance|].
  destruct Hshape as [addrs [matrix [Haddrs [Hmat Hshape]]]].
  exists addrs, matrix. split; [exact Haddrs|]. split; [exact Hmat|].
  intros addressVector. now apply enter_m_entered.
Qed.

Lemma example_memory_rows : rows_of_length example_memory 4.
Proof.
  intros i Hi. cbn in Hi.
  destruct i as [|[|i]]; [| |lia]; eexists; (split; reflexivity).
Qed.

Lemma key_length_unchecked_witness :
  rows_of_length example_memory 4
  /\ well_shaped_m example_memory_m
  /\ (exists sdm',
        compression_test.enter example_memory [0; 1; 1; 0; 1; 1; 1] [1; 0; 1; 1]
        = Ok sdm')
  /\ (exists out,
        compression_test.lookup example_memory [0; 1] = Ok out
        /\ length out = 2%nat)
  /\ compression_test.lookup example_memory [0; 1; 1; 0; 1] = Raise IndexError
  /\ compression_test.lookup example_memory [1; 0; 0; 1; 1]
     = Ok [0; 0; 0; 0; 0]
  /\ (exists sdm_m',
        sparse_malicious_memory.enter example_memory_m [0; 1] = Ok sdm_m').
Proof.
  pose proof example_memory_rows as H1.
  pose proof example_memory_m_well_shaped as H2.
  split; [exact H1|]. split; [exact H2|].
  destruct (key_length_unchecked example_memory 4 example_memory_m H1 H2)
    as [_ [He [Hl [Hlong [_ [addrs [matrix [_ [_ Hm]]]]]]]]].
  split; [eexists; apply He; cbn; lia|].
  split.
  { destruct (Hl [0; 1] ltac:(cbn; lia)) as [out [Ho [Hn _]]].
    exists out. split; [exact Ho|exact Hn]. }
  split; [rewrite Hlong by (cbn; lia); reflexivity|].
  split; [rewrite Hlong by (cbn; lia); reflexivity|].
  eexists. apply Hm.
Defined.

(** C8, as stated, fails: on memories of vector length 4, a write and a
    read with a key of length 2 return normally, in compression_test.py
    and in sparse_malicious_memory.py, and so does a write with a key of
    length 7 in compression_test.py. *)
Lemma short_key_accepted :
  compression_test.n example_memory = 4 /\ len [0; 1] = 2
  /\ compression_test.enter example_memory [0; 1] [1; 0; 1; 1]
     = Ok {| compression_test.p := 2;
             compression_test.n := 4;
             compression_test.keys := [[0; 1; 1; 0]; [1; 1; 0; 0]];
             compression_test.data := [[3; -1; 0; 1]; [0; -1; 4; -1]];
             compression_test.radius := 1 |}
  /\ compression_test.lookup example_memory [0; 1] = Ok [1; 0]
  /\ compression_test.enter example_memory [0; 1; 1; 0; 1; 1; 1] [1; 0; 1; 1]
     = Ok {| compression_test.p := 2;
             compression_test.n := 4;
             compression_test.keys := [[0; 1; 1; 0]; [1; 1; 0; 0]];
             compression_test.data := [[3; -1; 0; 1]; [-1; 0; 3; -2]];
             compression_test.radius := 1 |}
  /\ sparse_malicious_memory.n example_memory_m = 4
  /\ sparse_malicious_memory.enter example_memory_m [0; 1]
     = Ok {| sparse_malicious_memory.p := 2;
             sparse_malicious_memory.n := 4;
             sparse_malicious_memory.addresses := [[[0; 1; 1; 0]; [1; 1; 0; 0]]];
             sparse_malicious_memory.data := [[[1; 1; 0; -1]; [0; 1; 2; -3]]];
             sparse_malicious_memory.radius :=
               S754_finite false 8124493727776375 (-52) |}.
Proof.
  split; [reflexivity|]. split; [reflexivity|].
  split; [vm_compute; reflexivity|]. split; [vm_compute; reflexivity|].
  split; [vm_compute; reflexivity|].
  split; [reflexivity|]. vm_compute. reflexivity.
Qed.
